(** * pyj2d.mixer: channel pools, channels and sounds

    A shallow embedding of [src/mixer.py] (classes [Mixer], [Sound] and
    [Channel]) and the properties of its channel pool manager and of the
    per-channel playback state machine.

    Conventions of the embedding.
    - The three [ConcurrentLinkedDeque]s are lists of channel ids, head
      first: [pop] takes the head, [add] appends at the tail, [remove(o)]
      deletes the first occurrence of [o], iteration runs head to tail.
    - The dictionary [Mixer._channels] is a [gmap] from channel id to the
      [Channel] object; a channel is identified with its registry entry,
      so its own [_id] attribute is the key it is stored under.
    - Python exceptions are values of [exn]; a method that can raise returns
      a [result] that carries the state reached when the exception left it.
    - Volumes are rationals.  The code only compares volumes with 0.0 and
      1.0, tests them for truth and multiplies them; every finite float is a
      rational and the comparisons agree on them.  A NaN, which fails every
      comparison and would be stored as it is, has no counterpart: what is
      proved of volumes is proved of finite volumes.
    - The arguments of [init] are integers (and a rational for a float
      size) kept as they are; [AudioFormat] does so for a frequency of
      magnitude at most 2^24 and a bit size below 2^31, and statements
      about the format carry that bound.
    - A decode cursor ([AudioInputStream]) is the list of the outcomes its
      remaining [read] calls will have; at the end of the list [read]
      returns -1, as the Java stream does at end of stream.
    - A channel method called on an id without a registry entry has no
      object to act on and leaves the state as it is.  A channel object
      that a caller keeps after [set_num_channels] has unregistered it is
      outside the calls of [exec]; [kept_stop] and [kept_unpause] are the
      methods run on such an object.
    - A [Sound] is a value (id, source, volume): [Sound.set_volume] maps a
      value to a value, and neither the sharing of one sound object between
      its owner and the channels that play it nor the [_channel] attribute
      that [Sound.play] leaves behind is modelled.
    - The mixing thread is not modelled as a thread: its pull of a channel
      ([Channel._get]) and a turn of the loop of [run] are run atomically,
      between two calls. *)

From Stdlib Require Import ZArith QArith Qabs Bool List Lia.
From stdpp Require Import base option list list_numbers gmap.
Import ListNotations.

Local Open Scope Z_scope.

(** ** Exceptions and results *)

Inductive exn : Type :=
| AttributeError
| NoSuchElementException.

Inductive result (St A : Type) : Type :=
| Ok (a : A) (s : St)
| Raise (e : exn) (s : St).
Arguments Ok {St A} a s.
Arguments Raise {St A} e s.

Definition state_of {St A} (r : result St A) : St :=
  match r with Ok _ s => s | Raise _ s => s end.

Definition value_of {St A} (r : result St A) : option A :=
  match r with Ok a _ => Some a | Raise _ _ => None end.

(** ** ConcurrentLinkedDeque *)

Section Deque.
Context {A : Type} `{EqDecision A}.

Definition deque_pop (d : list A) : option (A * list A) :=
  match d with
  | [] => None
  | x :: d' => Some (x, d')
  end.

Definition deque_add (x : A) (d : list A) : list A := d ++ [x].

Fixpoint deque_remove (x : A) (d : list A) : list A :=
  match d with
  | [] => []
  | y :: d' => if decide (y = x) then d' else y :: deque_remove x d'
  end.

Definition deque_isEmpty (d : list A) : bool :=
  match d with [] => true | _ => false end.
End Deque.

(** ** Sounds, decode cursors and channels *)

Inductive read_event : Type :=
| ReadBytes (n : Z)        (* read returns n *)
| ReadIOException.         (* read raises IOException *)

Definition Stream : Type := list read_event.

(** [AudioInputStream.read]: the length returned, or [None] for an
    [IOException], and the cursor afterwards. *)
Definition stream_read (st : Stream) : option Z * Stream :=
  match st with
  | [] => (Some (-1), [])
  | ReadBytes n :: st' => (Some n, st')
  | ReadIOException :: st' => (None, st')
  end.

Record Sound : Type := mkSound {
  s_id : Z;
  s_sound_object : Stream;   (* what a cursor opened on the source reads *)
  s_volume : Q
}.

Record Channel : Type := mkChannel {
  c_sound : option Sound;
  c_stream : option Stream;
  c_data_len : Z;
  c_active : bool;
  c_pause : bool;
  c_loops : Z;
  c_volume : Q;
  c_lvolume : Q;
  c_rvolume : Q
}.

(** [Channel.__init__], the attribute values only. *)
Definition Channel_new : Channel :=
  {| c_sound := None; c_stream := None; c_data_len := 0;
     c_active := false; c_pause := false; c_loops := 0;
     c_volume := 1; c_lvolume := 1; c_rvolume := 1 |}.

(** ** The audio backend and the mixer *)

Inductive Encoding : Type := PCM_SIGNED | PCM_UNSIGNED.

Record AudioFormat : Type := mkAudioFormat {
  af_encoding : Encoding;
  af_sampleRate : Z;
  af_sampleSizeInBits : Z;
  af_channels : Z;
  af_frameSize : Z;
  af_frameRate : Z;
  af_bigEndian : bool
}.

(** What [AudioMixer(format, buffer)] does.  [AudioMixer] is [None] when
    the Java class could not be imported, and calling it raises
    [TypeError]; otherwise the object tells whether the line was opened
    and the buffer size it settled on. *)
Inductive AudioMixer : Type :=
| MixerClassMissing
| MixerObject (isInitialized : bool) (getBufferSize : Z).

Record Mixer : Type := mkMixer {
  m_mixer : option AudioMixer;
  m_audio_format : option AudioFormat;
  m_bufferSize : option Z;          (* [None]: attribute not yet set *)
  m_music : bool;                   (* [self.music] is a [Music] object *)
  m_channel_max : Z;
  m_channels : gmap Z Channel;
  m_channel_available : list Z;
  m_channel_active : list Z;
  m_channel_reserved : list Z;
  m_channel_reserved_num : Z;
  m_active : bool;
  m_initialized : bool
}.

(** [Mixer.__init__] *)
Definition Mixer_new : Mixer :=
  {| m_mixer := None; m_audio_format := None; m_bufferSize := None;
     m_music := false; m_channel_max := 8; m_channels := ∅;
     m_channel_available := seqZ 0 8; m_channel_active := [];
     m_channel_reserved := []; m_channel_reserved_num := 0;
     m_active := false; m_initialized := false |}.

(** Field updates. *)
Definition set_channels (f : gmap Z Channel → gmap Z Channel) (w : Mixer) : Mixer :=
  {| m_mixer := m_mixer w; m_audio_format := m_audio_format w;
     m_bufferSize := m_bufferSize w; m_music := m_music w;
     m_channel_max := m_channel_max w; m_channels := f (m_channels w);
     m_channel_available := m_channel_available w;
     m_channel_active := m_channel_active w;
     m_channel_reserved := m_channel_reserved w;
     m_channel_reserved_num := m_channel_reserved_num w;
     m_active := m_active w; m_initialized := m_initialized w |}.

Definition set_available (f : list Z → list Z) (w : Mixer) : Mixer :=
  {| m_mixer := m_mixer w; m_audio_format := m_audio_format w;
     m_bufferSize := m_bufferSize w; m_music := m_music w;
     m_channel_max := m_channel_max w; m_channels := m_channels w;
     m_channel_available := f (m_channel_available w);
     m_channel_active := m_channel_active w;
     m_channel_reserved := m_channel_reserved w;
     m_channel_reserved_num := m_channel_reserved_num w;
     m_active := m_active w; m_initialized := m_initialized w |}.

Definition set_active_pool (f : list Z → list Z) (w : Mixer) : Mixer :=
  {| m_mixer := m_mixer w; m_audio_format := m_audio_format w;
     m_bufferSize := m_bufferSize w; m_music := m_music w;
     m_channel_max := m_channel_max w; m_channels := m_channels w;
     m_channel_available := m_channel_available w;
     m_channel_active := f (m_channel_active w);
     m_channel_reserved := m_channel_reserved w;
     m_channel_reserved_num := m_channel_reserved_num w;
     m_active := m_active w; m_initialized := m_initialized w |}.

Definition set_reserved_pool (f : list Z → list Z) (w : Mixer) : Mixer :=
  {| m_mixer := m_mixer w; m_audio_format := m_audio_format w;
     m_bufferSize := m_bufferSize w; m_music := m_music w;
     m_channel_max := m_channel_max w; m_channels := m_channels w;
     m_channel_available := m_channel_available w;
     m_channel_active := m_channel_active w;
     m_channel_reserved := f (m_channel_reserved w);
     m_channel_reserved_num := m_channel_reserved_num w;
     m_active := m_active w; m_initialized := m_initialized w |}.

Definition set_reserved_num (n : Z) (w : Mixer) : Mixer :=
  {| m_mixer := m_mixer w; m_audio_format := m_audio_format w;
     m_bufferSize := m_bufferSize w; m_music := m_music w;
     m_channel_max := m_channel_max w; m_channels := m_channels w;
     m_channel_available := m_channel_available w;
     m_channel_active := m_channel_active w;
     m_channel_reserved := m_channel_reserved w;
     m_channel_reserved_num := n;
     m_active := m_active w; m_initialized := m_initialized w |}.

Definition set_channel_max (n : Z) (w : Mixer) : Mixer :=
  {| m_mixer := m_mixer w; m_audio_format := m_audio_format w;
     m_bufferSize := m_bufferSize w; m_music := m_music w;
     m_channel_max := n; m_channels := m_channels w;
     m_channel_available := m_channel_available w;
     m_channel_active := m_channel_active w;
     m_channel_reserved := m_channel_reserved w;
     m_channel_reserved_num := m_channel_reserved_num w;
     m_active := m_active w; m_initialized := m_initialized w |}.

Definition set_m_active (b : bool) (w : Mixer) : Mixer :=
  {| m_mixer := m_mixer w; m_audio_format := m_audio_format w;
     m_bufferSize := m_bufferSize w; m_music := m_music w;
     m_channel_max := m_channel_max w; m_channels := m_channels w;
     m_channel_available := m_channel_available w;
     m_channel_active := m_channel_active w;
     m_channel_reserved := m_channel_reserved w;
     m_channel_reserved_num := m_channel_reserved_num w;
     m_active := b; m_initialized := m_initialized w |}.

(** ** Pool primitives of the mixer *)

Definition _activate_channel (id : Z) (w : Mixer) : Mixer :=
  let w1 :=
    if decide (id > m_channel_reserved_num w - 1)
    then set_available (deque_remove id) w
    else set_reserved_pool (deque_remove id) w in
  set_m_active true (set_active_pool (deque_add id) w1).

Definition _deactivate_channel (id : Z) (w : Mixer) : Mixer :=
  let w1 := set_active_pool (deque_remove id) w in
  if deque_isEmpty (m_channel_active w1) then set_m_active false w1 else w1.

Definition _restore_channel (id : Z) (w : Mixer) : Mixer :=
  if decide (id > m_channel_reserved_num w - 1)
  then set_available (deque_add id) w
  else if decide (id > -1)
       then set_reserved_pool (deque_add id) w
       else w.

(** [_register_channel]; the channel's own id is the key. *)
Definition _register_channel (id : Z) (c : Channel) (w : Mixer) : result Mixer unit :=
  if decide (id < m_channel_max w)
  then Ok tt (set_channels (<[id := c]>) w)
  else Raise AttributeError w.

(** [Channel(id)]: the constructor reads [self._mixer._bufferSize] to
    allocate its buffer, then registers the new object. *)
Definition Channel_init (id : Z) (w : Mixer) : result Mixer Z :=
  match m_bufferSize w with
  | None => Raise AttributeError w
  | Some _ =>
      match _register_channel id Channel_new w with
      | Ok _ w' => Ok id w'
      | Raise e w' => Raise e w'
      end
  end.

Definition _get_channel (id : Z) (w : Mixer) : result Mixer Z :=
  match m_channels w !! id with
  | Some _ => Ok id w
  | None => Channel_init id w
  end.

(** ** Channel methods *)

(** Attribute assignments on the channel object registered under [id]. *)
Definition upd_channel (id : Z) (f : Channel → Channel) (w : Mixer) : Mixer :=
  set_channels (alter f id) w.

Definition c_set_active (b : bool) (c : Channel) : Channel :=
  {| c_sound := c_sound c; c_stream := c_stream c; c_data_len := c_data_len c;
     c_active := b; c_pause := c_pause c; c_loops := c_loops c;
     c_volume := c_volume c; c_lvolume := c_lvolume c; c_rvolume := c_rvolume c |}.

Definition c_set_pause (b : bool) (c : Channel) : Channel :=
  {| c_sound := c_sound c; c_stream := c_stream c; c_data_len := c_data_len c;
     c_active := c_active c; c_pause := b; c_loops := c_loops c;
     c_volume := c_volume c; c_lvolume := c_lvolume c; c_rvolume := c_rvolume c |}.

Definition c_set_loops (n : Z) (c : Channel) : Channel :=
  {| c_sound := c_sound c; c_stream := c_stream c; c_data_len := c_data_len c;
     c_active := c_active c; c_pause := c_pause c; c_loops := n;
     c_volume := c_volume c; c_lvolume := c_lvolume c; c_rvolume := c_rvolume c |}.

Definition c_set_stream (st : option Stream) (c : Channel) : Channel :=
  {| c_sound := c_sound c; c_stream := st; c_data_len := c_data_len c;
     c_active := c_active c; c_pause := c_pause c; c_loops := c_loops c;
     c_volume := c_volume c; c_lvolume := c_lvolume c; c_rvolume := c_rvolume c |}.

Definition c_set_sound (s : option Sound) (c : Channel) : Channel :=
  {| c_sound := s; c_stream := c_stream c; c_data_len := c_data_len c;
     c_active := c_active c; c_pause := c_pause c; c_loops := c_loops c;
     c_volume := c_volume c; c_lvolume := c_lvolume c; c_rvolume := c_rvolume c |}.

Definition c_set_data_len (n : Z) (c : Channel) : Channel :=
  {| c_sound := c_sound c; c_stream := c_stream c; c_data_len := n;
     c_active := c_active c; c_pause := c_pause c; c_loops := c_loops c;
     c_volume := c_volume c; c_lvolume := c_lvolume c; c_rvolume := c_rvolume c |}.

Definition c_set_volumes (v l r : Q) (c : Channel) : Channel :=
  {| c_sound := c_sound c; c_stream := c_stream c; c_data_len := c_data_len c;
     c_active := c_active c; c_pause := c_pause c; c_loops := c_loops c;
     c_volume := v; c_lvolume := l; c_rvolume := r |}.

(** [_set_sound]: bind the sound and open a cursor on its source. *)
Definition c__set_sound (s : Sound) (c : Channel) : Channel :=
  c_set_stream (Some (s_sound_object s)) (c_set_sound (Some s) c).

Definition Channel__set_sound (id : Z) (s : Sound) (w : Mixer) : Mixer :=
  upd_channel id (c__set_sound s) w.

(** What [stop] assigns after it has left the active pool. *)
Definition c_reset (c : Channel) : Channel :=
  c_set_volumes 1 1 1
    (c_set_loops 0 (c_set_pause false (c_set_sound None (c_set_stream None c)))).

Definition Channel_stop (id : Z) (w : Mixer) : Mixer :=
  match m_channels w !! id with
  | None => w
  | Some c =>
      if negb (c_active c) then w
      else
        let w1 := upd_channel id (c_set_active false) w in
        let w2 := _deactivate_channel id w1 in
        let w3 := upd_channel id c_reset w2 in
        _restore_channel id w3
  end.

Definition Channel_pause (id : Z) (w : Mixer) : Mixer :=
  match m_channels w !! id with
  | None => w
  | Some c =>
      if c_active c
      then upd_channel id (fun c => c_set_pause true (c_set_active false c)) w
      else w
  end.

Definition Channel_unpause (id : Z) (w : Mixer) : Mixer :=
  match m_channels w !! id with
  | None => w
  | Some c =>
      if c_pause c
      then upd_channel id (fun c => c_set_pause false (c_set_active true c)) w
      else w
  end.

Definition Qlt_bool (x y : Q) : bool := negb (Qle_bool y x).

(** [if v < 0.0: v = 0.0 elif v > 1.0: v = 1.0], on a finite [v]. *)
Definition clamp_volume (v : Q) : Q :=
  if Qlt_bool v 0 then 0%Q else if Qlt_bool 1 v then 1%Q else v.

(** Truth value of the optional second argument: [None] and zero are false. *)
Definition truthy (v : option Q) : bool :=
  match v with
  | None => false
  | Some q => negb (Qeq_bool q 0)
  end.

Definition c_set_volume (volume : Q) (volume2 : option Q) (c : Channel) : Channel :=
  let volume := clamp_volume volume in
  if truthy volume2
  then c_set_volumes (c_volume c) volume
         (clamp_volume (default 0%Q volume2)) c
  else c_set_volumes volume volume volume c.

Definition Channel_set_volume (id : Z) (volume : Q) (volume2 : option Q)
    (w : Mixer) : Mixer :=
  upd_channel id (c_set_volume volume volume2) w.

Definition Channel_get_volume (id : Z) (w : Mixer) : option Q :=
  c_volume <$> m_channels w !! id.

Definition Channel_get_busy (id : Z) (w : Mixer) : bool :=
  from_option c_active false (m_channels w !! id).

(** [_play], used by [Sound.play] on the channel it retrieved. *)
Definition Channel__play (id : Z) (s : Sound) (loops : Z) (w : Mixer) : Mixer :=
  upd_channel id (fun c => c_set_active true (c_set_loops loops (c__set_sound s c))) w.

Definition Channel_play (id : Z) (s : Sound) (loops : Z) (w : Mixer) : Mixer :=
  match m_channels w !! id with
  | None => w
  | Some c =>
      let w1 :=
        match c_sound c with
        | Some _ =>
            let lv := c_lvolume c in
            let rv := c_rvolume c in
            Channel_set_volume id lv (Some rv) (Channel_stop id w)
        | None => w
        end in
      let w2 :=
        upd_channel id
          (fun c => c_set_active true (c_set_loops loops (c__set_sound s c))) w1 in
      _activate_channel id w2
  end.

(** [_get]: one pull of the mixing thread.  The value is
    [(data_len, left gain, right gain)]. *)
Definition Channel__get (id : Z) (w : Mixer) : result Mixer (Z * Q * Q) :=
  match m_channels w !! id with
  | None => Raise AttributeError w
  | Some c =>
      match c_stream c with
      | None => Raise AttributeError w
      | Some st =>
          let '(r, st') := stream_read st in
          let data_len := default 0 r in
          let w1 :=
            upd_channel id
              (fun c => c_set_data_len data_len (c_set_stream (Some st') c)) w in
          if decide (data_len > 0) then
            match c_sound c with
            | None => Raise AttributeError w1
            | Some s =>
                Ok (data_len, (c_lvolume c * s_volume s)%Q,
                    (c_rvolume c * s_volume s)%Q) w1
            end
          else if decide (c_loops c = 0) then
            Ok (data_len, 1%Q, 1%Q) (Channel_stop id w1)
          else
            match c_sound c with
            | None => Raise AttributeError w1
            | Some s =>
                Ok (data_len, 1%Q, 1%Q)
                   (upd_channel id
                      (fun c => c_set_loops (c_loops c - 1) (c__set_sound s c)) w1)
            end
      end
  end.

(** ** Mixer methods *)

Definition get_num_channels (w : Mixer) : Z := m_channel_max w.

(** One turn of the shrinking loop of [set_num_channels]. *)
Definition shrink_step (w : Mixer) (id : Z) : Mixer :=
  let w1 :=
    match m_channels w !! id with
    | Some _ => set_channels (delete id) (Channel_stop id w)
    | None => w
    end in
  set_available (deque_remove id) w1.

Definition set_num_channels (count : Z) (w : Mixer) : Mixer :=
  let channel_max := m_channel_max w in
  if decide (count >= channel_max) then
    set_channel_max count
      (foldl (fun w id => set_available (deque_add id) w) w
         (seqZ channel_max (count - channel_max)))
  else if decide (count >= 0) then
    set_channel_max count
      (foldl shrink_step w (seqZ count (channel_max - count)))
  else w.

(** One turn of the loop of [set_reserved]. *)
Definition reserve_step (w : Mixer) (id : Z) : Mixer :=
  set_available (deque_remove id) (set_reserved_pool (deque_add id) w).

Definition clamp_reserved (count : Z) (w : Mixer) : Z :=
  if decide (count > m_channel_max w) then m_channel_max w
  else if decide (count < 0) then 0
  else count.

Definition set_reserved (count : Z) (w : Mixer) : Mixer :=
  let count := clamp_reserved count w in
  let w1 := set_reserved_num count w in
  let w2 := set_reserved_pool (fun _ => []) w1 in
  foldl reserve_step w2 (seqZ 0 count).

(** The loop of [find_channel] over the active pool: the pair
    [(longest, longest_reserved)] it ends with. *)
Fixpoint scan_active (reserved_num : Z) (active : list Z)
    (longest_reserved : option Z) : option Z * option Z :=
  match active with
  | [] => (None, longest_reserved)
  | id :: active' =>
      if decide (id > reserved_num - 1) then (Some id, longest_reserved)
      else if decide (id > -1) then
        scan_active reserved_num active'
          (match longest_reserved with
           | None => Some id
           | Some _ => longest_reserved
           end)
      else scan_active reserved_num active' longest_reserved
  end.

Definition returning_channel (r : result Mixer Z) : result Mixer (option Z) :=
  match r with
  | Ok ch w => Ok (Some ch) w
  | Raise e w => Raise e w
  end.

Definition find_channel (force : bool) (w : Mixer) : result Mixer (option Z) :=
  match deque_pop (m_channel_available w) with
  | Some (id, rest) =>
      returning_channel
        (_get_channel id (set_available (fun _ => deque_add id rest) w))
  | None =>
      match (if decide (m_channel_reserved_num w = 0) then None
             else deque_pop (m_channel_reserved w)) with
      | Some (id, rest) =>
          returning_channel
            (_get_channel id (set_reserved_pool (fun _ => deque_add id rest) w))
      | None =>
          if negb force then Ok None w
          else
            let '(longest, longest_reserved) :=
              scan_active (m_channel_reserved_num w) (m_channel_active w) None in
            let channel :=
              match longest with
              | Some id => id
              | None =>
                  match longest_reserved with
                  | Some id => id
                  | None => 0
                  end
              end in
            returning_channel (_get_channel channel w)
      end
  end.

Definition _retrieve_channel (w : Mixer) : result Mixer (option Z) :=
  match deque_pop (m_channel_available w) with
  | None => Ok None w
  | Some (id, rest) =>
      match _get_channel id (set_available (fun _ => rest) w) with
      | Raise e w' => Raise e w'
      | Ok ch w' =>
          Ok (Some ch) (set_m_active true (set_active_pool (deque_add id) w'))
      end
  end.

(** [Sound.play]: the channel it returns is also left in [self._channel]. *)
Definition Sound_play (s : Sound) (loops : Z) (w : Mixer) : result Mixer (option Z) :=
  match _retrieve_channel w with
  | Raise e w' => Raise e w'
  | Ok None w' => Ok None w'
  | Ok (Some ch) w' => Ok (Some ch) (Channel__play ch s loops w')
  end.

(** The [size] argument of [init]: an [int] or a [float]. *)
Inductive pynum : Type :=
| PyInt (z : Z)
| PyFloat (q : Q).

(** [int(x)] of a float: truncation towards zero. *)
Definition int_of_Q (q : Q) : Z := Z.quot (Qnum q) (Z.pos (Qden q)).

Definition size_negative (size : pynum) : bool :=
  match size with
  | PyInt z => bool_decide (z < 0)
  | PyFloat q => Qlt_bool q 0
  end.

(** [int(abs(size))] *)
Definition size_bits (size : pynum) : Z :=
  match size with
  | PyInt z => Z.abs z
  | PyFloat q => int_of_Q (Qabs q)
  end.

(** [int((abs(size)/8) * channels)]; on an [int] the division is the
    floor division of Python 2. *)
Definition size_framesize (size : pynum) (channels : Z) : Z :=
  match size with
  | PyInt z => (Z.abs z / 8) * channels
  | PyFloat q => int_of_Q ((Qabs q / 8) * inject_Z channels)%Q
  end.

Definition size_is_float (size : pynum) : bool :=
  match size with PyInt _ => false | PyFloat _ => true end.

Definition set_backend (mx : option AudioMixer) (fmt : option AudioFormat)
    (bufferSize : option Z) (music initialized : bool) (w : Mixer) : Mixer :=
  {| m_mixer := mx; m_audio_format := fmt;
     m_bufferSize := bufferSize; m_music := music;
     m_channel_max := m_channel_max w; m_channels := m_channels w;
     m_channel_available := m_channel_available w;
     m_channel_active := m_channel_active w;
     m_channel_reserved := m_channel_reserved w;
     m_channel_reserved_num := m_channel_reserved_num w;
     m_active := m_active w; m_initialized := initialized |}.

(** [AudioFormat] keeps the sample rate and the frame rate as 32-bit
    floats and the sample size, the channel count and the frame size as
    Java [int]s.  The model keeps them as integers, which is what the code
    stores for a frequency of magnitude at most 2^24 (every such integer
    is a 32-bit float) and a bit size below 2^31; outside that range the
    rate is rounded or the constructor refuses the size, and [init] is not
    modelled. *)
Definition float_exact (z : Z) : Prop := Z.abs z ≤ 2 ^ 24.

Definition java_int (z : Z) : Prop := - 2 ^ 31 ≤ z < 2 ^ 31.

Definition format_args_exact (frequency : Z) (size : pynum) : Prop :=
  float_exact frequency ∧ java_int (size_bits size).

(** The [AudioFormat] that [init] builds from its arguments. *)
Definition init_format (frequency : Z) (size : pynum) (channels : Z) : AudioFormat :=
  let encoding := if size_negative size then PCM_SIGNED else PCM_UNSIGNED in
  let channels := if decide (channels <= 1) then 1 else 2 in
  let framesize := size_framesize size channels in
  let isBigEndian := size_is_float size in
  {| af_encoding := encoding; af_sampleRate := frequency;
     af_sampleSizeInBits := size_bits size; af_channels := channels;
     af_frameSize := framesize; af_frameRate := frequency;
     af_bigEndian := isBigEndian |}.

(** [init].  [backend] says what constructing the [AudioMixer] does for
    the format and buffer size asked for.  The value is what the method
    returns. *)
Definition init (frequency : Z) (size : pynum) (channels buffer : Z)
    (backend : AudioFormat → Z → AudioMixer) (w : Mixer)
    : result Mixer (option AudioFormat) :=
  if m_initialized w then Ok None w
  else
    let fmt := init_format frequency size channels in
    let w1 :=
      set_backend (m_mixer w) (Some fmt) (Some buffer) (m_music w) false w in
    match backend fmt buffer with
    | MixerClassMissing =>
        Ok None (set_backend None (Some fmt) (Some buffer) (m_music w) false w1)
    | MixerObject isInitialized getBufferSize =>
        let mx := Some (MixerObject isInitialized getBufferSize) in
        let w2 := set_backend mx (Some fmt) (Some buffer) (m_music w) false w1 in
        if negb isInitialized then Ok None w2
        else
          let w3 :=
            set_backend mx (Some fmt) (Some getBufferSize) (m_music w) false w2 in
          (* self.music = Music(), which constructs Channel(-1) *)
          match Channel_init (-1) w3 with
          | Raise e w4 => Raise e w4
          | Ok _ w4 =>
              Ok None
                (set_backend mx (Some fmt) (Some getBufferSize) true true w4)
          end
    end.

Definition get_init (w : Mixer) : option (Z * Z * Z) :=
  if m_initialized w then
    match m_audio_format w with
    | Some fmt =>
        Some (af_sampleRate fmt,
              af_sampleSizeInBits fmt * (if af_bigEndian fmt then 1 else -1),
              af_channels fmt)
    | None => None
    end
  else None.

Definition quit (w : Mixer) : Mixer :=
  set_backend (m_mixer w) (m_audio_format w) (m_bufferSize w) (m_music w) false w.

(** ** Runs of the mixing thread on one channel *)

(** [k] successive pulls of channel [id]: the lengths returned and the
    state they leave; a pull that raises ends the run. *)
Fixpoint pulls (k : nat) (id : Z) (w : Mixer) : list Z * Mixer :=
  match k with
  | O => ([], w)
  | S k' =>
      match Channel__get id w with
      | Ok (n, _, _) w' =>
          let '(ns, w'') := pulls k' id w' in (n :: ns, w'')
      | Raise _ w' => ([], w')
      end
  end.

(** ** Sequences of public calls *)

Inductive call : Type :=
| CallInit (frequency : Z) (size : pynum) (channels buffer : Z)
    (backend : AudioFormat → Z → AudioMixer)
| CallQuit
| CallSetNumChannels (count : Z)
| CallSetReserved (count : Z)
| CallFindChannel (force : bool)
| CallChannel (id : Z)                         (* mixer.Channel(id) *)
| CallSoundPlay (s : Sound) (loops : Z)
| CallChannelPlay (id : Z) (s : Sound) (loops : Z)
| CallChannelStop (id : Z)
| CallChannelPause (id : Z)
| CallChannelUnpause (id : Z)
| CallChannelSetVolume (id : Z) (volume : Q) (volume2 : option Q)
| CallPull (id : Z).                           (* the mixing thread's _get *)

(** The state a call leaves, whether it returned or raised. *)
Definition exec (c : call) (w : Mixer) : Mixer :=
  match c with
  | CallInit f sz ch b backend => state_of (init f sz ch b backend w)
  | CallQuit => quit w
  | CallSetNumChannels n => set_num_channels n w
  | CallSetReserved n => set_reserved n w
  | CallFindChannel force => state_of (find_channel force w)
  | CallChannel id => state_of (_get_channel id w)
  | CallSoundPlay s loops => state_of (Sound_play s loops w)
  | CallChannelPlay id s loops => Channel_play id s loops w
  | CallChannelStop id => Channel_stop id w
  | CallChannelPause id => Channel_pause id w
  | CallChannelUnpause id => Channel_unpause id w
  | CallChannelSetVolume id v v2 => Channel_set_volume id v v2 w
  | CallPull id => state_of (Channel__get id w)
  end.

Definition run (cs : list call) (w : Mixer) : Mixer :=
  foldl (fun w c => exec c w) w cs.

Inductive reachable : Mixer → Prop :=
| reachable_new : reachable Mixer_new
| reachable_call c w : reachable w → reachable (exec c w).

(** ** Predicates on states *)

(** The ids held by the three pools. *)
Definition pooled (w : Mixer) : list Z :=
  m_channel_available w ++ m_channel_reserved w ++ m_channel_active w.

(** No reserved count, no reserved ids. *)
Definition reserved_consistent (w : Mixer) : Prop :=
  m_channel_reserved_num w = 0 → m_channel_reserved w = [].

(** Registered channels lie below the capacity. *)
Definition registered_below_max (w : Mixer) : Prop :=
  ∀ id c, m_channels w !! id = Some c → id < m_channel_max w.

(** [Channel(id)] can be had: the object exists, or it can be made. *)
Definition obtainable (w : Mixer) (id : Z) : Prop :=
  is_Some (m_channels w !! id) ∨
  (is_Some (m_bufferSize w) ∧ id < m_channel_max w).

(** Number of times [id] occurs in a pool. *)
Definition occ (id : Z) (d : list Z) : nat :=
  length (filter (fun x => x = id) d).

(** The ids below the capacity are split over the three pools: each is
    held once, by one pool, and the reserved pool holds ids below the
    reserved count only. *)
Definition pool_partition (w : Mixer) : Prop :=
  ∀ id, 0 ≤ id < m_channel_max w →
    (occ id (m_channel_available w) + occ id (m_channel_reserved w)
     + occ id (m_channel_active w) = 1)%nat ∧
    (id ∈ m_channel_reserved w → id < m_channel_reserved_num w).

(** The channel that forced reclamation is said to pick: the oldest
    activated id that is not reserved, else the oldest activated reserved
    id, else 0.  The active pool is in activation order. *)
Definition oldest_unreserved (w : Mixer) : option Z :=
  head (filter (fun id => m_channel_reserved_num w ≤ id) (m_channel_active w)).

Definition oldest_reserved (w : Mixer) : option Z :=
  head (filter (fun id => 0 ≤ id < m_channel_reserved_num w)
          (m_channel_active w)).

Definition reclaimed (w : Mixer) : Z :=
  default (default 0 (oldest_reserved w)) (oldest_unreserved w).

(** Channel [id] is active and plays [s]: its cursor has [st] left to
    read and [loops] repeats are left. *)
Definition playing (w : Mixer) (id : Z) (s : Sound) (st : Stream) (loops : Z) : Prop :=
  ∃ c, m_channels w !! id = Some c ∧ c_sound c = Some s ∧
       c_stream c = Some st ∧ c_loops c = loops ∧ c_active c = true.

(** Channel [id] is as [stop] leaves it. *)
Definition stopped (w : Mixer) (id : Z) : Prop :=
  ∃ c, m_channels w !! id = Some c ∧ c_sound c = None ∧
       c_stream c = None ∧ c_loops c = 0 ∧ c_active c = false.

(** What every state reached by the calls satisfies, and the hypotheses
    below draw on: the capacity and the reserved count are not negative,
    the reserved pool is empty when the count is 0, and registered
    channels lie below the capacity. *)
Definition pool_wf (w : Mixer) : Prop :=
  0 ≤ m_channel_max w ∧ 0 ≤ m_channel_reserved_num w ∧
  reserved_consistent w ∧ registered_below_max w.

(** [w'] has the capacity and reserved count of [w], has put nothing into
    an empty reserved pool with count 0, and has registered channels below
    the capacity only. *)
Definition keeps_shape (w w' : Mixer) : Prop :=
  m_channel_max w' = m_channel_max w ∧
  m_channel_reserved_num w' = m_channel_reserved_num w ∧
  (m_channel_reserved_num w = 0 → m_channel_reserved w = [] →
   m_channel_reserved w' = []) ∧
  (∀ k, is_Some (m_channels w' !! k) →
        is_Some (m_channels w !! k) ∨ k < m_channel_max w).

(** ** States and sounds used in examples *)

Definition backend_ok : AudioFormat → Z → AudioMixer :=
  fun _ buffer => MixerObject true buffer.

Definition backend_unavailable : AudioFormat → Z → AudioMixer :=
  fun _ buffer => MixerObject false buffer.

Definition call_init (backend : AudioFormat → Z → AudioMixer) : call :=
  CallInit 22050 (PyInt (-16)) 2 4096 backend.

(** A mixer after [init()] succeeded, and one after it failed. *)
Definition mixer_started : Mixer := run [call_init backend_ok] Mixer_new.
Definition mixer_failed : Mixer := run [call_init backend_unavailable] Mixer_new.

Definition beep : Sound :=
  {| s_id := 0; s_sound_object := [ReadBytes 4096; ReadBytes 1024];
     s_volume := 1 |}.

Definition chime : Sound :=
  {| s_id := 1; s_sound_object := [ReadBytes 512]; s_volume := 1 |}.

(** Channel 0 plays [beep], panned fully to the left: the right volume
    -0.1 is clamped to 0. *)
Definition mixer_panned_left : Mixer :=
  run [CallChannel 0; CallChannelPlay 0 beep 0;
       CallChannelSetVolume 0 (1 # 2) (Some (-1 # 10)%Q)] mixer_started.

(** Eight sounds playing: every id is in the active pool, oldest first. *)
Definition mixer_all_busy : Mixer :=
  run (replicate 8 (CallSoundPlay beep 0)) mixer_started.

(** Channel 0 plays [chime] without end and has read all of it once. *)
Definition mixer_forever : Mixer :=
  run [CallChannel 0; CallChannelPlay 0 chime (-1); CallPull 0] mixer_started.

(** Reserve one channel, shrink the capacity to 0 and grow it back, play
    and stop channel 0 around a [set_reserved(0)]: id 0 is twice in the
    available pool.  No mixing thread runs after a failed [init]. *)
Definition mixer_twice_available : Mixer :=
  run [CallSetReserved 1; CallSetNumChannels 0; CallSetNumChannels 8;
       CallChannel 0; CallChannelPlay 0 beep 0; CallSetReserved 0;
       CallChannelStop 0] mixer_failed.

(** Two channels reserved, then the capacity cut to 1, and channel 0
    found once. *)
Definition mixer_reserved_above_capacity : Mixer :=
  run [CallSetReserved 2; CallSetNumChannels 1; CallFindChannel false]
    mixer_started.

(** A paused channel played again. *)
Definition mixer_paused_replayed : Mixer :=
  run [CallChannel 0; CallChannelPlay 0 beep 0; CallChannelPause 0;
       CallChannelPlay 0 chime 0] mixer_failed.

(** ** Loops over the active pool *)

(** [Mixer.stop], [Mixer.pause], [Mixer.unpause], [Mixer.get_busy],
    [Sound.stop] and [Sound.get_num_channels] walk the active pool and
    look each id above -1 up with [self._channels[id]], which raises
    [KeyError] for an id without an entry; nothing catches it.  The walk
    is over the ids the pool holds when the call starts: the deque's
    iterator has fetched the next node before the body runs, and the body
    takes out of the pool only the first occurrence of the id it is at. *)
Inductive sweep (A : Type) : Type :=
| Swept (a : A) (w : Mixer)
| KeyError (id : Z) (w : Mixer).
Arguments Swept {A} a w.
Arguments KeyError {A} id w.

Definition swept_state {A} (r : sweep A) : Mixer :=
  match r with Swept _ w => w | KeyError _ w => w end.

(** [for id in self._channel_active.iterator(): if id > -1:
    self._channels[id].method()] *)
Fixpoint sweep_active (method : Z → Mixer → Mixer) (ids : list Z) (w : Mixer)
    : sweep unit :=
  match ids with
  | [] => Swept tt w
  | id :: ids' =>
      if decide (id > -1) then
        match m_channels w !! id with
        | None => KeyError id w
        | Some _ => sweep_active method ids' (method id w)
        end
      else sweep_active method ids' w
  end.

Definition Mixer_stop (w : Mixer) : sweep unit :=
  sweep_active Channel_stop (m_channel_active w) w.

Definition Mixer_pause (w : Mixer) : sweep unit :=
  sweep_active Channel_pause (m_channel_active w) w.

Definition Mixer_unpause (w : Mixer) : sweep unit :=
  sweep_active Channel_unpause (m_channel_active w) w.

(** The truth value of an [AtomicBoolean] object: it is a Java object
    without [__nonzero__] or [__len__], so it is true whatever it holds. *)
Definition AtomicBoolean_truth (held : bool) : bool := true.

(** [Mixer.get_busy] tests [self._channels[id]._active], the object, where
    every other test of the flag calls [.get()]. *)
Fixpoint get_busy_loop (ids : list Z) (w : Mixer) : sweep bool :=
  match ids with
  | [] => Swept false w
  | id :: ids' =>
      if decide (id > -1) then
        match m_channels w !! id with
        | None => KeyError id w
        | Some c =>
            if AtomicBoolean_truth (c_active c) then Swept true w
            else get_busy_loop ids' w
        end
      else get_busy_loop ids' w
  end.

Definition Mixer_get_busy (w : Mixer) : sweep bool :=
  get_busy_loop (m_channel_active w) w.

(** ** More of [Sound] *)

Definition Sound_set_volume (volume : Q) (s : Sound) : Sound :=
  {| s_id := s_id s; s_sound_object := s_sound_object s;
     s_volume := clamp_volume volume |}.

Definition Sound_get_volume (s : Sound) : Q := s_volume s.

(** [Sound.stop]: a channel without a sound makes
    [channels[id]._sound._id] raise [AttributeError], which the loop
    catches to go on. *)
Fixpoint Sound_stop_loop (s : Sound) (ids : list Z) (w : Mixer) : sweep unit :=
  match ids with
  | [] => Swept tt w
  | id :: ids' =>
      if decide (id > -1) then
        match m_channels w !! id with
        | None => KeyError id w
        | Some c =>
            match c_sound c with
            | None => Sound_stop_loop s ids' w
            | Some s' =>
                if decide (s_id s' = s_id s)
                then Sound_stop_loop s ids' (Channel_stop id w)
                else Sound_stop_loop s ids' w
            end
        end
      else Sound_stop_loop s ids' w
  end.

Definition Sound_stop (s : Sound) (w : Mixer) : sweep unit :=
  Sound_stop_loop s (m_channel_active w) w.

Fixpoint Sound_get_num_channels_loop (s : Sound) (ids : list Z) (channel : Z)
    (w : Mixer) : sweep Z :=
  match ids with
  | [] => Swept channel w
  | id :: ids' =>
      if decide (id > -1) then
        match m_channels w !! id with
        | None => KeyError id w
        | Some c =>
            match c_sound c with
            | None => Sound_get_num_channels_loop s ids' channel w
            | Some s' =>
                if decide (s_id s' = s_id s)
                then Sound_get_num_channels_loop s ids' (channel + 1) w
                else Sound_get_num_channels_loop s ids' channel w
            end
        end
      else Sound_get_num_channels_loop s ids' channel w
  end.

Definition Sound_get_num_channels (s : Sound) (w : Mixer) : sweep Z :=
  Sound_get_num_channels_loop s (m_channel_active w) 0 w.

(** ** Music *)

(** The [Music] object made by [init]: its [_channel] is the channel
    registered under -1, its [_sound] the sound loaded last. *)
Record Music : Type := mkMusic { mu_sound : option Sound }.

Definition Music_init : Music := {| mu_sound := None |}.

(** [load], given the [Sound] it constructs from the file. *)
Definition Music_load (s : Sound) (mu : Music) : Music := {| mu_sound := Some s |}.

Definition Music_unload (mu : Music) (w : Mixer) : Music * Mixer :=
  ({| mu_sound := None |}, Channel_stop (-1) w).

(** [play]: with nothing loaded, [Channel.play(None, loops)] gets as far
    as [self._sound = None] in [_set_sound] and raises on
    [None._sound_object]. *)
Definition Music_play (mu : Music) (loops : Z) (w : Mixer) : result Mixer unit :=
  match mu_sound mu with
  | Some s => Ok tt (Channel_play (-1) s loops w)
  | None =>
      match m_channels w !! (-1) with
      | None => Raise AttributeError w
      | Some c =>
          let w1 :=
            match c_sound c with
            | Some _ =>
                Channel_set_volume (-1) (c_lvolume c) (Some (c_rvolume c))
                  (Channel_stop (-1) w)
            | None => w
            end in
          Raise AttributeError (upd_channel (-1) (c_set_sound None) w1)
      end
  end.

Definition Music_stop (w : Mixer) : Mixer := Channel_stop (-1) w.
Definition Music_pause (w : Mixer) : Mixer := Channel_pause (-1) w.
Definition Music_unpause (w : Mixer) : Mixer := Channel_unpause (-1) w.
Definition Music_get_busy (w : Mixer) : bool := Channel_get_busy (-1) w.

(** ** Writing to the line *)

Inductive write_outcome : Type :=
| WriteDone
| IllegalArgumentException
| LineUnavailableException.

(** [_write].  [line n] is what [self._mixer.write(data, 0, n)] does;
    the value lists the calls made to it with their outcomes, or is [None]
    when [data_len % frameSize] divides by zero. *)
Definition _write (line : Z → write_outcome) (frameSize : Z) (data_len : Z)
    : option (list (Z * write_outcome)) :=
  match line data_len with
  | IllegalArgumentException =>
      if decide (frameSize = 0) then None
      else
        let nonIntegralByte := data_len `mod` frameSize in
        if decide (nonIntegralByte = 0)
        then Some [(data_len, IllegalArgumentException)]
        else
          let data_len' := data_len - nonIntegralByte in
          Some [(data_len, IllegalArgumentException);
                (data_len', line data_len')]
  | outcome => Some [(data_len, outcome)]
  end.

(** A line that takes whole frames only, as a [SourceDataLine] does. *)
Definition whole_frames (frameSize : Z) (n : Z) : write_outcome :=
  if decide (n `mod` frameSize = 0) then WriteDone else IllegalArgumentException.

(** ** Repeated calls *)

(** [k] calls of [find_channel()], and the channels they return; a call
    that raises or returns [None] ends the run. *)
Fixpoint find_channels (k : nat) (w : Mixer) : list Z * Mixer :=
  match k with
  | O => ([], w)
  | S k' =>
      match find_channel false w with
      | Ok (Some ch) w' =>
          let '(chs, w'') := find_channels k' w' in (ch :: chs, w'')
      | Ok None w' => ([], w')
      | Raise _ w' => ([], w')
      end
  end.

(** ** More predicates on states *)

(** The available and the reserved pool hold ids from 0 up only. *)
Definition pools_nonneg (w : Mixer) : Prop :=
  Forall (fun id => 0 ≤ id) (m_channel_available w) ∧
  Forall (fun id => 0 ≤ id) (m_channel_reserved w).

Definition volume_in_range (v : Q) : Prop := (0 <= v <= 1)%Q.

(** Every registered channel has its three volumes between 0 and 1. *)
Definition volumes_in_range (w : Mixer) : Prop :=
  ∀ id c, m_channels w !! id = Some c →
    volume_in_range (c_volume c) ∧ volume_in_range (c_lvolume c) ∧
    volume_in_range (c_rvolume c).

(** Every id above -1 in the active pool is a registered channel that is
    playing: active flag set, pause flag clear. *)
Definition active_all_playing (w : Mixer) : Prop :=
  ∀ id, id ∈ m_channel_active w → id > -1 →
    ∃ c, m_channels w !! id = Some c ∧ c_active c = true ∧ c_pause c = false.

(** Every id above -1 in the active pool is registered. *)
Definition active_registered (w : Mixer) : Prop :=
  ∀ id, id ∈ m_channel_active w → id > -1 → is_Some (m_channels w !! id).

(** Channel 7 playing, then paused. *)
Definition mixer_paused_top : Mixer :=
  run [CallChannel 7; CallChannelPlay 7 beep 0; CallChannelPause 7] mixer_started.

(** A channel paused, then cut off by a smaller capacity: its id stays
    in the active pool without a registry entry. *)
Definition mixer_orphan_active : Mixer :=
  run [CallChannel 7; CallChannelPlay 7 beep 0; CallChannelPause 7;
       CallSetNumChannels 7] mixer_started.

(** Two sounds playing on channels 0 and 1, and the music channel. *)
Definition mixer_two_playing : Mixer :=
  run [CallSoundPlay beep 0; CallSoundPlay chime 3;
       CallChannelPlay (-1) chime (-1)] mixer_started.

(** [w'] is [w] with other channel objects: pools, capacity, reserved
    count, flags and backend are the same. *)
Definition only_channels_differ (w w' : Mixer) : Prop :=
  m_mixer w' = m_mixer w ∧ m_audio_format w' = m_audio_format w ∧
  m_bufferSize w' = m_bufferSize w ∧ m_music w' = m_music w ∧
  m_channel_max w' = m_channel_max w ∧
  m_channel_available w' = m_channel_available w ∧
  m_channel_active w' = m_channel_active w ∧
  m_channel_reserved w' = m_channel_reserved w ∧
  m_channel_reserved_num w' = m_channel_reserved_num w ∧
  m_active w' = m_active w ∧ m_initialized w' = m_initialized w.

(** What [pause] and [unpause] do to a channel object. *)
Definition c_pause_method (c : Channel) : Channel :=
  if c_active c then c_set_pause true (c_set_active false c) else c.

Definition c_unpause_method (c : Channel) : Channel :=
  if c_pause c then c_set_pause false (c_set_active true c) else c.

(** The id of the sound that channel [k] holds, if it holds one. *)
Definition sound_on (w : Mixer) (k : Z) : option Z :=
  match m_channels w !! k with
  | Some c => s_id <$> c_sound c
  | None => None
  end.

Definition c_volumes_in_range (c : Channel) : Prop :=
  volume_in_range (c_volume c) ∧ volume_in_range (c_lvolume c) ∧
  volume_in_range (c_rvolume c).

(** ** One cycle of the mixing thread *)

(** [_read]: the length to write and whether [processVolume] scaled the
    data.  [AttributeError] from [_get] is caught and gives length 0. *)
Definition _read (id : Z) (w : Mixer) : sweep (Z * bool) :=
  match m_channels w !! id with
  | None => KeyError id w
  | Some c =>
      if negb (c_active c) then Swept (0, false) w
      else
        match Channel__get id w with
        | Raise _ w' => Swept (0, false) w'
        | Ok (data_len, lvol, rvol) w' =>
            if decide (data_len = 0) then Swept (data_len, false) w'
            else Swept (data_len, Qlt_bool lvol 1 || Qlt_bool rvol 1) w'
        end
  end.

(** The loop of [_mix]: what is handed to [setAudioData], in order.  It
    looks up every id of the pool, the music channel's included. *)
Fixpoint _mix_loop (ids : list Z) (fed : list (Z * Q * Q)) (w : Mixer)
    : sweep (list (Z * Q * Q)) :=
  match ids with
  | [] => Swept fed w
  | id :: ids' =>
      match m_channels w !! id with
      | None => KeyError id w
      | Some c =>
          if negb (c_active c) then _mix_loop ids' fed w
          else
            match Channel__get id w with
            | Raise _ w' => _mix_loop ids' fed w'
            | Ok g w' => _mix_loop ids' (fed ++ [g]) w'
            end
      end
  end.

(** [_mix]: [getAudioData] is the backend's mixing, from what it was fed
    to the length of the mixed data. *)
Definition _mix (getAudioData : list (Z * Q * Q) → Z) (w : Mixer) : sweep Z :=
  match _mix_loop (m_channel_active w) [] w with
  | Swept fed w' => Swept (getAudioData fed) w'
  | KeyError id w' => KeyError id w'
  end.

(** What one turn of the loop of [run] does. *)
Inductive cycle : Type :=
| Sleeps                                              (* _thread_sleep *)
| Silent                                              (* nothing to write *)
| Writes (calls : option (list (Z * write_outcome))). (* _write *)

Definition write_if_data (line : Z → write_outcome) (w : Mixer) (data_len : Z)
    : cycle :=
  if decide (data_len > 0)
  then Writes (_write line (from_option af_frameSize 0 (m_audio_format w)) data_len)
  else Silent.

(** The body of [while self._initialized] in [run], run without another
    call in between and the thread not being interrupted in its sleep. *)
Definition run_cycle (getAudioData : list (Z * Q * Q) → Z)
    (line : Z → write_outcome) (w : Mixer) : sweep cycle :=
  if negb (m_active w) then Swept Sleeps w
  else if decide (1 < length (m_channel_active w))%nat then
    match _mix getAudioData w with
    | Swept data_len w' => Swept (write_if_data line w' data_len) w'
    | KeyError id w' => KeyError id w'
    end
  else
    match m_channel_active w with
    | [] => Swept Silent w
    | channel :: _ =>
        match _read channel w with
        | Swept (data_len, _) w' => Swept (write_if_data line w' data_len) w'
        | KeyError id w' => KeyError id w'
        end
    end.

(** ** The whole of [run] *)

(** [_quit], which [run] calls when it leaves its loop.  [self.stop()] can
    raise [KeyError]; [self.music] is [None] until [init] has succeeded;
    the [AttributeError] of [self._mixer.quit()] on a missing backend is
    caught, and the backend is dropped. *)
Inductive quit_outcome : Type :=
| QuitDone (w : Mixer)
| QuitKeyError (id : Z) (w : Mixer)
| QuitAttributeError (w : Mixer).

Definition _quit (w : Mixer) : quit_outcome :=
  match Mixer_stop w with
  | KeyError id w1 => QuitKeyError id w1
  | Swept _ w1 =>
      if negb (m_music w1) then QuitAttributeError w1
      else
        let w2 := Channel_stop (-1) w1 in
        QuitDone (set_backend None (m_audio_format w2) (m_bufferSize w2)
                    (m_music w2) (m_initialized w2) w2)
  end.

(** Where the thread is after at most [k] tests of [self._initialized]. *)
Inductive thread : Type :=
| Looping (w : Mixer)             (* still in the loop *)
| Ended (q : quit_outcome)        (* the loop was left and [_quit] ran *)
| Died (id : Z) (w : Mixer).      (* a [KeyError] left [run] from the loop *)

(** [run]: what the turns of the loop did, and where the thread is. *)
Fixpoint Mixer_run (getAudioData : list (Z * Q * Q) → Z)
    (line : Z → write_outcome) (k : nat) (w : Mixer) : list cycle * thread :=
  match k with
  | O => ([], Looping w)
  | S k' =>
      if negb (m_initialized w) then ([], Ended (_quit w))
      else
        match run_cycle getAudioData line w with
        | Swept ev w' =>
            let '(evs, t) := Mixer_run getAudioData line k' w' in
            (ev :: evs, t)
        | KeyError id w' => ([], Died id w')
        end
  end.

(** ** Calls within the specification *)

(** A channel in use: playing or paused. *)
Definition c_in_use (c : Channel) : bool := c_active c || c_pause c.

(** No channel of the reserved region is in use.  The specification asks
    for [set_reserved] to be called in such a state only, and leaves open
    what it does otherwise. *)
Definition reserved_idle (w : Mixer) : Prop :=
  ∀ id c, m_channels w !! id = Some c →
    0 ≤ id < m_channel_reserved_num w → c_in_use c = false.

(** A call made where the specification says what it does. *)
Definition call_in_spec (c : call) (w : Mixer) : Prop :=
  match c with
  | CallSetReserved _ => reserved_idle w
  | _ => True
  end.

(** The states that such calls reach from a new mixer. *)
Inductive reachable_in_spec : Mixer → Prop :=
| in_spec_new : reachable_in_spec Mixer_new
| in_spec_call c w :
    reachable_in_spec w → call_in_spec c w → reachable_in_spec (exec c w).

(** What these states satisfy: the available pool holds no id twice and
    only ids below the capacity, registered channels lie below the
    capacity, and a channel in use that [_restore_channel] would give back
    to the available pool is not in it. *)
Definition available_wf (w : Mixer) : Prop :=
  NoDup (m_channel_available w) ∧
  (∀ id, id ∈ m_channel_available w → id < m_channel_max w) ∧
  (∀ id c, m_channels w !! id = Some c →
     id < m_channel_max w ∧
     (c_in_use c = true → id > m_channel_reserved_num w - 1 →
      id ∉ m_channel_available w)).

(** ** Channel objects kept by a caller *)

(** [set_num_channels] takes a channel out of the registry, not out of the
    hands of a caller that holds the object.  [unpause] and [stop] called
    on an object [c] with id [id] held outside the registry act on the
    object and, through its id, on the pools. *)
Definition kept_unpause (c : Channel) : Channel := c_unpause_method c.

Definition kept_stop (id : Z) (c : Channel) (w : Mixer) : Channel * Mixer :=
  if negb (c_active c) then (c, w)
  else
    let c1 := c_set_active false c in
    let w1 := _deactivate_channel id w in
    (c_reset c1, _restore_channel id w1).

(** Channel 7 paused, the capacity cut to 7 and grown back to 8, and the
    paused object, which the caller still holds, resumed and stopped. *)
Definition kept_channel_7 : Channel :=
  default Channel_new (m_channels mixer_paused_top !! 7).

Definition mixer_regrown : Mixer :=
  run [CallSetNumChannels 7; CallSetNumChannels 8] mixer_paused_top.

Definition mixer_kept_stopped : Mixer :=
  (kept_stop 7 (kept_unpause kept_channel_7) mixer_regrown).2.

(** * Properties *)

(** ** Deques *)

Section DequeFacts.
Context {A : Type} `{EqDecision A}.
Implicit Types (x y : A) (d : list A).

Lemma deque_remove_absent x d : x ∉ d → deque_remove x d = d.
Proof.
  induction d as [|z d IH]; intros Hx; simpl; [done|].
  apply not_elem_of_cons in Hx as [Hne Hx].
  destruct (decide (z = x)); [congruence|]. by rewrite IH.
Qed.

Lemma elem_of_deque_remove_1 x y d : y ∈ deque_remove x d → y ∈ d.
Proof.
  induction d as [|z d IH]; simpl; [done|].
  destruct (decide (z = x)); intros Hy.
  - by right.
  - apply elem_of_cons in Hy as [->|Hy]; [by left | right; auto].
Qed.

Lemma elem_of_deque_remove_ne x y d : y ≠ x → y ∈ d → y ∈ deque_remove x d.
Proof.
  intros Hne. induction d as [|z d IH]; simpl; [done|].
  intros Hy. destruct (decide (z = x)) as [->|Hz].
  - apply elem_of_cons in Hy as [?|Hy]; [congruence | done].
  - apply elem_of_cons in Hy as [->|Hy]; [by left | right; auto].
Qed.

Lemma NoDup_deque_remove x d : NoDup d → NoDup (deque_remove x d).
Proof.
  induction 1 as [|z d Hz Hd IH]; simpl; [constructor|].
  destruct (decide (z = x)); [done|].
  constructor; [|done]. intros Hin. by apply Hz, (elem_of_deque_remove_1 x).
Qed.

Lemma not_elem_of_deque_remove x d : NoDup d → x ∉ deque_remove x d.
Proof.
  induction 1 as [|z d Hz Hd IH]; simpl; [by apply not_elem_of_nil|].
  destruct (decide (z = x)) as [->|Hne]; [done|].
  apply not_elem_of_cons; split; [congruence | done].
Qed.

Lemma deque_remove_perm x d : x ∈ d → d ≡ₚ x :: deque_remove x d.
Proof.
  induction d as [|z d IH]; simpl; intros Hx; [by apply elem_of_nil in Hx|].
  destruct (decide (z = x)) as [->|Hne]; [done|].
  apply elem_of_cons in Hx as [?|Hx]; [congruence|].
  rewrite (IH Hx) at 1. apply Permutation_swap.
Qed.

Lemma deque_rotate_perm x d : deque_add x d ≡ₚ x :: d.
Proof. unfold deque_add. by rewrite Permutation_app_comm. Qed.
End DequeFacts.

Lemma occ_cons id x d :
  occ id (x :: d) = if decide (x = id) then S (occ id d) else occ id d.
Proof. unfold occ. rewrite filter_cons. by destruct (decide (x = id)). Qed.

Lemma occ_deque_remove id x d :
  occ id (deque_remove x d) =
  if decide (id = x) then Nat.pred (occ id d) else occ id d.
Proof.
  induction d as [|z d IH]; simpl.
  - by destruct (decide (id = x)).
  - destruct (decide (z = x)) as [->|Hz].
    + rewrite occ_cons. destruct (decide (id = x)) as [->|Hne].
      * by rewrite decide_True.
      * by rewrite decide_False by congruence.
    + rewrite !occ_cons, IH.
      destruct (decide (id = x)) as [->|Hne]; [|done].
      by destruct (decide (z = x)).
Qed.

Lemma occ_zero id d : occ id d = 0%nat ↔ id ∉ d.
Proof.
  induction d as [|z d IH]; [by split; [intros; apply not_elem_of_nil|]|].
  rewrite occ_cons, not_elem_of_cons.
  destruct (decide (z = id)) as [->|Hne]; [split; [done | intros []; done]|].
  rewrite IH. split; [intros; split; [congruence | done] | by intros []].
Qed.

(** ** What the pool primitives and [stop] leave alone *)

Ltac pool_cases :=
  unfold _restore_channel, _deactivate_channel, _activate_channel, upd_channel;
  repeat (simpl; case_decide);
  repeat match goal with
         | |- context [deque_isEmpty ?d] => destruct (deque_isEmpty d)
         end;
  simpl.

Lemma Channel_stop_busy_false id w :
  Channel_get_busy id w = false → Channel_stop id w = w.
Proof.
  unfold Channel_get_busy, Channel_stop.
  destruct (m_channels w !! id) as [c|]; simpl; [|done].
  by intros ->.
Qed.

Lemma Channel_stop_lookup id w c :
  m_channels w !! id = Some c →
  m_channels (Channel_stop id w) !! id =
  Some (if c_active c then c_reset (c_set_active false c) else c).
Proof.
  intros Hc. unfold Channel_stop. rewrite Hc.
  destruct (c_active c); simpl; [|done].
  pool_cases; by rewrite !lookup_alter_eq, Hc.
Qed.

Lemma Channel_stop_lookup_ne id id' w :
  id ≠ id' → m_channels (Channel_stop id w) !! id' = m_channels w !! id'.
Proof.
  intros Hne. unfold Channel_stop.
  destruct (m_channels w !! id) as [c|]; [|done].
  destruct (c_active c); simpl; [|done].
  pool_cases; by rewrite !lookup_alter_ne.
Qed.

Lemma Channel_stop_lookup_None id id' w :
  m_channels w !! id' = None → m_channels (Channel_stop id w) !! id' = None.
Proof.
  intros Hnone. destruct (decide (id = id')) as [->|Hne].
  - unfold Channel_stop. by rewrite Hnone.
  - by rewrite Channel_stop_lookup_ne.
Qed.

Lemma Channel_stop_busy id w : Channel_get_busy id (Channel_stop id w) = false.
Proof.
  unfold Channel_get_busy.
  destruct (m_channels w !! id) as [c|] eqn:Hc.
  - rewrite (Channel_stop_lookup _ _ _ Hc). simpl.
    by destruct (c_active c) eqn:Hact.
  - by rewrite Channel_stop_lookup_None.
Qed.

Lemma Channel_stop_busy_ne id id' w :
  id ≠ id' → Channel_get_busy id' (Channel_stop id w) = Channel_get_busy id' w.
Proof. intros. unfold Channel_get_busy. by rewrite Channel_stop_lookup_ne. Qed.

Lemma Channel_stop_channel_max id w :
  m_channel_max (Channel_stop id w) = m_channel_max w.
Proof.
  unfold Channel_stop. destruct (m_channels w !! id) as [c|]; [|done].
  destruct (c_active c); simpl; [|done]. by pool_cases.
Qed.

Lemma Channel_stop_reserved_num id w :
  m_channel_reserved_num (Channel_stop id w) = m_channel_reserved_num w.
Proof.
  unfold Channel_stop. destruct (m_channels w !! id) as [c|]; [|done].
  destruct (c_active c); simpl; [|done]. by pool_cases.
Qed.

Lemma Channel_stop_bufferSize id w :
  m_bufferSize (Channel_stop id w) = m_bufferSize w.
Proof.
  unfold Channel_stop. destruct (m_channels w !! id) as [c|]; [|done].
  destruct (c_active c); simpl; [|done]. by pool_cases.
Qed.

Lemma Channel_stop_active_pool id w :
  m_channel_active (Channel_stop id w) =
  if Channel_get_busy id w then deque_remove id (m_channel_active w)
  else m_channel_active w.
Proof.
  unfold Channel_stop, Channel_get_busy.
  destruct (m_channels w !! id) as [c|]; [|done]. simpl.
  destruct (c_active c); simpl; [|done]. by pool_cases.
Qed.

Lemma Channel_stop_delete id w :
  delete id (m_channels (Channel_stop id w)) = delete id (m_channels w).
Proof.
  apply map_eq. intros k. destruct (decide (id = k)) as [->|Hne].
  - by rewrite !lookup_delete_eq.
  - by rewrite !lookup_delete_ne, Channel_stop_lookup_ne.
Qed.

(** ** Stopping a channel that is not active *)

Lemma Channel_pause_busy id w : Channel_get_busy id (Channel_pause id w) = false.
Proof.
  unfold Channel_get_busy, Channel_pause.
  destruct (m_channels w !! id) as [c|] eqn:Hc; [|by rewrite Hc].
  destruct (c_active c) eqn:Hact.
  - unfold upd_channel. simpl. by rewrite lookup_alter_eq, Hc.
  - by rewrite Hc.
Qed.

(** C9.  [stop] on a channel whose active flag is false (never played,
    already stopped, or paused by [pause]) returns the state it was given:
    channel attributes and the three pools are unchanged.  Hence a second
    [stop] changes nothing. *)
Theorem Channel_stop_inactive_noop (id : Z) (w : Mixer) :
  (Channel_get_busy id w = false → Channel_stop id w = w) ∧
  Channel_stop id (Channel_pause id w) = Channel_pause id w ∧
  Channel_stop id (Channel_stop id w) = Channel_stop id w.
Proof.
  split; [apply Channel_stop_busy_false|]. split.
  - apply Channel_stop_busy_false, Channel_pause_busy.
  - apply Channel_stop_busy_false, Channel_stop_busy.
Qed.

Lemma Channel_stop_inactive_noop_witness :
  Channel_get_busy 0 (exec (CallChannel 0) mixer_started) = false ∧
  Channel_stop 0 (exec (CallChannel 0) mixer_started)
  = exec (CallChannel 0) mixer_started.
Proof.
  split; [reflexivity|].
  apply (proj1 (Channel_stop_inactive_noop 0 (exec (CallChannel 0) mixer_started))).
  reflexivity.
Defined.

(** ** Channel volume *)

Lemma Qlt_bool_true x y : Qlt_bool x y = true ↔ (x < y)%Q.
Proof.
  unfold Qlt_bool. rewrite negb_true_iff, <- not_true_iff_false, Qle_bool_iff.
  split; [apply Qnot_le_lt | apply Qlt_not_le].
Qed.

Lemma Qlt_bool_false x y : Qlt_bool x y = false ↔ (y <= x)%Q.
Proof. unfold Qlt_bool. by rewrite negb_false_iff, Qle_bool_iff. Qed.

Lemma clamp_volume_range v : (0 <= clamp_volume v <= 1)%Q.
Proof.
  unfold clamp_volume.
  destruct (Qlt_bool v 0) eqn:H0; [done|].
  destruct (Qlt_bool 1 v) eqn:H1; [done|].
  by apply Qlt_bool_false in H0, H1.
Qed.

Lemma clamp_volume_within v : (0 <= v <= 1)%Q → clamp_volume v = v.
Proof.
  intros [H0 H1]. unfold clamp_volume.
  apply Qlt_bool_false in H0, H1. by rewrite H0, H1.
Qed.

Lemma clamp_volume_below v : (v < 0)%Q → clamp_volume v = 0%Q.
Proof. intros H. unfold clamp_volume. apply Qlt_bool_true in H. by rewrite H. Qed.

Lemma clamp_volume_above v : (1 < v)%Q → clamp_volume v = 1%Q.
Proof.
  intros H. unfold clamp_volume.
  assert (Qlt_bool v 0 = false) as ->.
  { apply Qlt_bool_false, Qlt_le_weak, (Qlt_trans _ 1%Q); [reflexivity | done]. }
  apply Qlt_bool_true in H. by rewrite H.
Qed.

(** One argument: the clamped value goes to both sides and is what
    [get_volume] returns. *)
Lemma Channel_set_volume_mono id v w :
  is_Some (m_channels w !! id) →
  let w' := Channel_set_volume id v None w in
  Channel_get_volume id w' = Some (clamp_volume v) ∧
  c_lvolume <$> m_channels w' !! id = Some (clamp_volume v) ∧
  c_rvolume <$> m_channels w' !! id = Some (clamp_volume v).
Proof.
  intros [c Hc]; simpl. unfold Channel_get_volume, Channel_set_volume, upd_channel.
  simpl. by rewrite lookup_alter_eq, Hc.
Qed.

(** Two arguments, the second not zero: each side gets its own clamped
    value; [get_volume] keeps what it returned before. *)
Lemma Channel_set_volume_stereo id l r w :
  is_Some (m_channels w !! id) → ¬ (r == 0)%Q →
  let w' := Channel_set_volume id l (Some r) w in
  c_lvolume <$> m_channels w' !! id = Some (clamp_volume l) ∧
  c_rvolume <$> m_channels w' !! id = Some (clamp_volume r) ∧
  Channel_get_volume id w' = Channel_get_volume id w.
Proof.
  intros [c Hc] Hr; simpl.
  unfold Channel_get_volume, Channel_set_volume, upd_channel. simpl.
  rewrite lookup_alter_eq, Hc. unfold c_set_volume. simpl.
  destruct (Qeq_bool r 0) eqn:Heq; [by apply Qeq_bool_iff in Heq|done].
Qed.

(** Two arguments, the second zero: it is taken for omitted. *)
Lemma Channel_set_volume_zero id l r w :
  is_Some (m_channels w !! id) → (r == 0)%Q →
  Channel_set_volume id l (Some r) w = Channel_set_volume id l None w.
Proof.
  intros _ Hr. unfold Channel_set_volume, upd_channel, c_set_volume. simpl.
  apply Qeq_bool_iff in Hr. by rewrite Hr.
Qed.

Example set_volume_examples :
  Channel_get_volume 0 (Channel_set_volume 0 0.4 None mixer_panned_left) = Some 0.4%Q ∧
  Channel_get_volume 0 (Channel_set_volume 0 1.5 None mixer_panned_left) = Some 1%Q ∧
  Channel_get_volume 0 (Channel_set_volume 0 (-0.1) None mixer_panned_left) = Some 0%Q.
Proof. by vm_compute. Qed.

(** C10.  [set_volume(0.5, 0.0)], both arguments supplied: the left volume
    becomes 0.5, and so does the right one, where the call asks for 0.0;
    [get_volume] then returns 0.5 as after a one-argument call. *)
Theorem Channel_set_volume_right_zero_ignored :
  let w := Channel_set_volume 0 (1 # 2) (Some 0%Q) mixer_panned_left in
  c_lvolume <$> m_channels w !! 0 = Some (1 # 2)%Q ∧
  c_rvolume <$> m_channels w !! 0 = Some (1 # 2)%Q ∧
  Channel_get_volume 0 w = Some (1 # 2)%Q ∧
  clamp_volume 0 = 0%Q.
Proof. by vm_compute. Qed.

(** [play] on a channel that holds a sound keeps its left and right
    volume, when they are within range and the right one is not zero. *)
Lemma Channel_play_keeps_volumes id s loops w c :
  m_channels w !! id = Some c → is_Some (c_sound c) →
  (0 <= c_lvolume c <= 1)%Q → (0 <= c_rvolume c <= 1)%Q →
  ¬ (c_rvolume c == 0)%Q →
  ∃ c', m_channels (Channel_play id s loops w) !! id = Some c' ∧
        c_lvolume c' = c_lvolume c ∧ c_rvolume c' = c_rvolume c.
Proof.
  intros Hc [s0 Hs] Hl Hr Hnz. unfold Channel_play. rewrite Hc, Hs.
  eexists. split.
  { pool_cases; unfold Channel_set_volume, upd_channel; simpl;
      rewrite !lookup_alter_eq, (Channel_stop_lookup _ _ _ Hc); reflexivity. }
  simpl. unfold c_set_volume. simpl.
  destruct (Qeq_bool (c_rvolume c) 0) eqn:Heq; [by apply Qeq_bool_iff in Heq|].
  simpl. by rewrite !clamp_volume_within.
Qed.

(** C8.  Channel 0 holds a sound with left volume 1/2 and right volume 0.
    After [play] on it the left volume is still 1/2 but the right volume
    is 1/2 too: re-applying the saved pair goes through
    [set_volume(lv, rv)], which takes [rv = 0.0] for omitted. *)
Theorem Channel_play_loses_zero_right_volume :
  let w := mixer_panned_left in
  let w' := Channel_play 0 chime 0 w in
  (c_sound <$> m_channels w !! 0 = Some (Some beep) ∧
   c_lvolume <$> m_channels w !! 0 = Some (1 # 2)%Q ∧
   c_rvolume <$> m_channels w !! 0 = Some 0%Q) ∧
  (c_lvolume <$> m_channels w' !! 0 = Some (1 # 2)%Q ∧
   c_rvolume <$> m_channels w' !! 0 = Some (1 # 2)%Q).
Proof. by vm_compute. Qed.

(** ** The pool partition *)

Ltac small_id H :=
  match type of H with
  | ?a ≤ ?id < ?b =>
      let rec go k :=
        tryif (assert (b ≤ k) by lia) then lia
        else (destruct (decide (id = k)) as [->|?]; [|go (k + 1)]) in
      go a
  end.

Lemma pool_partition_new : pool_partition Mixer_new.
Proof.
  intros id Hid. simpl in Hid. split.
  - small_id Hid; reflexivity.
  - simpl. intros H. by apply elem_of_nil in H.
Qed.

Lemma pool_partition_set_reserved_2 :
  pool_partition (set_reserved 2 Mixer_new).
Proof.
  intros id Hid. change (0 ≤ id < 8) in Hid.
  change (m_channel_reserved (set_reserved 2 Mixer_new)) with [0; 1].
  change (m_channel_reserved_num (set_reserved 2 Mixer_new)) with 2.
  split.
  - small_id Hid; reflexivity.
  - rewrite !elem_of_cons, elem_of_nil. lia.
Qed.

(** C1.  From a new mixer, whose pools partition the ids 0..7,
    [set_reserved(2)] keeps the partition, and [set_reserved(0)] after it
    does not: the capacity is still 8 but ids 0 and 1 are in none of the
    three pools. *)
Theorem set_reserved_shrink_loses_ids :
  let w := run [CallSetReserved 2; CallSetReserved 0] Mixer_new in
  pool_partition Mixer_new ∧
  pool_partition (run [CallSetReserved 2] Mixer_new) ∧
  m_channel_max w = 8 ∧
  m_channel_available w = [2; 3; 4; 5; 6; 7] ∧
  m_channel_reserved w = [] ∧
  m_channel_active w = [] ∧
  ¬ pool_partition w.
Proof.
  split; [apply pool_partition_new|].
  split; [apply pool_partition_set_reserved_2|].
  repeat (split; [reflexivity|]).
  intros Hpart. destruct (Hpart 0) as [Hocc _]; [by vm_compute|].
  vm_compute in Hocc. discriminate Hocc.
Qed.

(** ** Initialization *)

Lemma Sound_play_unregistered s loops w id rest n :
  m_channel_available w = id :: rest →
  m_bufferSize w = Some n →
  id < m_channel_max w →
  ∃ w', Sound_play s loops w = Ok (Some id) w' ∧
        Channel_get_busy id w' = true ∧
        m_channel_available w' = rest ∧
        m_channel_active w' = m_channel_active w ++ [id].
Proof.
  intros Hav Hbuf Hmax.
  unfold Sound_play, _retrieve_channel, _get_channel, Channel_init,
    _register_channel.
  rewrite Hav. simpl. rewrite Hbuf.
  destruct (m_channels w !! id) as [c|] eqn:Hc.
  - eexists; split; [reflexivity|].
    unfold Channel_get_busy, Channel__play, upd_channel. simpl.
    by rewrite lookup_alter_eq, Hc.
  - rewrite decide_True by done.
    eexists; split; [reflexivity|].
    unfold Channel_get_busy, Channel__play, upd_channel. simpl.
    by rewrite lookup_alter_eq, lookup_insert_eq.
Qed.

(** C7, as the code has it.  [init] never returns a format: every call
    that returns, returns [None].  For a frequency and a bit size that
    [AudioFormat] stores as they are (magnitude at most 2^24, size below
    2^31): when the backend opens the format, with a buffer size that is
    not negative, the mixer is initialized and [get_init] reports the
    frequency, the bit size (negated unless the size was given as a float,
    which asks for big-endian samples) and the channel count, 1 or 2; when
    the backend is missing or cannot open the format the mixer stays
    uninitialized, [get_init] is [None] and the pools, the capacity and
    the registry are untouched.  Playback is not gated on initialization,
    though: after the failed [init], with a buffer size asked for that is
    not negative (channels allocate a buffer of that size), [Sound.play]
    still takes the first available id, activates its channel and returns
    it. *)
Theorem init_returns_none_play_not_gated
    (frequency : Z) (size : pynum) (channels buffer : Z)
    (backend : AudioFormat → Z → AudioMixer) (w : Mixer) :
  let fmt := init_format frequency size channels in
  let r := init frequency size channels buffer backend w in
  (∀ a, value_of r = Some a → a = None) ∧
  (format_args_exact frequency size →
   m_initialized w = false →
   (∃ n, 0 ≤ n ∧ backend fmt buffer = MixerObject true n) →
   -1 < m_channel_max w →
   ∃ w', r = Ok None w' ∧ m_initialized w' = true ∧
         get_init w' =
           Some (frequency,
                 size_bits size * (if size_is_float size then 1 else -1),
                 if decide (channels <= 1) then 1 else 2)) ∧
  (format_args_exact frequency size →
   m_initialized w = false →
   (backend fmt buffer = MixerClassMissing
    ∨ ∃ n, backend fmt buffer = MixerObject false n) →
   ∃ w', r = Ok None w' ∧ m_initialized w' = false ∧ get_init w' = None ∧
         m_channel_available w' = m_channel_available w ∧
         m_channel_reserved w' = m_channel_reserved w ∧
         m_channel_active w' = m_channel_active w ∧
         m_channel_max w' = m_channel_max w ∧
         m_channels w' = m_channels w ∧
         ∀ s loops id rest,
           0 ≤ buffer →
           m_channel_available w = id :: rest → id < m_channel_max w →
           ∃ w'', Sound_play s loops w' = Ok (Some id) w'' ∧
                  Channel_get_busy id w'' = true ∧
                  m_channel_available w'' = rest ∧
                  m_channel_active w'' = m_channel_active w ++ [id]).
Proof.
  simpl. split; [|split].
  - intros a. unfold init, Channel_init, _register_channel.
    destruct (m_initialized w); simpl; [congruence|].
    destruct (backend _ _) as [|[] n]; simpl; try congruence.
    case_decide; simpl; congruence.
  - intros _ Hinit (n & _ & Hb) Hmax.
    unfold init, Channel_init, _register_channel.
    rewrite Hinit, Hb. simpl. rewrite decide_True by lia.
    eexists; split; [reflexivity|]. split; [reflexivity|].
    unfold get_init. simpl. done.
  - intros _ Hinit Hb. unfold init. rewrite Hinit.
    destruct Hb as [Hb|[n Hb]]; rewrite Hb; simpl;
      (eexists; split; [reflexivity|]; unfold get_init; simpl;
       repeat (split; [reflexivity|]);
       intros s loops id rest _ Hav Hmax;
       match goal with
       | |- ∃ w'', Sound_play _ _ ?W = _ ∧ _ =>
           exact (Sound_play_unregistered s loops W id rest buffer
                    Hav eq_refl Hmax)
       end).
Qed.

Lemma init_returns_none_play_not_gated_witness :
  ∃ w', init 22050 (PyInt (-16)) 2 4096 backend_unavailable Mixer_new = Ok None w' ∧
        m_initialized w' = false ∧ get_init w' = None ∧
        ∃ w'', Sound_play beep 0 w' = Ok (Some 0) w'' ∧
               Channel_get_busy 0 w'' = true.
Proof.
  destruct (init_returns_none_play_not_gated 22050 (PyInt (-16)) 2 4096
              backend_unavailable Mixer_new) as (_ & _ & Hfail).
  destruct Hfail as (w' & Hr & Hi & Hg & _ & _ & _ & _ & _ & Hplay);
    [ split; [unfold float_exact | unfold java_int]; simpl; lia
    | reflexivity | right; by exists 4096 |].
  destruct (Hplay beep 0 0 (seqZ 1 7)) as (w'' & Hp & Hb & _);
    [lia | reflexivity | reflexivity |].
  exists w'. repeat (split; [assumption|]). by exists w''.
Defined.

(** C7, as stated, fails twice.  After a successful [init] the
    value returned is [None], not the format, which only [get_init] gives.
    After a failed [init], [Sound.play] returns channel 0 and leaves it
    active: it is neither a no-op nor an absent result. *)
Lemma init_success_returns_none_and_play_after_failure :
  init 22050 (PyInt (-16)) 2 4096 backend_ok Mixer_new = Ok None mixer_started ∧
  m_initialized mixer_started = true ∧
  get_init mixer_started = Some (22050, -16, 2) ∧
  m_initialized mixer_failed = false ∧
  value_of (Sound_play beep 0 mixer_failed) = Some (Some 0) ∧
  m_channel_active (state_of (Sound_play beep 0 mixer_failed)) = [0] ∧
  Channel_get_busy 0 (state_of (Sound_play beep 0 mixer_failed)) = true ∧
  m_channel_active mixer_failed = [].
Proof. by vm_compute. Qed.

(** ** Finding a channel *)

Lemma _get_channel_Ok id w ch w' :
  _get_channel id w = Ok ch w' →
  ch = id ∧ is_Some (m_channels w' !! id) ∧
  m_channel_available w' = m_channel_available w ∧
  m_channel_reserved w' = m_channel_reserved w ∧
  m_channel_active w' = m_channel_active w.
Proof.
  unfold _get_channel, Channel_init, _register_channel.
  destruct (m_channels w !! id) as [c|] eqn:Hc.
  - intros [= <- <-]. by rewrite Hc.
  - destruct (m_bufferSize w); [|done]. case_decide; [|done].
    intros [= <- <-]. simpl. by rewrite lookup_insert_eq.
Qed.

Lemma _get_channel_obtainable id w :
  obtainable w id → ∃ w', _get_channel id w = Ok id w'.
Proof.
  unfold obtainable, _get_channel, Channel_init, _register_channel.
  intros [[c Hc]|[[n Hn] Hmax]].
  - rewrite Hc. by eexists.
  - destruct (m_channels w !! id); [by eexists|].
    rewrite Hn, decide_True by done. by eexists.
Qed.

Lemma returning_channel_not_None r w' : returning_channel r ≠ Ok None w'.
Proof. by destruct r. Qed.

Lemma returning_channel_Ok r ch w' :
  returning_channel r = Ok (Some ch) w' → r = Ok ch w'.
Proof. destruct r; simpl; congruence. Qed.

(** C4, as the code has it.  Without [force], [find_channel] returns
    [None] exactly when the available and the reserved pool are both
    empty.  Otherwise it peeks at the head of the available pool, or of the
    reserved pool if the available one is empty, and returns that channel
    provided the channel can be had: it is registered, or [init] has set
    the buffer size and the id is below the capacity.  When it returns a
    channel, the id is now its pool's tail: both pools hold the ids they
    held, and the active pool is as it was.  The reserved pool is taken to
    be empty when the reserved count is 0, as it is in every state the
    calls can reach. *)
Theorem find_channel_no_force (w : Mixer) :
  reserved_consistent w →
  ((∃ w', find_channel false w = Ok None w') ↔
   m_channel_available w = [] ∧ m_channel_reserved w = []) ∧
  (∀ id rest, m_channel_available w = id :: rest → obtainable w id →
     ∃ w', find_channel false w = Ok (Some id) w') ∧
  (∀ id rest, m_channel_available w = [] → m_channel_reserved w = id :: rest →
     obtainable w id →
     ∃ w', find_channel false w = Ok (Some id) w') ∧
  (∀ ch w', find_channel false w = Ok (Some ch) w' →
     ((∃ rest, m_channel_available w = ch :: rest ∧
               m_channel_available w' = rest ++ [ch] ∧
               m_channel_reserved w' = m_channel_reserved w) ∨
      (∃ rest, m_channel_available w = [] ∧
               m_channel_available w' = [] ∧
               m_channel_reserved w = ch :: rest ∧
               m_channel_reserved w' = rest ++ [ch])) ∧
     m_channel_available w' ≡ₚ m_channel_available w ∧
     m_channel_reserved w' ≡ₚ m_channel_reserved w ∧
     m_channel_active w' = m_channel_active w).
Proof.
  intros Hcons. unfold find_channel.
  destruct (m_channel_available w) as [|a rest] eqn:Hav; simpl.
  - destruct (decide (m_channel_reserved_num w = 0)) as [Hz|Hnz].
    + rewrite (Hcons Hz). split; [split; [done | by eexists]|done].
    + destruct (m_channel_reserved w) as [|b rest] eqn:Hres; simpl.
      * split; [split; [done | by eexists]|done].
      * split.
        { split; [|by intros [_ ?]].
          intros [w' H]. by apply returning_channel_not_None in H. }
        split; [done|]. split.
        { intros id rest' _ [= <- <-] Hobt.
          destruct (_get_channel_obtainable b
                      (set_reserved_pool (fun _ => deque_add b rest) w) Hobt)
            as [w' ->]. by eexists. }
        intros ch w' H%returning_channel_Ok.
        apply _get_channel_Ok in H as (-> & _ & Ha & Hr & Hact).
        simpl in *. rewrite Ha, Hr, Hact, Hav.
        split; [right; by exists rest|].
        split; [done|]. split; [apply deque_rotate_perm | done].
  - split.
    { split; [|by intros [? _]].
      intros [w' H]. by apply returning_channel_not_None in H. }
    split.
    { intros id rest' [= <- <-] Hobt.
      destruct (_get_channel_obtainable a
                  (set_available (fun _ => deque_add a rest) w) Hobt)
        as [w' ->]. by eexists. }
    split; [done|].
    intros ch w' H%returning_channel_Ok.
    apply _get_channel_Ok in H as (-> & _ & Ha & Hr & Hact).
    simpl in *. rewrite Ha, Hr, Hact.
    split; [left; by exists rest|].
    split; [apply deque_rotate_perm | done].
Qed.

Lemma find_channel_no_force_witness :
  (∃ w', find_channel false (run [CallSetNumChannels 0] mixer_started)
         = Ok None w') ∧
  (∃ w', find_channel false mixer_started = Ok (Some 0) w') ∧
  m_channel_available (state_of (find_channel false mixer_started))
  ≡ₚ m_channel_available mixer_started.
Proof.
  split; [|split].
  - apply (proj1 (find_channel_no_force (run [CallSetNumChannels 0] mixer_started)
                    (fun _ => eq_refl))).
    split; reflexivity.
  - apply (proj1 (proj2 (find_channel_no_force mixer_started (fun _ => eq_refl)))
             0 (seqZ 1 7) eq_refl).
    right. split; [by eexists | by vm_compute].
  - apply (proj2 (proj2 (proj2
             (find_channel_no_force mixer_started (fun _ => eq_refl))))
             0 (state_of (find_channel false mixer_started))).
    reflexivity.
Defined.

(** C4, as stated, fails where the channel cannot be had: the pools are
    not both empty, yet [find_channel] returns neither [None] nor a
    channel; the [Channel] constructor raises [AttributeError] and the id
    peeked at has moved to the tail of its pool all the same.  Before
    [init] there is no buffer size to build channel 0 with; after
    [set_reserved(2)] and [set_num_channels(1)] the reserved pool still
    holds id 1, which is not below the capacity. *)
Lemma find_channel_no_force_raises :
  (m_channel_available Mixer_new = seqZ 0 8 ∧
   ∃ w', find_channel false Mixer_new = Raise AttributeError w' ∧
         m_channel_available w' = seqZ 1 7 ++ [0]) ∧
  (m_channel_available mixer_reserved_above_capacity = [] ∧
   m_channel_reserved mixer_reserved_above_capacity = [1; 0] ∧
   m_channel_reserved_num mixer_reserved_above_capacity = 2 ∧
   m_channel_max mixer_reserved_above_capacity = 1 ∧
   ∃ w', find_channel false mixer_reserved_above_capacity
         = Raise AttributeError w' ∧
         m_channel_reserved w' = [0; 1]).
Proof.
  split.
  - split; [reflexivity|]. eexists. split; vm_compute; reflexivity.
  - repeat (split; [reflexivity|]). eexists. split; vm_compute; reflexivity.
Qed.

(** The loop over the active pool picks what [reclaimed] names. *)
Lemma scan_active_spec rn active acc :
  (scan_active rn active acc).1 = head (filter (fun id => rn ≤ id) active) ∧
  (head (filter (fun id => rn ≤ id) active) = None →
   (scan_active rn active acc).2 =
   match acc with
   | Some a => Some a
   | None => head (filter (fun id => 0 ≤ id < rn) active)
   end).
Proof.
  revert acc. induction active as [|id active IH]; intros acc; simpl.
  - by destruct acc.
  - rewrite !filter_cons. destruct (decide (id > rn - 1)) as [Hun|Hres].
    + rewrite decide_True by lia. done.
    + rewrite (decide_False (P := rn ≤ id)) by lia.
      destruct (decide (id > -1)) as [Hpos|Hneg].
      * rewrite decide_True by lia.
        destruct (IH (match acc with None => Some id | Some _ => acc end))
          as [IH1 IH2].
        split; [done|]. intros Hnone. rewrite (IH2 Hnone). by destruct acc.
      * rewrite decide_False by lia. apply IH.
Qed.

Lemma head_filter_elem_of (P : Z → Prop) `{∀ x, Decision (P x)} d x :
  head (filter P d) = Some x → x ∈ d.
Proof.
  intros Hh. apply head_Some_elem_of in Hh.
  by apply list_elem_of_filter in Hh as [_ ?].
Qed.

(** The forced branch: the channel picked from the active pool. *)
Lemma find_channel_reclaims (w : Mixer) :
  is_Some (m_bufferSize w) →
  0 < m_channel_max w →
  (∀ id, id ∈ m_channel_active w → obtainable w id) →
  ∃ w',
    (let '(longest, longest_reserved) :=
       scan_active (m_channel_reserved_num w) (m_channel_active w) None in
     returning_channel
       (_get_channel
          match longest with
          | Some id => id
          | None => match longest_reserved with Some id => id | None => 0 end
          end w))
    = Ok (Some (reclaimed w)) w' ∧
    m_channel_available w' = m_channel_available w ∧
    m_channel_reserved w' = m_channel_reserved w ∧
    m_channel_active w' = m_channel_active w.
Proof.
  intros Hbuf Hcap Hobt.
  destruct (scan_active_spec (m_channel_reserved_num w)
              (m_channel_active w) None) as [H1 H2].
  destruct (scan_active _ _ _) as [l lr]. simpl in H1, H2.
  rewrite <- H1 in H2.
  set (channel := match l with
                  | Some id => id
                  | None => match lr with Some id => id | None => 0 end
                  end).
  assert (Hch : channel = reclaimed w).
  { unfold reclaimed, oldest_unreserved, oldest_reserved, channel.
    rewrite <- H1. destruct l as [id|]; [done|].
    simpl. by rewrite <- (H2 eq_refl). }
  destruct (_get_channel_obtainable channel w) as [w' Hw'].
  { unfold channel. destruct l as [id|].
    - symmetry in H1. by apply head_filter_elem_of, Hobt in H1.
    - specialize (H2 eq_refl). destruct lr as [id|]; [|by right].
      symmetry in H2. by apply head_filter_elem_of, Hobt in H2. }
  exists w'. rewrite Hw', Hch. split; [done|].
  by apply _get_channel_Ok in Hw' as (_ & _ & Ha & Hr & Hact).
Qed.

(** C3, as the code has it.  With [force], [find_channel] never returns
    [None], in any state.  It returns a channel once [init] has been
    called (so that a channel object can be built), with a capacity above 0
    and every pooled id either registered or below the capacity; and when
    the available and the reserved pool are both empty that channel is the
    oldest activated id that is not reserved, else the oldest activated
    reserved id, else channel 0, with the three pools left as they were. *)
Theorem find_channel_force (w : Mixer) :
  (∀ w', find_channel true w ≠ Ok None w') ∧
  (is_Some (m_bufferSize w) →
   0 < m_channel_max w →
   (∀ id, id ∈ pooled w →
      is_Some (m_channels w !! id) ∨ id < m_channel_max w) →
   ∃ ch w', find_channel true w = Ok (Some ch) w' ∧
     (m_channel_available w = [] → m_channel_reserved w = [] →
      ch = reclaimed w ∧
      m_channel_available w' = [] ∧ m_channel_reserved w' = [] ∧
      m_channel_active w' = m_channel_active w)).
Proof.
  split.
  - intros w'. unfold find_channel.
    destruct (deque_pop (m_channel_available w)) as [[a rest]|].
    { apply returning_channel_not_None. }
    destruct (if decide (m_channel_reserved_num w = 0) then None
              else deque_pop (m_channel_reserved w)) as [[b rest]|].
    { apply returning_channel_not_None. }
    simpl. destruct (scan_active _ _ _) as [l lr].
    apply returning_channel_not_None.
  - intros Hbuf Hcap Hpool.
    assert (Hobt : ∀ id, id ∈ pooled w → obtainable w id).
    { intros id [Hreg|Hlt]%Hpool; [by left | by right]. }
    destruct (find_channel_reclaims w Hbuf Hcap)
      as (wf & Hforced & Hfa & Hfr & Hfact).
    { intros id Hid. apply Hobt. unfold pooled. rewrite !elem_of_app. auto. }
    unfold find_channel, pooled in *.
    destruct (m_channel_available w) as [|a rest] eqn:Hav; simpl.
    2:{ destruct (_get_channel_obtainable a
                    (set_available (fun _ => deque_add a rest) w))
          as [w' Hw'].
        { apply (Hobt a). by left. }
        exists a, w'. rewrite Hw'. by split. }
    destruct (decide (m_channel_reserved_num w = 0)) as [Hz|Hnz].
    { exists (reclaimed w), wf. split; [exact Hforced|].
      intros _ Hres. by rewrite Hfa, Hfr, Hfact, Hres. }
    destruct (m_channel_reserved w) as [|b rest] eqn:Hres; simpl.
    2:{ destruct (_get_channel_obtainable b
                    (set_reserved_pool (fun _ => deque_add b rest) w))
          as [w' Hw'].
        { apply (Hobt b). rewrite !elem_of_app. right; left. by left. }
        exists b, w'. rewrite Hw'. by split. }
    exists (reclaimed w), wf. split; [exact Hforced|].
    intros _ _. by rewrite Hfa, Hfr, Hfact.
Qed.

Lemma find_channel_force_witness :
  ∃ ch w', find_channel true mixer_all_busy = Ok (Some ch) w' ∧
           ch = reclaimed mixer_all_busy ∧ reclaimed mixer_all_busy = 0.
Proof.
  destruct (proj2 (find_channel_force mixer_all_busy)) as (ch & w' & Hf & Hpick).
  - by exists 4096.
  - reflexivity.
  - apply Forall_forall. apply (bool_decide_unpack _). by vm_compute.
  - exists ch, w'. split; [exact Hf|].
    destruct Hpick as (-> & _); [reflexivity | reflexivity |].
    split; reflexivity.
Defined.

(** C3, as stated, fails where no channel can be built for the
    id picked.  After [init], [set_reserved(2)], [set_num_channels(1)] and
    one [find_channel()] the capacity is 1, the reserved pool still holds
    id 1, and [find_channel(force=true)] raises [AttributeError] from
    [_register_channel] instead of returning a channel.  Before [init] it
    raises as well, with the capacity at 8, as [Channel.__init__] finds no
    [_bufferSize]. *)
Lemma find_channel_force_raises :
  (m_channel_max mixer_reserved_above_capacity = 1 ∧
   m_initialized mixer_reserved_above_capacity = true ∧
   m_channel_available mixer_reserved_above_capacity = [] ∧
   m_channel_reserved mixer_reserved_above_capacity = [1; 0] ∧
   ∃ w', find_channel true mixer_reserved_above_capacity
         = Raise AttributeError w') ∧
  (m_channel_max Mixer_new = 8 ∧
   ∃ w', find_channel true Mixer_new = Raise AttributeError w').
Proof.
  split.
  - repeat (split; [reflexivity|]). eexists. vm_compute. reflexivity.
  - split; [reflexivity|]. eexists. vm_compute. reflexivity.
Qed.

(** ** Reserving channels *)

Lemma foldl_reserve_step_reserved ids w :
  m_channel_reserved (foldl reserve_step w ids) = m_channel_reserved w ++ ids.
Proof.
  revert w. induction ids as [|id ids IH]; intros w; simpl.
  - by rewrite app_nil_r.
  - rewrite IH. simpl. unfold deque_add. by rewrite <- app_assoc.
Qed.

Lemma foldl_reserve_step_available ids w :
  m_channel_available (foldl reserve_step w ids) =
  foldl (fun d id => deque_remove id d) (m_channel_available w) ids.
Proof.
  revert w. induction ids as [|id ids IH]; intros w; simpl; [done|].
  by rewrite IH.
Qed.

Lemma foldl_reserve_step_frame ids w :
  m_channel_reserved_num (foldl reserve_step w ids) = m_channel_reserved_num w ∧
  m_channel_max (foldl reserve_step w ids) = m_channel_max w ∧
  m_channel_active (foldl reserve_step w ids) = m_channel_active w ∧
  m_channels (foldl reserve_step w ids) = m_channels w.
Proof.
  revert w. induction ids as [|id ids IH]; intros w; simpl; [done|].
  by destruct (IH (reserve_step w id)) as (-> & -> & -> & ->).
Qed.

Lemma foldl_deque_remove_NoDup (ids d : list Z) :
  NoDup d → NoDup (foldl (fun d id => deque_remove id d) d ids).
Proof.
  revert d. induction ids as [|id ids IH]; intros d Hd; simpl; [done|].
  by apply IH, NoDup_deque_remove.
Qed.

Lemma foldl_deque_remove_elem_of (ids d : list Z) x :
  x ∈ foldl (fun d id => deque_remove id d) d ids → x ∈ d.
Proof.
  revert d. induction ids as [|id ids IH]; intros d; simpl; [done|].
  intros Hx%IH. by apply elem_of_deque_remove_1 in Hx.
Qed.

Lemma foldl_deque_remove_removed (ids d : list Z) x :
  NoDup d → x ∈ ids → x ∉ foldl (fun d id => deque_remove id d) d ids.
Proof.
  revert d. induction ids as [|id ids IH]; intros d Hd Hx; simpl.
  - by apply elem_of_nil in Hx.
  - apply elem_of_cons in Hx as [->|Hx].
    + intros Hin%foldl_deque_remove_elem_of.
      by apply (not_elem_of_deque_remove id d).
    + by apply IH; [apply NoDup_deque_remove|].
Qed.

Lemma foldl_deque_remove_kept (ids d : list Z) x :
  x ∉ ids → x ∈ d → x ∈ foldl (fun d id => deque_remove id d) d ids.
Proof.
  revert d. induction ids as [|id ids IH]; intros d Hx Hd; simpl; [done|].
  apply not_elem_of_cons in Hx as [Hne Hx].
  by apply IH; [|apply elem_of_deque_remove_ne].
Qed.

Lemma clamp_reserved_range count w :
  0 ≤ m_channel_max w →
  clamp_reserved count w = Z.max 0 (Z.min count (m_channel_max w)) ∧
  0 ≤ clamp_reserved count w ≤ m_channel_max w.
Proof. intros Hmax. unfold clamp_reserved. repeat case_decide; lia. Qed.

(** A deque [remove] takes out one occurrence.  An id is twice in the
    available pool after a [set_reserved] made while a channel of the
    reserved region plays, which the specification leaves open: reserve
    one channel, shrink the capacity to 0 and grow it back to 8 (id 0 is
    then both reserved and available), play channel 0, [set_reserved(0)],
    and stop channel 0, which appends 0 to the available pool a second
    time.  [set_reserved(1)] then leaves id 0 both reserved and
    available. *)
Lemma set_reserved_leaves_second_occurrence :
  m_channel_available mixer_twice_available = [0; 1; 2; 3; 4; 5; 6; 7; 0] ∧
  m_channel_max mixer_twice_available = 8 ∧
  m_channel_reserved (set_reserved 1 mixer_twice_available) = [0] ∧
  m_channel_available (set_reserved 1 mixer_twice_available)
  = [1; 2; 3; 4; 5; 6; 7; 0] ∧
  0 ∈ m_channel_available (set_reserved 1 mixer_twice_available).
Proof.
  repeat (split; [reflexivity|]).
  change (m_channel_available (set_reserved 1 mixer_twice_available))
    with [1; 2; 3; 4; 5; 6; 7; 0].
  rewrite !elem_of_cons. auto 10.
Qed.

(** ** Changing the capacity *)

Lemma shrink_step_channels w id :
  m_channels (shrink_step w id) = delete id (m_channels w).
Proof.
  unfold shrink_step. destruct (m_channels w !! id) as [c|] eqn:Hc; simpl.
  - apply Channel_stop_delete.
  - by rewrite delete_id.
Qed.

Lemma shrink_step_active w id :
  m_channel_active (shrink_step w id) =
  if Channel_get_busy id w then deque_remove id (m_channel_active w)
  else m_channel_active w.
Proof.
  unfold shrink_step. destruct (m_channels w !! id) as [c|] eqn:Hc; simpl.
  - apply Channel_stop_active_pool.
  - unfold Channel_get_busy. by rewrite Hc.
Qed.

Lemma shrink_step_busy_ne w id id' :
  id ≠ id' → Channel_get_busy id' (shrink_step w id) = Channel_get_busy id' w.
Proof.
  intros Hne. unfold Channel_get_busy.
  by rewrite shrink_step_channels, lookup_delete_ne.
Qed.

Lemma foldl_shrink_step_lookup ids w k :
  m_channels (foldl shrink_step w ids) !! k =
  if decide (k ∈ ids) then None else m_channels w !! k.
Proof.
  revert w. induction ids as [|id ids IH]; intros w; cbn [foldl].
  - rewrite decide_False; [done | apply not_elem_of_nil].
  - rewrite IH, shrink_step_channels.
    destruct (decide (k ∈ ids)) as [Hin|Hnin].
    + rewrite decide_True; [done | by right].
    + destruct (decide (id = k)) as [->|Hne].
      * rewrite lookup_delete_eq, decide_True; [done | by left].
      * rewrite lookup_delete_ne by done.
        rewrite decide_False; [done|].
        apply not_elem_of_cons. split; [congruence | done].
Qed.

Lemma foldl_shrink_step_active ids w id :
  NoDup ids →
  occ id (m_channel_active (foldl shrink_step w ids)) =
  if decide (id ∈ ids ∧ Channel_get_busy id w = true)
  then Nat.pred (occ id (m_channel_active w))
  else occ id (m_channel_active w).
Proof.
  intros Hnd. revert w.
  induction Hnd as [|a ids Ha Hnd IH]; intros w; cbn [foldl].
  - rewrite decide_False; [done|]. intros [H _]. by apply elem_of_nil in H.
  - rewrite IH, shrink_step_active.
    destruct (decide (id = a)) as [->|Hne].
    + rewrite (decide_False (P := a ∈ ids ∧ _)) by (by intros [? _]).
      destruct (Channel_get_busy a w) eqn:Hb.
      * rewrite occ_deque_remove, !decide_True; [done | | done].
        split; [by left | done].
      * rewrite decide_False; [done | by intros [_ ?]].
    + rewrite shrink_step_busy_ne by done.
      assert (Hocc : occ id (if Channel_get_busy a w
                             then deque_remove a (m_channel_active w)
                             else m_channel_active w)
                     = occ id (m_channel_active w)).
      { destruct (Channel_get_busy a w); [|done].
        by rewrite occ_deque_remove, decide_False. }
      rewrite Hocc.
      destruct (decide (id ∈ ids ∧ Channel_get_busy id w = true)) as [[Hin Hb]|Hn].
      * rewrite decide_True; [done | split; [by right | done]].
      * rewrite decide_False; [done|].
        intros [Hin Hb]. apply Hn. split; [|done].
        apply elem_of_cons in Hin as [?|?]; [congruence | done].
Qed.

Lemma foldl_shrink_step_max ids w :
  m_channel_max (foldl shrink_step w ids) = m_channel_max w.
Proof.
  revert w. induction ids as [|id ids IH]; intros w; simpl; [done|].
  rewrite IH. unfold shrink_step.
  destruct (m_channels w !! id); simpl; [apply Channel_stop_channel_max | done].
Qed.

Lemma foldl_grow_available ids w :
  let w' := foldl (fun w id => set_available (deque_add id) w) w ids in
  m_channel_available w' = m_channel_available w ++ ids ∧
  m_channel_reserved w' = m_channel_reserved w ∧
  m_channel_active w' = m_channel_active w ∧
  m_channels w' = m_channels w.
Proof.
  revert w. induction ids as [|id ids IH]; intros w; simpl.
  - by rewrite app_nil_r.
  - destruct (IH (set_available (deque_add id) w)) as (-> & -> & -> & ->).
    simpl. unfold deque_add. by rewrite <- app_assoc.
Qed.

Lemma busy_registered id w :
  Channel_get_busy id w = true → is_Some (m_channels w !! id).
Proof.
  unfold Channel_get_busy. destruct (m_channels w !! id); [by eexists | done].
Qed.

(** What [set_num_channels(n)] does for [n >= 0]: the capacity read by
    [get_num_channels] is [n]; no channel with an id from [n] up is
    registered any more, channels below [n] are as they were, and every
    channel from [n] up whose active flag was set has been stopped: its id
    has left the active pool, which is otherwise unchanged.  When [n] is at
    least the old capacity [m], the ids m..n-1 are appended to the
    available pool, in order, and nothing else moves.  Registered channels
    are taken to lie below the capacity, as registration sees to. *)
Theorem set_num_channels_spec (n : Z) (w : Mixer) :
  0 ≤ n →
  registered_below_max w →
  let m := m_channel_max w in
  let w' := set_num_channels n w in
  get_num_channels w' = n ∧
  (∀ id, n ≤ id → m_channels w' !! id = None) ∧
  (∀ id, id < n → m_channels w' !! id = m_channels w !! id) ∧
  (∀ id, occ id (m_channel_active w') =
         if decide (n ≤ id ∧ Channel_get_busy id w = true)
         then Nat.pred (occ id (m_channel_active w))
         else occ id (m_channel_active w)) ∧
  (m ≤ n →
   m_channel_available w' = m_channel_available w ++ seqZ m (n - m) ∧
   m_channel_reserved w' = m_channel_reserved w ∧
   m_channel_active w' = m_channel_active w ∧
   m_channels w' = m_channels w).
Proof.
  intros Hn Hreg. simpl. unfold set_num_channels, get_num_channels.
  destruct (decide (n >= m_channel_max w)) as [Hgrow|Hshrink].
  - destruct (foldl_grow_available
                (seqZ (m_channel_max w) (n - m_channel_max w)) w)
      as (Hav & Hres & Hact & Hch).
    simpl in *. rewrite Hav, Hres, Hact, Hch.
    split; [done|]. split; [|split; [done|split; [|done]]].
    + intros id Hid. destruct (m_channels w !! id) as [c|] eqn:Hc; [|done].
      apply Hreg in Hc. lia.
    + intros id. rewrite decide_False; [done|].
      intros [Hid [c Hc]%busy_registered]. apply Hreg in Hc. lia.
  - rewrite decide_True by lia. simpl.
    split; [done|]. split; [|split; [|split; [|lia]]].
    + intros id Hid. rewrite foldl_shrink_step_lookup.
      case_decide; [done|].
      destruct (m_channels w !! id) as [c|] eqn:Hc; [|done].
      apply Hreg in Hc. exfalso. rewrite elem_of_seqZ in *. lia.
    + intros id Hid. rewrite foldl_shrink_step_lookup.
      rewrite decide_False; [done|]. rewrite elem_of_seqZ. lia.
    + intros id. rewrite foldl_shrink_step_active by apply NoDup_seqZ.
      destruct (decide (n ≤ id ∧ Channel_get_busy id w = true)) as [[Hid Hb]|Hno].
      * rewrite decide_True; [done|]. split; [|done].
        apply busy_registered in Hb as [c Hc]. apply Hreg in Hc.
        rewrite elem_of_seqZ. lia.
      * rewrite decide_False; [done|].
        intros [Hin Hb]. apply Hno. rewrite elem_of_seqZ in Hin. split; [lia|done].
Qed.

Lemma set_num_channels_spec_witness :
  get_num_channels (set_num_channels 5 mixer_all_busy) = 5 ∧
  m_channels (set_num_channels 5 mixer_all_busy) !! 6 = None ∧
  occ 6 (m_channel_active (set_num_channels 5 mixer_all_busy)) = 0%nat.
Proof.
  destruct (set_num_channels_spec 5 mixer_all_busy) as (Hn & Hreg & _ & Hact & _).
  - lia.
  - change (map_Forall (fun id _ => id < m_channel_max mixer_all_busy)
              (m_channels mixer_all_busy)).
    apply (bool_decide_unpack _). by vm_compute.
  - split; [exact Hn|]. split; [apply Hreg; lia|].
    rewrite Hact. reflexivity.
Defined.

(** ** Pulling a channel to the end of its stream *)

Lemma pulls_app a b id w l1 w1 l2 w2 :
  pulls a id w = (l1, w1) → length l1 = a →
  pulls b id w1 = (l2, w2) →
  pulls (a + b) id w = (l1 ++ l2, w2).
Proof.
  revert w l1 w1. induction a as [|a IH]; intros w l1 w1; simpl.
  - intros [= <- <-] _ Hb. done.
  - destruct (Channel__get id w) as [[[n gl] gr] w'|e w'].
    + destruct (pulls a id w') as [ns w''] eqn:Hp.
      intros [= <- <-] [= Hlen] Hb.
      by rewrite (IH _ _ _ Hp Hlen Hb).
    + intros [= <- <-]. done.
Qed.

Lemma Channel__get_data w id s n st loops :
  playing w id s (ReadBytes n :: st) loops → 0 < n →
  ∃ w', Channel__get id w
        = Ok (n, (default 0%Q (c_lvolume <$> m_channels w !! id) * s_volume s)%Q,
                 (default 0%Q (c_rvolume <$> m_channels w !! id) * s_volume s)%Q) w' ∧
        playing w' id s st loops ∧
        m_channel_active w' = m_channel_active w.
Proof.
  intros (c & Hc & Hs & Hst & Hl & Ha) Hn.
  unfold Channel__get. rewrite Hc, Hst. simpl.
  rewrite decide_True by lia. rewrite Hs.
  eexists; split; [reflexivity|]. split; [|done].
  eexists. unfold upd_channel; simpl.
  rewrite lookup_alter_eq, Hc. simpl. done.
Qed.

Lemma Channel__get_end_repeat w id s loops :
  playing w id s [] loops → loops ≠ 0 →
  ∃ w', Channel__get id w = Ok (-1, 1%Q, 1%Q) w' ∧
        playing w' id s (s_sound_object s) (loops - 1) ∧
        m_channel_active w' = m_channel_active w.
Proof.
  intros (c & Hc & Hs & Hst & Hl & Ha) Hn. subst loops.
  unfold Channel__get. rewrite Hc, Hst. simpl.
  rewrite decide_False by done. rewrite Hs.
  eexists; split; [reflexivity|]. split; [|done].
  eexists. unfold upd_channel; simpl.
  rewrite !lookup_alter_eq, Hc. simpl. done.
Qed.

Lemma Channel_stop_stopped w id :
  Channel_get_busy id w = true → stopped (Channel_stop id w) id.
Proof.
  unfold Channel_get_busy. destruct (m_channels w !! id) as [c|] eqn:Hc; [|done].
  simpl. intros Ha. eexists. rewrite (Channel_stop_lookup _ _ _ Hc), Ha. done.
Qed.

Lemma Channel__get_end_stop w id s :
  playing w id s [] 0 →
  ∃ w', Channel__get id w = Ok (-1, 1%Q, 1%Q) w' ∧ stopped w' id ∧
        occ id (m_channel_active w') = Nat.pred (occ id (m_channel_active w)).
Proof.
  intros (c & Hc & Hs & Hst & Hl & Ha).
  unfold Channel__get. rewrite Hc, Hst. simpl. rewrite Hl. simpl.
  eexists; split; [reflexivity|].
  set (w1 := upd_channel _ _ _).
  assert (Hb : Channel_get_busy id w1 = true).
  { unfold Channel_get_busy, w1, upd_channel. simpl.
    by rewrite lookup_alter_eq, Hc. }
  split; [by apply Channel_stop_stopped|].
  rewrite Channel_stop_active_pool, Hb, occ_deque_remove, decide_True by done.
  done.
Qed.

(** Reading a stream of data blocks through. *)
Lemma pulls_blocks w id s cs loops :
  Forall (fun n => 0 < n) cs →
  playing w id s (ReadBytes <$> cs) loops →
  ∃ w', pulls (length cs) id w = (cs, w') ∧ playing w' id s [] loops ∧
        m_channel_active w' = m_channel_active w.
Proof.
  intros Hpos. revert w.
  induction Hpos as [|n cs Hn Hpos IH]; intros w Hplay.
  - by exists w.
  - destruct (Channel__get_data _ _ _ _ _ _ Hplay Hn) as (w1 & Hget & Hp1 & Ha1).
    destruct (IH _ Hp1) as (w2 & Hpulls & Hp2 & Ha2).
    exists w2. cbn [pulls length]. rewrite Hget, Hpulls.
    split; [done|]. split; [done | congruence].
Qed.

(** One playthrough followed by a restart. *)
Lemma pulls_playthrough_repeat w id s cs loops :
  Forall (fun n => 0 < n) cs →
  s_sound_object s = ReadBytes <$> cs →
  playing w id s (ReadBytes <$> cs) loops → loops ≠ 0 →
  ∃ w', pulls (length cs + 1) id w = (cs ++ [-1], w') ∧
        playing w' id s (ReadBytes <$> cs) (loops - 1) ∧
        m_channel_active w' = m_channel_active w.
Proof.
  intros Hpos Hsrc Hplay Hl.
  destruct (pulls_blocks _ _ _ _ _ Hpos Hplay) as (w1 & Hpulls & Hp1 & Ha1).
  destruct (Channel__get_end_repeat _ _ _ _ Hp1 Hl) as (w2 & Hget & Hp2 & Ha2).
  exists w2. split; [|split; [by rewrite <- Hsrc | congruence]].
  apply (pulls_app _ 1 _ _ _ w1 [-1] w2 Hpulls eq_refl).
  cbn [pulls]. by rewrite Hget.
Qed.

(** The last playthrough, followed by the stop. *)
Lemma pulls_playthrough_last w id s cs :
  Forall (fun n => 0 < n) cs →
  playing w id s (ReadBytes <$> cs) 0 →
  ∃ w', pulls (length cs + 1) id w = (cs ++ [-1], w') ∧ stopped w' id ∧
        occ id (m_channel_active w') = Nat.pred (occ id (m_channel_active w)).
Proof.
  intros Hpos Hplay.
  destruct (pulls_blocks _ _ _ _ _ Hpos Hplay) as (w1 & Hpulls & Hp1 & Ha1).
  destruct (Channel__get_end_stop _ _ _ Hp1) as (w2 & Hget & Hst & Hocc).
  exists w2. split; [|split; [done | by rewrite Hocc, Ha1]].
  apply (pulls_app _ 1 _ _ _ w1 [-1] w2 Hpulls eq_refl).
  cbn [pulls]. by rewrite Hget.
Qed.

(** [loops = k] gives [k + 1] playthroughs, each followed by one pull
    without data. *)
Lemma pulls_loops (k : nat) w id s cs :
  Forall (fun n => 0 < n) cs →
  s_sound_object s = ReadBytes <$> cs →
  playing w id s (ReadBytes <$> cs) (Z.of_nat k) →
  ∃ w', pulls (S k * (length cs + 1)) id w
        = (mjoin (replicate (S k) (cs ++ [-1])), w') ∧
        stopped w' id ∧
        occ id (m_channel_active w') = Nat.pred (occ id (m_channel_active w)).
Proof.
  intros Hpos Hsrc. revert w. induction k as [|k IH]; intros w Hplay.
  - destruct (pulls_playthrough_last _ _ _ _ Hpos Hplay) as (w' & Hp & Hst & Hocc).
    exists w'. cbn [replicate mjoin list_join]. rewrite app_nil_r.
    by rewrite Nat.mul_1_l.
  - destruct (pulls_playthrough_repeat _ _ _ _ _ Hpos Hsrc Hplay)
      as (w1 & Hp1 & Hplay1 & Ha1); [lia|].
    replace (Z.of_nat (S k) - 1) with (Z.of_nat k) in Hplay1 by lia.
    destruct (IH _ Hplay1) as (w2 & Hp2 & Hst & Hocc).
    exists w2. split; [|split; [done | by rewrite Hocc, Ha1]].
    change (S (S k) * (length cs + 1))%nat
      with ((length cs + 1) + S k * (length cs + 1))%nat.
    apply (pulls_app _ _ _ _ _ w1 _ w2 Hp1); [|exact Hp2].
    rewrite length_app. simpl. done.
Qed.

Lemma Channel_play_playing w id s loops :
  is_Some (m_channels w !! id) →
  playing (Channel_play id s loops w) id s (s_sound_object s) loops.
Proof.
  intros [c Hc]. unfold Channel_play. rewrite Hc.
  set (w1 := match c_sound c with Some _ => _ | None => w end).
  assert (Hreg : is_Some (m_channels w1 !! id)).
  { unfold w1. destruct (c_sound c); [|by eexists].
    unfold Channel_set_volume, upd_channel. simpl.
    rewrite lookup_alter_eq, (Channel_stop_lookup _ _ _ Hc). by eexists. }
  destruct Hreg as [c1 Hc1].
  unfold playing. pool_cases; rewrite lookup_alter_eq, Hc1; by eexists.
Qed.

(** C2, as the code has it.  A pull that gets no data (the read result [n]
    is not positive: -1 at the end of the stream, 0 after a read error)
    returns that length with gains 1.0.  With no loops left it calls [stop],
    which for an active channel leaves it stopped.  With loops left, -1
    included, it reopens the cursor on the same sound from the start and
    takes one off the loop count in every case, so that -1 becomes -2.
    Hence after [play] with [loops = 2] the pulls give three playthroughs
    of the stream, each followed by exactly one pull without data, and the
    channel is then stopped. *)
Theorem Channel__get_end_of_stream :
  (∀ w id c st,
     m_channels w !! id = Some c → c_stream c = Some st →
     let n := default 0 (stream_read st).1 in
     let w1 :=
       upd_channel id
         (fun c => c_set_data_len n (c_set_stream (Some (stream_read st).2) c)) w in
     n ≤ 0 →
     (st = [] → n = -1) ∧
     (c_loops c = 0 →
      Channel__get id w = Ok (n, 1%Q, 1%Q) (Channel_stop id w1) ∧
      (c_active c = true → stopped (Channel_stop id w1) id)) ∧
     (c_loops c ≠ 0 → ∀ s, c_sound c = Some s →
      ∃ w' c', Channel__get id w = Ok (n, 1%Q, 1%Q) w' ∧
               m_channels w' !! id = Some c' ∧
               c_sound c' = Some s ∧
               c_stream c' = Some (s_sound_object s) ∧
               c_loops c' = c_loops c - 1 ∧
               c_active c' = c_active c ∧
               m_channel_active w' = m_channel_active w ∧
               m_channel_available w' = m_channel_available w ∧
               m_channel_reserved w' = m_channel_reserved w)) ∧
  (∀ w id s cs,
     is_Some (m_channels w !! id) →
     s_sound_object s = ReadBytes <$> cs →
     Forall (fun n => 0 < n) cs →
     ∃ w', pulls (3 * (length cs + 1)) id (Channel_play id s 2 w)
           = ((cs ++ [-1]) ++ (cs ++ [-1]) ++ (cs ++ [-1]), w') ∧
           stopped w' id).
Proof.
  split.
  - intros w id c st Hc Hst n w1 Hn.
    split; [by intros ->|].
    unfold Channel__get. rewrite Hc, Hst.
    destruct (stream_read st) as [r st'] eqn:Hread.
    change (default 0 r) with n. cbn beta iota.
    rewrite decide_False by lia. split.
    + intros Hl. rewrite decide_True by done.
      split; [done|]. intros Ha. apply Channel_stop_stopped.
      unfold Channel_get_busy, w1, upd_channel. simpl.
      by rewrite lookup_alter_eq, Hc.
    + intros Hl s Hs. rewrite decide_False by done. rewrite Hs.
      eexists _, _. split; [reflexivity|].
      unfold upd_channel. simpl.
      rewrite !lookup_alter_eq, Hc. simpl. done.
  - intros w id s cs Hreg Hsrc Hpos.
    destruct (pulls_loops 2 (Channel_play id s 2 w) id s cs Hpos Hsrc)
      as (w' & Hp & Hst & _).
    { rewrite <- Hsrc. by apply Channel_play_playing. }
    exists w'. split; [|done].
    rewrite Hp. cbn [replicate mjoin list_join]. by rewrite app_nil_r.
Qed.

Lemma Channel__get_end_of_stream_witness :
  ∃ w', pulls 9 0 (Channel_play 0 beep 2 (exec (CallChannel 0) mixer_started))
        = ([4096; 1024; -1; 4096; 1024; -1; 4096; 1024; -1], w') ∧
        stopped w' 0.
Proof.
  apply (proj2 Channel__get_end_of_stream
           (exec (CallChannel 0) mixer_started) 0 beep [4096; 1024]).
  - exists Channel_new. reflexivity.
  - reflexivity.
  - repeat constructor.
Defined.

(** C2, as stated, fails at [loops = -1]: the channel at the end
    of its stream is left with a loop count of -2, not -1, and the length
    it returns is -1, not 0. *)
Lemma Channel__get_infinite_loop_decrements :
  c_loops <$> m_channels mixer_forever !! 0 = Some (-1) ∧
  c_stream <$> m_channels mixer_forever !! 0 = Some (Some []) ∧
  value_of (Channel__get 0 mixer_forever) = Some (-1, 1%Q, 1%Q) ∧
  c_loops <$> m_channels (state_of (Channel__get 0 mixer_forever)) !! 0
  = Some (-2).
Proof. by vm_compute. Qed.

(** ** What the calls preserve *)

Lemma keeps_shape_refl w : keeps_shape w w.
Proof. unfold keeps_shape. auto. Qed.

Lemma keeps_shape_trans w1 w2 w3 :
  keeps_shape w1 w2 → keeps_shape w2 w3 → keeps_shape w1 w3.
Proof.
  intros (Hm1 & Hn1 & Hr1 & Hc1) (Hm2 & Hn2 & Hr2 & Hc2).
  unfold keeps_shape. rewrite Hm2, Hm1, Hn2, Hn1.
  split; [done|]. split; [done|]. split.
  - intros Hz Hres. apply Hr2; [congruence | by apply Hr1].
  - intros k [Hk|Hk]%Hc2; [by apply Hc1 | right; lia].
Qed.

Lemma keeps_shape_pool_wf w w' : keeps_shape w w' → pool_wf w → pool_wf w'.
Proof.
  intros (Hm & Hn & Hr & Hc) (Hmax & Hnum & Hcons & Hreg).
  unfold pool_wf, reserved_consistent, registered_below_max.
  rewrite Hm, Hn. split; [done|]. split; [done|]. split.
  - intros Hz. by apply Hr, Hcons.
  - intros k c Hk. destruct (Hc k) as [[c0 Hc0]|Hlt]; [by eexists| |done].
    by apply (Hreg _ c0).
Qed.

Lemma keeps_shape_upd_channel id f w : keeps_shape w (upd_channel id f w).
Proof.
  unfold keeps_shape, upd_channel. simpl.
  repeat (split; [done|]). intros k Hk. left.
  destruct (decide (id = k)) as [->|Hne].
  - rewrite lookup_alter_eq in Hk. by apply fmap_is_Some in Hk.
  - by rewrite lookup_alter_ne in Hk.
Qed.

Lemma keeps_shape_activate id w : keeps_shape w (_activate_channel id w).
Proof.
  unfold keeps_shape, _activate_channel.
  case_decide; simpl; repeat (split; [done|]); try by auto.
  split; [|by auto]. by intros _ ->.
Qed.

Lemma keeps_shape_deactivate id w : keeps_shape w (_deactivate_channel id w).
Proof.
  unfold keeps_shape, _deactivate_channel. simpl.
  destruct (deque_isEmpty _); simpl; auto.
Qed.

Lemma keeps_shape_restore id w : keeps_shape w (_restore_channel id w).
Proof.
  unfold keeps_shape, _restore_channel.
  repeat case_decide; simpl; repeat (split; [done|]); try by auto.
  split; [|by auto]. intros Hz. lia.
Qed.

Lemma keeps_shape_stop id w : keeps_shape w (Channel_stop id w).
Proof.
  unfold Channel_stop. destruct (m_channels w !! id) as [c|];
    [|apply keeps_shape_refl].
  destruct (c_active c); simpl; [|apply keeps_shape_refl].
  eapply keeps_shape_trans; [apply keeps_shape_upd_channel|].
  eapply keeps_shape_trans; [apply keeps_shape_deactivate|].
  eapply keeps_shape_trans; [apply keeps_shape_upd_channel|].
  apply keeps_shape_restore.
Qed.

Lemma keeps_shape_register id c w :
  keeps_shape w (state_of (_register_channel id c w)).
Proof.
  unfold _register_channel. case_decide; simpl; [|apply keeps_shape_refl].
  unfold keeps_shape. simpl. repeat (split; [done|]).
  intros k Hk. destruct (decide (id = k)) as [->|Hne]; [by right|].
  left. by rewrite lookup_insert_ne in Hk.
Qed.

Lemma keeps_shape_Channel_init id w :
  keeps_shape w (state_of (Channel_init id w)).
Proof.
  unfold Channel_init. destruct (m_bufferSize w); [|apply keeps_shape_refl].
  pose proof (keeps_shape_register id Channel_new w) as H.
  by destruct (_register_channel id Channel_new w).
Qed.

Lemma keeps_shape_get_channel id w :
  keeps_shape w (state_of (_get_channel id w)).
Proof.
  unfold _get_channel. destruct (m_channels w !! id);
    [apply keeps_shape_refl | apply keeps_shape_Channel_init].
Qed.

Lemma state_of_returning_channel r :
  state_of (returning_channel r) = state_of r.
Proof. by destruct r. Qed.

Lemma keeps_shape_find_channel force w :
  keeps_shape w (state_of (find_channel force w)).
Proof.
  unfold find_channel.
  destruct (deque_pop (m_channel_available w)) as [[a rest]|].
  { rewrite state_of_returning_channel.
    eapply keeps_shape_trans; [|apply keeps_shape_get_channel].
    unfold keeps_shape; simpl; auto. }
  destruct (decide (m_channel_reserved_num w = 0)) as [Hz|Hnz].
  - destruct force; simpl; [|apply keeps_shape_refl].
    destruct (scan_active _ _ _) as [l lr].
    rewrite state_of_returning_channel. apply keeps_shape_get_channel.
  - destruct (deque_pop (m_channel_reserved w)) as [[b rest]|].
    { rewrite state_of_returning_channel.
      eapply keeps_shape_trans; [|apply keeps_shape_get_channel].
      unfold keeps_shape; simpl. repeat (split; [done|]). auto. }
    destruct force; simpl; [|apply keeps_shape_refl].
    destruct (scan_active _ _ _) as [l lr].
    rewrite state_of_returning_channel. apply keeps_shape_get_channel.
Qed.

Lemma keeps_shape_retrieve w :
  keeps_shape w (state_of (_retrieve_channel w)).
Proof.
  unfold _retrieve_channel.
  destruct (deque_pop (m_channel_available w)) as [[a rest]|];
    [|apply keeps_shape_refl].
  pose proof (keeps_shape_get_channel a (set_available (fun _ => rest) w)) as H.
  destruct (_get_channel a _) as [ch w'|e w']; simpl in *.
  - destruct H as (Hm & Hn & Hr & Hc). unfold keeps_shape. simpl. auto.
  - destruct H as (Hm & Hn & Hr & Hc). unfold keeps_shape. auto.
Qed.

Lemma keeps_shape_Sound_play s loops w :
  keeps_shape w (state_of (Sound_play s loops w)).
Proof.
  unfold Sound_play. pose proof (keeps_shape_retrieve w) as H.
  destruct (_retrieve_channel w) as [[ch|] w'|e w']; simpl in *; [|done|done].
  eapply keeps_shape_trans; [exact H | apply keeps_shape_upd_channel].
Qed.

Lemma keeps_shape_Channel_play id s loops w :
  keeps_shape w (Channel_play id s loops w).
Proof.
  unfold Channel_play. destruct (m_channels w !! id) as [c|];
    [|apply keeps_shape_refl].
  eapply keeps_shape_trans; [|apply keeps_shape_activate].
  eapply keeps_shape_trans; [|apply keeps_shape_upd_channel].
  destruct (c_sound c); [|apply keeps_shape_refl].
  eapply keeps_shape_trans; [apply keeps_shape_stop|].
  apply keeps_shape_upd_channel.
Qed.

Lemma keeps_shape_Channel__get id w :
  keeps_shape w (state_of (Channel__get id w)).
Proof.
  unfold Channel__get. destruct (m_channels w !! id) as [c|];
    [|apply keeps_shape_refl].
  destruct (c_stream c) as [st|]; [|apply keeps_shape_refl].
  destruct (stream_read st) as [r st'].
  case_decide.
  { destruct (c_sound c); apply keeps_shape_upd_channel. }
  case_decide; simpl.
  { eapply keeps_shape_trans; [apply keeps_shape_upd_channel|].
    apply keeps_shape_stop. }
  destruct (c_sound c); simpl; [|apply keeps_shape_upd_channel].
  eapply keeps_shape_trans; apply keeps_shape_upd_channel.
Qed.

Lemma keeps_shape_set_backend mx fmt bs music ini w :
  keeps_shape w (set_backend mx fmt bs music ini w).
Proof. unfold keeps_shape. simpl. auto. Qed.

Lemma keeps_shape_init f sz ch b backend w :
  keeps_shape w (state_of (init f sz ch b backend w)).
Proof.
  unfold init. destruct (m_initialized w); [apply keeps_shape_refl|].
  destruct (backend _ _) as [|isInit n]; simpl.
  { eapply keeps_shape_trans; apply keeps_shape_set_backend. }
  destruct isInit; simpl.
  2:{ eapply keeps_shape_trans; apply keeps_shape_set_backend. }
  match goal with
  | |- context [Channel_init (-1) ?W] =>
      pose proof (keeps_shape_Channel_init (-1) W) as H;
      assert (H0 : keeps_shape w W)
        by (repeat (eapply keeps_shape_trans;
                    [|apply keeps_shape_set_backend]);
            apply keeps_shape_refl);
      destruct (Channel_init (-1) W) as [x w4|e w4]; simpl in *
  end.
  - eapply keeps_shape_trans; [exact H0|].
    eapply keeps_shape_trans; [exact H | apply keeps_shape_set_backend].
  - eapply keeps_shape_trans; [exact H0 | exact H].
Qed.

Lemma foldl_shrink_step_shape ids w :
  m_channel_reserved_num (foldl shrink_step w ids) = m_channel_reserved_num w ∧
  (m_channel_reserved_num w = 0 → m_channel_reserved w = [] →
   m_channel_reserved (foldl shrink_step w ids) = []).
Proof.
  revert w. induction ids as [|id ids IH]; intros w; cbn [foldl]; [done|].
  assert (Hstep : keeps_shape w (shrink_step w id)).
  { unfold shrink_step. destruct (m_channels w !! id).
    - destruct (keeps_shape_stop id w) as (Hm & Hn & Hr & Hc).
      unfold keeps_shape. simpl. repeat (split; [done|]).
      intros k Hk. apply Hc. destruct (decide (id = k)) as [->|Hne].
      + rewrite lookup_delete_eq in Hk. by destruct Hk.
      + by rewrite lookup_delete_ne in Hk.
    - unfold keeps_shape. simpl. auto. }
  destruct Hstep as (_ & Hn & Hr & _).
  destruct (IH (shrink_step w id)) as [IHn IHr].
  rewrite IHn, Hn. split; [done|].
  intros Hz Hres. apply IHr; [congruence | by apply Hr].
Qed.

Lemma pool_wf_set_num_channels count w :
  pool_wf w → pool_wf (set_num_channels count w).
Proof.
  intros (Hmax & Hnum & Hcons & Hreg). unfold set_num_channels.
  destruct (decide (count >= m_channel_max w)) as [Hgrow|Hshrink].
  - destruct (foldl_grow_available
                (seqZ (m_channel_max w) (count - m_channel_max w)) w)
      as (_ & Hres & _ & Hch).
    unfold pool_wf, reserved_consistent, registered_below_max. simpl in *.
    rewrite Hres, Hch.
    assert (Hfr : ∀ ids w0,
      m_channel_reserved_num
        (foldl (fun w id => set_available (deque_add id) w) w0 ids)
      = m_channel_reserved_num w0).
    { induction ids as [|i ids IH]; intros w0; simpl; [done|]. by rewrite IH. }
    rewrite Hfr. split; [lia|]. split; [done|]. split; [done|].
    intros k c Hk. apply Hreg in Hk. lia.
  - destruct (decide (count >= 0)) as [Hpos|Hneg]; [|done].
    destruct (foldl_shrink_step_shape
                (seqZ count (m_channel_max w - count)) w) as [Hn Hr].
    unfold pool_wf, reserved_consistent, registered_below_max. simpl.
    rewrite Hn. split; [lia|]. split; [done|]. split.
    + intros Hz. by apply Hr, Hcons.
    + intros k c. rewrite foldl_shrink_step_lookup.
      case_decide as Hin; [done|]. intros Hk%Hreg.
      rewrite elem_of_seqZ in Hin. lia.
Qed.

Lemma pool_wf_set_reserved count w : pool_wf w → pool_wf (set_reserved count w).
Proof.
  intros (Hmax & Hnum & Hcons & Hreg).
  destruct (clamp_reserved_range count w Hmax) as [_ Hrange].
  unfold set_reserved.
  set (w2 := set_reserved_pool _ _).
  destruct (foldl_reserve_step_frame (seqZ 0 (clamp_reserved count w)) w2)
    as (Hn & Hm & _ & Hch).
  unfold pool_wf, reserved_consistent, registered_below_max.
  rewrite Hn, Hm, Hch, foldl_reserve_step_reserved. simpl.
  split; [done|]. split; [lia|]. split; [|done].
  intros ->. done.
Qed.

Lemma pool_wf_new : pool_wf Mixer_new.
Proof.
  unfold pool_wf, reserved_consistent, registered_below_max. simpl.
  split; [lia|]. split; [lia|]. split; [done|].
  intros k c Hk. by rewrite lookup_empty in Hk.
Qed.

(** X22.  Every state the calls reach from a new mixer is well formed:
    the capacity and the reserved count are not negative, the reserved
    pool is empty when the count is 0, and every registered channel id is
    below the capacity. *)
Lemma reachable_pool_wf w : reachable w → pool_wf w.
Proof.
  induction 1 as [|c w Hreach IH]; [apply pool_wf_new|].
  destruct c; simpl;
    [ | | by apply pool_wf_set_num_channels | by apply pool_wf_set_reserved
      | .. ];
    (eapply keeps_shape_pool_wf; [|exact IH]).
  - apply keeps_shape_init.
  - apply keeps_shape_set_backend.
  - apply keeps_shape_find_channel.
  - apply keeps_shape_get_channel.
  - apply keeps_shape_Sound_play.
  - apply keeps_shape_Channel_play.
  - apply keeps_shape_stop.
  - unfold Channel_pause. destruct (m_channels w !! id) as [ch|];
      [|apply keeps_shape_refl].
    destruct (c_active ch); [apply keeps_shape_upd_channel | apply keeps_shape_refl].
  - unfold Channel_unpause. destruct (m_channels w !! id) as [ch|];
      [|apply keeps_shape_refl].
    destruct (c_pause ch); [apply keeps_shape_upd_channel | apply keeps_shape_refl].
  - apply keeps_shape_upd_channel.
  - apply keeps_shape_Channel__get.
Qed.

(** ** Other ways out of the pool partition *)

(** A paused channel that is played again is not taken out of the active
    pool first, because [stop] does nothing on it: its id is then active
    twice. *)
Example paused_replay_duplicates :
  m_channel_active mixer_paused_replayed = [0; 0] ∧
  ¬ pool_partition mixer_paused_replayed.
Proof.
  split; [reflexivity|].
  intros Hpart. destruct (Hpart 0) as [Hocc _]; [by vm_compute|].
  vm_compute in Hocc. discriminate Hocc.
Qed.

(** * Further properties of the mixer *)

(** ** Equality of states *)

Lemma Mixer_eq_channels (w w' : Mixer) :
  m_mixer w = m_mixer w' → m_audio_format w = m_audio_format w' →
  m_bufferSize w = m_bufferSize w' → m_music w = m_music w' →
  m_channel_max w = m_channel_max w' →
  m_channel_available w = m_channel_available w' →
  m_channel_active w = m_channel_active w' →
  m_channel_reserved w = m_channel_reserved w' →
  m_channel_reserved_num w = m_channel_reserved_num w' →
  m_active w = m_active w' → m_initialized w = m_initialized w' →
  (∀ k, m_channels w !! k = m_channels w' !! k) →
  w = w'.
Proof.
  destruct w, w'; simpl. intros. subst. f_equal. by apply map_eq.
Qed.

Lemma upd_channel_lookup id f w k :
  m_channels (upd_channel id f w) !! k =
  if decide (id = k) then f <$> m_channels w !! k else m_channels w !! k.
Proof.
  unfold upd_channel. simpl. destruct (decide (id = k)) as [->|Hne].
  - by rewrite lookup_alter_eq.
  - by rewrite lookup_alter_ne.
Qed.

(** ** Pausing and resuming a channel *)

Lemma Channel_pause_lookup id w k :
  m_channels (Channel_pause id w) !! k =
  if decide (id = k)
  then (fun c => if c_active c then c_set_pause true (c_set_active false c) else c)
         <$> m_channels w !! k
  else m_channels w !! k.
Proof.
  unfold Channel_pause. destruct (decide (id = k)) as [->|Hne].
  - destruct (m_channels w !! k) as [c|] eqn:Hc; [|by rewrite Hc].
    destruct (c_active c) eqn:Ha.
    + rewrite upd_channel_lookup, decide_True, Hc by done. simpl. by rewrite Ha.
    + rewrite Hc. simpl. by rewrite Ha.
  - destruct (m_channels w !! id) as [c|]; [|done].
    destruct (c_active c); [|done].
    by rewrite upd_channel_lookup, decide_False.
Qed.

Lemma Channel_unpause_lookup id w k :
  m_channels (Channel_unpause id w) !! k =
  if decide (id = k)
  then (fun c => if c_pause c then c_set_pause false (c_set_active true c) else c)
         <$> m_channels w !! k
  else m_channels w !! k.
Proof.
  unfold Channel_unpause. destruct (decide (id = k)) as [->|Hne].
  - destruct (m_channels w !! k) as [c|] eqn:Hc; [|by rewrite Hc].
    destruct (c_pause c) eqn:Ha.
    + rewrite upd_channel_lookup, decide_True, Hc by done. simpl. by rewrite Ha.
    + rewrite Hc. simpl. by rewrite Ha.
  - destruct (m_channels w !! id) as [c|]; [|done].
    destruct (c_pause c); [|done].
    by rewrite upd_channel_lookup, decide_False.
Qed.

Lemma Channel_pause_frame id w :
  m_mixer (Channel_pause id w) = m_mixer w ∧
  m_audio_format (Channel_pause id w) = m_audio_format w ∧
  m_bufferSize (Channel_pause id w) = m_bufferSize w ∧
  m_music (Channel_pause id w) = m_music w ∧
  m_channel_max (Channel_pause id w) = m_channel_max w ∧
  m_channel_available (Channel_pause id w) = m_channel_available w ∧
  m_channel_active (Channel_pause id w) = m_channel_active w ∧
  m_channel_reserved (Channel_pause id w) = m_channel_reserved w ∧
  m_channel_reserved_num (Channel_pause id w) = m_channel_reserved_num w ∧
  m_active (Channel_pause id w) = m_active w ∧
  m_initialized (Channel_pause id w) = m_initialized w.
Proof.
  unfold Channel_pause. destruct (m_channels w !! id) as [c|]; [|done].
  by destruct (c_active c).
Qed.

Lemma Channel_unpause_frame id w :
  m_mixer (Channel_unpause id w) = m_mixer w ∧
  m_audio_format (Channel_unpause id w) = m_audio_format w ∧
  m_bufferSize (Channel_unpause id w) = m_bufferSize w ∧
  m_music (Channel_unpause id w) = m_music w ∧
  m_channel_max (Channel_unpause id w) = m_channel_max w ∧
  m_channel_available (Channel_unpause id w) = m_channel_available w ∧
  m_channel_active (Channel_unpause id w) = m_channel_active w ∧
  m_channel_reserved (Channel_unpause id w) = m_channel_reserved w ∧
  m_channel_reserved_num (Channel_unpause id w) = m_channel_reserved_num w ∧
  m_active (Channel_unpause id w) = m_active w ∧
  m_initialized (Channel_unpause id w) = m_initialized w.
Proof.
  unfold Channel_unpause. destruct (m_channels w !! id) as [c|]; [|done].
  by destruct (c_pause c).
Qed.

Lemma c_unpause_pause c :
  c_active c = true → c_pause c = false →
  c_set_pause false (c_set_active true (c_set_pause true (c_set_active false c))) = c.
Proof. destruct c; simpl. by intros -> ->. Qed.

(** X1.  A channel that is playing (active flag set, pause flag clear)
    is left by [pause] followed by [unpause] exactly as it was, and so is
    the whole mixer: the paused channel keeps its place in the active
    pool, its sound, cursor, loop count and volumes.  A second [pause]
    changes nothing. *)
Theorem Channel_pause_unpause (id : Z) (w : Mixer) (c : Channel) :
  m_channels w !! id = Some c → c_active c = true → c_pause c = false →
  Channel_unpause id (Channel_pause id w) = w ∧
  Channel_get_busy id (Channel_pause id w) = false ∧
  m_channel_active (Channel_pause id w) = m_channel_active w ∧
  Channel_pause id (Channel_pause id w) = Channel_pause id w.
Proof.
  intros Hc Ha Hp. split; [|split; [apply Channel_pause_busy|split]].
  - destruct (Channel_pause_frame id w) as (?&?&?&?&?&?&?&?&?&?&?).
    destruct (Channel_unpause_frame id (Channel_pause id w))
      as (?&?&?&?&?&?&?&?&?&?&?).
    apply Mixer_eq_channels; try congruence.
    intros k. rewrite Channel_unpause_lookup, Channel_pause_lookup.
    destruct (decide (id = k)) as [<-|Hne]; [|done].
    rewrite Hc. simpl. rewrite Ha. simpl. by rewrite c_unpause_pause.
  - apply Channel_pause_frame.
  - unfold Channel_pause at 1.
    pose proof (Channel_pause_busy id w) as Hb. unfold Channel_get_busy in Hb.
    destruct (m_channels (Channel_pause id w) !! id) as [c'|]; [|done].
    simpl in Hb. by rewrite Hb.
Qed.

Lemma Channel_pause_unpause_witness :
  Channel_unpause 0 (Channel_pause 0 mixer_panned_left) = mixer_panned_left.
Proof.
  eapply (Channel_pause_unpause 0 mixer_panned_left); reflexivity.
Defined.

(** ** Mixer-wide stop, pause and unpause *)

Lemma only_channels_differ_refl w : only_channels_differ w w.
Proof. by repeat split. Qed.

Lemma only_channels_differ_trans w1 w2 w3 :
  only_channels_differ w1 w2 → only_channels_differ w2 w3 →
  only_channels_differ w1 w3.
Proof.
  intros (?&?&?&?&?&?&?&?&?&?&?) (?&?&?&?&?&?&?&?&?&?&?).
  repeat split; congruence.
Qed.

Lemma only_channels_differ_eq w w' :
  only_channels_differ w w' →
  (∀ k, m_channels w' !! k = m_channels w !! k) → w' = w.
Proof.
  intros (?&?&?&?&?&?&?&?&?&?&?) Hch. by apply Mixer_eq_channels.
Qed.

Lemma Channel_pause_only id w : only_channels_differ w (Channel_pause id w).
Proof. apply Channel_pause_frame. Qed.

Lemma Channel_unpause_only id w : only_channels_differ w (Channel_unpause id w).
Proof. apply Channel_unpause_frame. Qed.

Lemma Channel_pause_lookup' id w k :
  m_channels (Channel_pause id w) !! k =
  if decide (id = k) then c_pause_method <$> m_channels w !! k
  else m_channels w !! k.
Proof. apply Channel_pause_lookup. Qed.

Lemma Channel_unpause_lookup' id w k :
  m_channels (Channel_unpause id w) !! k =
  if decide (id = k) then c_unpause_method <$> m_channels w !! k
  else m_channels w !! k.
Proof. apply Channel_unpause_lookup. Qed.

(** A sweep returns when every id it looks up is registered, and is then
    the fold of the method over the ids above -1. *)
Lemma sweep_active_Swept method ids w :
  (∀ id w k, is_Some (m_channels (method id w) !! k)
             ↔ is_Some (m_channels w !! k)) →
  (∀ id, id ∈ ids → id > -1 → is_Some (m_channels w !! id)) →
  sweep_active method ids w =
  Swept tt (foldl (fun w id => if decide (id > -1) then method id w else w)
              w ids).
Proof.
  intros Hdom. revert w. induction ids as [|a ids IH]; intros w Hreg; [done|].
  cbn [sweep_active foldl]. destruct (decide (a > -1)) as [Ha|Ha].
  - destruct (Hreg a) as [c Hc]; [by left | done |]. rewrite Hc.
    apply IH. intros id Hid Hpos. apply Hdom, Hreg; [by right | done].
  - apply IH. intros id Hid Hpos. apply Hreg; [by right | done].
Qed.

(** A sweep raises [KeyError] when it meets an unregistered id above -1. *)
Lemma sweep_active_KeyError method ids w :
  (∀ id w k, is_Some (m_channels (method id w) !! k)
             ↔ is_Some (m_channels w !! k)) →
  (∃ id, id ∈ ids ∧ id > -1 ∧ m_channels w !! id = None) →
  ∃ id w', sweep_active method ids w = KeyError id w' ∧
           id ∈ ids ∧ id > -1 ∧ m_channels w !! id = None.
Proof.
  intros Hdom. revert w. induction ids as [|a ids IH]; intros w (id & Hin & Hpos & Hnone).
  { by apply elem_of_nil in Hin. }
  cbn [sweep_active]. destruct (decide (a > -1)) as [Ha|Ha].
  - destruct (m_channels w !! a) as [c|] eqn:Hc.
    + apply elem_of_cons in Hin as [->|Hin]; [congruence|].
      destruct (IH (method a w)) as (k & w' & Hs & Hk & Hkpos & Hknone).
      { exists id. split; [done|]. split; [done|].
        apply eq_None_not_Some. rewrite Hdom. by rewrite Hnone; intros []. }
      exists k, w'. split; [done|]. split; [by right|]. split; [done|].
      apply eq_None_not_Some. rewrite <- (Hdom a w k).
      by rewrite Hknone; intros [].
    + exists a, w. split; [done|]. split; [by left | done].
  - apply elem_of_cons in Hin as [->|Hin]; [done|].
    destruct (IH w) as (k & w' & Hs & Hk & Hkpos & Hknone); [by exists id|].
    exists k, w'. split; [done|]. split; [by right | done].
Qed.

Lemma Channel_stop_dom id w k :
  is_Some (m_channels (Channel_stop id w) !! k) ↔ is_Some (m_channels w !! k).
Proof.
  destruct (decide (id = k)) as [->|Hne]; [|by rewrite Channel_stop_lookup_ne].
  destruct (m_channels w !! k) as [c|] eqn:Hc.
  - rewrite (Channel_stop_lookup _ _ _ Hc). split; by eexists.
  - by rewrite Channel_stop_lookup_None.
Qed.

Lemma Channel_pause_dom id w k :
  is_Some (m_channels (Channel_pause id w) !! k) ↔ is_Some (m_channels w !! k).
Proof.
  rewrite Channel_pause_lookup'. case_decide; [|done]. by rewrite fmap_is_Some.
Qed.

Lemma Channel_unpause_dom id w k :
  is_Some (m_channels (Channel_unpause id w) !! k) ↔ is_Some (m_channels w !! k).
Proof.
  rewrite Channel_unpause_lookup'. case_decide; [|done]. by rewrite fmap_is_Some.
Qed.

Lemma get_busy_loop_false ids w :
  (∀ id, id ∈ ids → ¬ id > -1) → get_busy_loop ids w = Swept false w.
Proof.
  induction ids as [|a ids IH]; intros Hall; [done|].
  cbn [get_busy_loop]. rewrite decide_False by (apply Hall; by left).
  apply IH. intros id Hid. apply Hall. by right.
Qed.

Lemma get_busy_loop_true ids w :
  (∀ id, id ∈ ids → id > -1 → is_Some (m_channels w !! id)) →
  (∃ id, id ∈ ids ∧ id > -1) → get_busy_loop ids w = Swept true w.
Proof.
  induction ids as [|a ids IH]; intros Hreg (id & Hin & Hpos).
  { by apply elem_of_nil in Hin. }
  cbn [get_busy_loop]. destruct (decide (a > -1)) as [Ha|Ha].
  - destruct (Hreg a) as [c Hc]; [by left | done |]. rewrite Hc. reflexivity.
  - apply IH.
    + intros k Hk. apply Hreg. by right.
    + apply elem_of_cons in Hin as [->|Hin]; [done | eauto].
Qed.

Lemma occ_NoDup id d : NoDup d → (occ id d ≤ 1)%nat.
Proof.
  induction 1 as [|z d Hz Hd IH]; [vm_compute; lia|].
  rewrite occ_cons. case_decide as Heq; [|done].
  subst z. apply occ_zero in Hz. lia.
Qed.

Lemma foldl_pause_only ids w :
  only_channels_differ w
    (foldl (fun w id => if decide (id > -1) then Channel_pause id w else w) w ids).
Proof.
  revert w. induction ids as [|a ids IH]; intros w; cbn [foldl].
  - apply only_channels_differ_refl.
  - eapply only_channels_differ_trans; [|apply IH].
    case_decide; [apply Channel_pause_only | apply only_channels_differ_refl].
Qed.

Lemma foldl_unpause_only ids w :
  only_channels_differ w
    (foldl (fun w id => if decide (id > -1) then Channel_unpause id w else w) w ids).
Proof.
  revert w. induction ids as [|a ids IH]; intros w; cbn [foldl].
  - apply only_channels_differ_refl.
  - eapply only_channels_differ_trans; [|apply IH].
    case_decide; [apply Channel_unpause_only | apply only_channels_differ_refl].
Qed.

Lemma c_pause_method_idemp c : c_pause_method (c_pause_method c) = c_pause_method c.
Proof. unfold c_pause_method. by destruct (c_active c) eqn:Ha; simpl; rewrite ?Ha. Qed.

Lemma c_unpause_method_idemp c :
  c_unpause_method (c_unpause_method c) = c_unpause_method c.
Proof. unfold c_unpause_method. by destruct (c_pause c) eqn:Ha; simpl; rewrite ?Ha. Qed.

Lemma foldl_pause_lookup ids w k :
  m_channels (foldl (fun w id => if decide (id > -1) then Channel_pause id w else w)
                w ids) !! k =
  if decide (k ∈ ids ∧ k > -1) then c_pause_method <$> m_channels w !! k
  else m_channels w !! k.
Proof.
  revert w. induction ids as [|a ids IH]; intros w; cbn [foldl].
  - rewrite decide_False; [done|]. intros [H _]. by apply elem_of_nil in H.
  - rewrite IH. destruct (decide (a > -1)) as [Ha|Ha].
    + rewrite Channel_pause_lookup'.
      destruct (decide (a = k)) as [->|Hne].
      * rewrite (decide_True (P := k ∈ k :: ids ∧ _)) by (split; [by left|done]).
        case_decide; [|done].
        rewrite <- option_fmap_compose. apply option_fmap_ext.
        intros c. apply c_pause_method_idemp.
      * destruct (decide (k ∈ ids ∧ k > -1)) as [[Hin Hk]|Hn].
        { rewrite decide_True; [done | split; [by right | done]]. }
        rewrite decide_False; [done|]. intros [Hin Hk]. apply Hn.
        apply elem_of_cons in Hin as [?|?]; [congruence | done].
    + destruct (decide (k ∈ ids ∧ k > -1)) as [[Hin Hk]|Hn].
      { rewrite decide_True; [done | split; [by right | done]]. }
      rewrite decide_False; [done|]. intros [Hin Hk]. apply Hn.
      apply elem_of_cons in Hin as [->|?]; [lia | done].
Qed.

Lemma foldl_unpause_lookup ids w k :
  m_channels (foldl (fun w id => if decide (id > -1) then Channel_unpause id w else w)
                w ids) !! k =
  if decide (k ∈ ids ∧ k > -1) then c_unpause_method <$> m_channels w !! k
  else m_channels w !! k.
Proof.
  revert w. induction ids as [|a ids IH]; intros w; cbn [foldl].
  - rewrite decide_False; [done|]. intros [H _]. by apply elem_of_nil in H.
  - rewrite IH. destruct (decide (a > -1)) as [Ha|Ha].
    + rewrite Channel_unpause_lookup'.
      destruct (decide (a = k)) as [->|Hne].
      * rewrite (decide_True (P := k ∈ k :: ids ∧ _)) by (split; [by left|done]).
        case_decide; [|done].
        rewrite <- option_fmap_compose. apply option_fmap_ext.
        intros c. apply c_unpause_method_idemp.
      * destruct (decide (k ∈ ids ∧ k > -1)) as [[Hin Hk]|Hn].
        { rewrite decide_True; [done | split; [by right | done]]. }
        rewrite decide_False; [done|]. intros [Hin Hk]. apply Hn.
        apply elem_of_cons in Hin as [?|?]; [congruence | done].
    + destruct (decide (k ∈ ids ∧ k > -1)) as [[Hin Hk]|Hn].
      { rewrite decide_True; [done | split; [by right | done]]. }
      rewrite decide_False; [done|]. intros [Hin Hk]. apply Hn.
      apply elem_of_cons in Hin as [->|?]; [lia | done].
Qed.

(** X2.  When every channel of the active pool is playing, [Mixer.pause]
    returns and [Mixer.unpause] brings back exactly the state before the
    pause.  In between no pooled channel is busy ([Channel.get_busy]), but
    the paused channels stay in the active pool, so [Mixer.get_busy],
    which tests the flag object and not its value, still answers true
    when the pool holds an id above -1, and false only when it holds
    none.  The music channel (-1) is not paused. *)
Theorem Mixer_pause_unpause (w : Mixer) :
  active_all_playing w →
  ∃ w1, Mixer_pause w = Swept tt w1 ∧
        (∀ id, id ∈ m_channel_active w → id > -1 →
               Channel_get_busy id w1 = false) ∧
        ((∃ id, id ∈ m_channel_active w ∧ id > -1) →
         Mixer_get_busy w1 = Swept true w1) ∧
        ((∀ id, id ∈ m_channel_active w → ¬ id > -1) →
         Mixer_get_busy w1 = Swept false w1) ∧
        m_channel_active w1 = m_channel_active w ∧
        m_channels w1 !! (-1) = m_channels w !! (-1) ∧
        Mixer_unpause w1 = Swept tt w.
Proof.
  intros Hplay.
  assert (Hreg : ∀ id, id ∈ m_channel_active w → id > -1 →
                       is_Some (m_channels w !! id)).
  { intros id Hin Hpos. destruct (Hplay id Hin Hpos) as (c & Hc & _). by eexists. }
  unfold Mixer_pause, Mixer_unpause, Mixer_get_busy.
  rewrite (sweep_active_Swept _ _ _ Channel_pause_dom Hreg).
  set (w1 := foldl _ w (m_channel_active w)).
  pose proof (foldl_pause_only (m_channel_active w) w) as Honly. fold w1 in Honly.
  assert (Hact : m_channel_active w1 = m_channel_active w) by apply Honly.
  exists w1. split; [done|]. rewrite Hact.
  split; [|split; [|split; [|split; [done|split]]]].
  - intros id Hin Hpos.
    destruct (Hplay id Hin Hpos) as (c & Hc & Ha & Hp).
    unfold Channel_get_busy, w1.
    rewrite foldl_pause_lookup, decide_True, Hc by done.
    simpl. unfold c_pause_method. by rewrite Ha.
  - apply get_busy_loop_true. intros id Hin Hpos. unfold w1.
    rewrite foldl_pause_lookup, decide_True, fmap_is_Some by done. auto.
  - apply get_busy_loop_false.
  - unfold w1. rewrite foldl_pause_lookup, decide_False; [done|]. lia.
  - rewrite sweep_active_Swept; [|apply Channel_unpause_dom|].
    2:{ intros id Hin Hpos. unfold w1.
        rewrite foldl_pause_lookup, decide_True, fmap_is_Some by done. auto. }
    f_equal. apply only_channels_differ_eq.
    + eapply only_channels_differ_trans; [|apply foldl_unpause_only].
      destruct Honly as (?&?&?&?&?&?&?&?&?&?&?). repeat split; congruence.
    + intros k. rewrite foldl_unpause_lookup. unfold w1.
      rewrite foldl_pause_lookup.
      destruct (decide (k ∈ m_channel_active w ∧ k > -1)) as [[Hin Hpos]|Hn]; [|done].
      destruct (Hplay k Hin Hpos) as (c & Hc & Ha & Hp). rewrite Hc. simpl.
      f_equal. unfold c_pause_method, c_unpause_method. rewrite Ha. simpl.
      by apply c_unpause_pause.
Qed.

Lemma active_all_playing_two : active_all_playing mixer_two_playing.
Proof.
  intros id Hin Hpos.
  change (m_channel_active mixer_two_playing) with [0; 1; -1] in Hin.
  rewrite !elem_of_cons, elem_of_nil in Hin.
  destruct Hin as [->|[->|[->|[]]]]; [| |lia];
    (eexists; split; [vm_compute; reflexivity | split; reflexivity]).
Qed.

Lemma Mixer_pause_unpause_witness :
  ∃ w1, Mixer_pause mixer_two_playing = Swept tt w1 ∧
        Channel_get_busy 0 w1 = false ∧ Channel_get_busy 1 w1 = false ∧
        Mixer_get_busy w1 = Swept true w1 ∧
        Mixer_unpause w1 = Swept tt mixer_two_playing.
Proof.
  destruct (Mixer_pause_unpause mixer_two_playing active_all_playing_two)
    as (w1 & Hp & Hb & Ht & _ & _ & _ & Hu).
  exists w1. split; [done|].
  split; [apply Hb; [vm_compute; by left | lia]|].
  split; [apply Hb; [vm_compute; right; by left | lia]|].
  split; [|done]. apply Ht. exists 0. split; [vm_compute; by left | lia].
Defined.

Lemma foldl_stop_spec ids w :
  let w1 := foldl (fun w id => if decide (id > -1) then Channel_stop id w else w)
              w ids in
  (∀ k, Channel_get_busy k w1 =
        if decide (k ∈ ids ∧ k > -1) then false else Channel_get_busy k w) ∧
  (∀ k, ¬ (k ∈ ids ∧ k > -1) → m_channels w1 !! k = m_channels w !! k) ∧
  (∀ k, k ∈ m_channel_active w1 → k ∈ m_channel_active w) ∧
  (∀ k, occ k (m_channel_active w1) =
        if decide (k ∈ ids ∧ k > -1 ∧ Channel_get_busy k w = true)
        then Nat.pred (occ k (m_channel_active w))
        else occ k (m_channel_active w)).
Proof.
  revert w. induction ids as [|a ids IH]; intros w; cbn [foldl].
  - split; [|split; [|split]].
    + intros k. rewrite decide_False; [done|]. intros [H _]. by apply elem_of_nil in H.
    + done.
    + done.
    + intros k. rewrite decide_False; [done|]. intros [H _]. by apply elem_of_nil in H.
  - destruct (IH (if decide (a > -1) then Channel_stop a w else w))
      as (IHb & IHc & IHa & IHo).
    destruct (decide (a > -1)) as [Ha|Ha].
    + split; [|split; [|split]].
      * intros k. rewrite IHb. destruct (decide (a = k)) as [->|Hne].
        { rewrite (decide_True (P := k ∈ k :: ids ∧ _)) by (split; [by left|done]).
          case_decide; [done | apply Channel_stop_busy]. }
        rewrite Channel_stop_busy_ne by done.
        destruct (decide (k ∈ ids ∧ k > -1)) as [[Hin Hk]|Hn].
        { rewrite decide_True; [done | split; [by right | done]]. }
        rewrite decide_False; [done|]. intros [Hin Hk]. apply Hn.
        apply elem_of_cons in Hin as [?|?]; [congruence | done].
      * intros k Hk. rewrite IHc.
        { apply Channel_stop_lookup_ne. intros ->. apply Hk. split; [by left|done]. }
        intros [Hin Hpos]. apply Hk. split; [by right | done].
      * intros k Hk%IHa. rewrite Channel_stop_active_pool in Hk.
        destruct (Channel_get_busy a w); [|done].
        by apply elem_of_deque_remove_1 in Hk.
      * intros k. rewrite IHo, Channel_stop_active_pool.
        destruct (decide (a = k)) as [->|Hne].
        { rewrite Channel_stop_busy.
          rewrite (decide_False (P := k ∈ ids ∧ _)) by (by intros (_ & _ & ?)).
          destruct (Channel_get_busy k w) eqn:Hb.
          - rewrite occ_deque_remove, !decide_True; [done | | done].
            split; [by left | done].
          - rewrite decide_False; [done | by intros (_ & _ & ?)]. }
        rewrite Channel_stop_busy_ne by done.
        assert (Hocc : occ k (if Channel_get_busy a w
                              then deque_remove a (m_channel_active w)
                              else m_channel_active w)
                       = occ k (m_channel_active w)).
        { destruct (Channel_get_busy a w); [|done].
          by rewrite occ_deque_remove, decide_False. }
        rewrite Hocc.
        destruct (decide (k ∈ ids ∧ k > -1 ∧ Channel_get_busy k w = true))
          as [(Hin & Hk & Hb)|Hn].
        { rewrite decide_True; [done | split; [by right | done]]. }
        rewrite decide_False; [done|]. intros (Hin & Hk & Hb). apply Hn.
        split; [|done]. apply elem_of_cons in Hin as [?|?]; [congruence | done].
    + split; [|split; [|split]].
      * intros k. rewrite IHb.
        destruct (decide (k ∈ ids ∧ k > -1)) as [[Hin Hk]|Hn].
        { rewrite decide_True; [done | split; [by right | done]]. }
        rewrite decide_False; [done|]. intros [Hin Hk]. apply Hn.
        apply elem_of_cons in Hin as [->|?]; [lia | done].
      * intros k Hk. apply IHc. intros [Hin Hpos]. apply Hk. split; [by right|done].
      * done.
      * intros k. rewrite IHo.
        destruct (decide (k ∈ ids ∧ k > -1 ∧ Channel_get_busy k w = true))
          as [(Hin & Hk & Hb)|Hn].
        { rewrite decide_True; [done | split; [by right | done]]. }
        rewrite decide_False; [done|]. intros (Hin & Hk & Hb). apply Hn.
        split; [|done]. apply elem_of_cons in Hin as [->|?]; [lia | done].
Qed.

(** X3.  When every id above -1 in the active pool is registered,
    [Mixer.stop] returns; afterwards none of those channels is active,
    each channel that was active has left the active pool (one occurrence
    of its id; nothing else in the pool moves), and the music channel (-1)
    is untouched.  [Mixer.get_busy] then answers by what is left in the
    pool: true when an id above -1 remains (a paused channel, which [stop]
    skips, or a second occurrence of an id), false when none does, as when
    every pooled channel was playing and no id was in the pool twice. *)
Theorem Mixer_stop_spec (w : Mixer) :
  active_registered w →
  ∃ w1, Mixer_stop w = Swept tt w1 ∧
        (∀ id, id ∈ m_channel_active w → id > -1 →
               Channel_get_busy id w1 = false) ∧
        ((∃ id, id ∈ m_channel_active w1 ∧ id > -1) →
         Mixer_get_busy w1 = Swept true w1) ∧
        ((∀ id, id ∈ m_channel_active w1 → ¬ id > -1) →
         Mixer_get_busy w1 = Swept false w1) ∧
        (active_all_playing w → NoDup (m_channel_active w) →
         Mixer_get_busy w1 = Swept false w1) ∧
        (∀ id c, id ∈ m_channel_active w → id > -1 →
                 m_channels w !! id = Some c → c_active c = false →
                 Mixer_get_busy w1 = Swept true w1) ∧
        (∀ id, occ id (m_channel_active w1) =
               if decide (id ∈ m_channel_active w ∧ id > -1
                          ∧ Channel_get_busy id w = true)
               then Nat.pred (occ id (m_channel_active w))
               else occ id (m_channel_active w)) ∧
        m_channels w1 !! (-1) = m_channels w !! (-1).
Proof.
  intros Hreg. unfold Mixer_stop, Mixer_get_busy.
  rewrite (sweep_active_Swept _ _ _ Channel_stop_dom Hreg).
  destruct (foldl_stop_spec (m_channel_active w) w) as (Hb & Hc & Ha & Ho).
  cbv zeta in *. set (w1 := foldl _ w (m_channel_active w)) in *.
  assert (Hreg1 : ∀ id, id ∈ m_channel_active w1 → id > -1 →
                        is_Some (m_channels w1 !! id)).
  { intros id Hin Hpos. pose proof (Ha id Hin) as Hin0.
    unfold w1. clear -Hreg Hin0 Hpos.
    assert (Hd : ∀ ids w0, is_Some (m_channels w0 !! id) →
              is_Some (m_channels
                (foldl (fun w i => if decide (i > -1) then Channel_stop i w else w)
                   w0 ids) !! id)).
    { induction ids as [|a ids IH]; intros w0 H0; cbn [foldl]; [done|].
      apply IH. case_decide; [by apply Channel_stop_dom | done]. }
    by apply Hd, Hreg. }
  exists w1. split; [done|].
  split; [|split; [|split; [|split; [|split; [|split; [done|]]]]]].
  - intros id Hin Hpos. rewrite Hb, decide_True; done.
  - by apply get_busy_loop_true.
  - apply get_busy_loop_false.
  - intros Hplay Hnd. apply get_busy_loop_false. intros id Hin Hpos.
    pose proof (Ha id Hin) as Hin0.
    destruct (Hplay id Hin0 Hpos) as (c & Hc0 & Hact & _).
    apply occ_zero in Hin; [done|]. rewrite Ho, decide_True.
    + pose proof (occ_NoDup id _ Hnd). lia.
    + split; [done|]. split; [done|]. unfold Channel_get_busy. by rewrite Hc0.
  - intros id c Hin Hpos Hc0 Hact. apply get_busy_loop_true; [done|].
    exists id. split; [|done].
    destruct (decide (id ∈ m_channel_active w1)) as [|Hnin]; [done|exfalso].
    apply occ_zero in Hnin. rewrite Ho, decide_False in Hnin.
    + by apply occ_zero in Hnin.
    + intros (_ & _ & Hbusy). unfold Channel_get_busy in Hbusy.
      rewrite Hc0 in Hbusy. simpl in Hbusy. congruence.
  - apply Hc. lia.
Qed.

Lemma Mixer_stop_spec_witness :
  ∃ w1, Mixer_stop mixer_two_playing = Swept tt w1 ∧
        Mixer_get_busy w1 = Swept false w1 ∧
        m_channels w1 !! (-1) = m_channels mixer_two_playing !! (-1).
Proof.
  destruct (Mixer_stop_spec mixer_two_playing)
    as (w1 & Hs & _ & _ & _ & Hb & _ & _ & Hm).
  - intros id Hin Hpos.
    destruct (active_all_playing_two id Hin Hpos) as (c & Hc & _). by eexists.
  - exists w1. split; [done|]. split; [|done].
    apply Hb; [apply active_all_playing_two|].
    change (m_channel_active mixer_two_playing) with [0; 1; -1].
    by apply (bool_decide_unpack (NoDup [0; 1; -1])).
Defined.

(** X4.  An id above -1 that is in the active pool without a registry
    entry makes [Mixer.stop], [Mixer.pause] and [Mixer.unpause] raise
    [KeyError] on an unregistered id, and makes [Mixer.get_busy] either
    raise it or return true for a channel met before. *)
Theorem Mixer_sweeps_KeyError (w : Mixer) (id : Z) :
  id ∈ m_channel_active w → id > -1 → m_channels w !! id = None →
  (∃ k w', Mixer_stop w = KeyError k w' ∧ m_channels w !! k = None) ∧
  (∃ k w', Mixer_pause w = KeyError k w' ∧ m_channels w !! k = None) ∧
  (∃ k w', Mixer_unpause w = KeyError k w' ∧ m_channels w !! k = None) ∧
  ((∃ k, Mixer_get_busy w = KeyError k w ∧ m_channels w !! k = None)
   ∨ Mixer_get_busy w = Swept true w).
Proof.
  intros Hin Hpos Hnone.
  assert (Hex : ∃ id, id ∈ m_channel_active w ∧ id > -1
                      ∧ m_channels w !! id = None) by eauto.
  split; [|split; [|split]].
  - destruct (sweep_active_KeyError _ _ _ Channel_stop_dom Hex)
      as (k & w' & Hs & _ & _ & Hk). eauto.
  - destruct (sweep_active_KeyError _ _ _ Channel_pause_dom Hex)
      as (k & w' & Hs & _ & _ & Hk). eauto.
  - destruct (sweep_active_KeyError _ _ _ Channel_unpause_dom Hex)
      as (k & w' & Hs & _ & _ & Hk). eauto.
  - unfold Mixer_get_busy. clear Hin Hpos Hnone.
    induction (m_channel_active w) as [|a ids IH].
    { destruct Hex as (k & Hk & _). by apply elem_of_nil in Hk. }
    cbn [get_busy_loop]. destruct Hex as (k & Hk & Hkpos & Hknone).
    destruct (decide (a > -1)) as [Ha|Ha].
    + destruct (m_channels w !! a) as [c|] eqn:Hc; [by right | left; eauto].
    + apply IH. apply elem_of_cons in Hk as [->|Hk]; [done | eauto].
Qed.

Lemma Mixer_sweeps_KeyError_witness :
  ∃ k w', Mixer_stop mixer_orphan_active = KeyError k w' ∧
          m_channels mixer_orphan_active !! k = None.
Proof.
  apply (proj1 (Mixer_sweeps_KeyError mixer_orphan_active 7
                  ltac:(vm_compute; by left) ltac:(lia) eq_refl)).
Defined.

(** ** Shrinking the capacity under a paused channel *)

(** C5, where the code falls short.  [set_num_channels(n)] with [n >= 0]
    sets the capacity and takes every channel from [n] up out of the
    registry, calling [stop] on each first; but [stop] returns at once on
    a channel whose active flag is off, and [pause] turns that flag off.
    So a paused channel with an id from [n] up is not stopped: it is
    unregistered while its id stays in the active pool, as often as it was
    there, and [Mixer.stop] then raises [KeyError] on an id without a
    registry entry. *)
Theorem set_num_channels_orphans_paused (n : Z) (w : Mixer) (id : Z) (c : Channel) :
  0 ≤ n → n ≤ id < m_channel_max w →
  m_channels w !! id = Some c → c_active c = false →
  id ∈ m_channel_active w →
  let w' := set_num_channels n w in
  get_num_channels w' = n ∧
  m_channels w' !! id = None ∧
  occ id (m_channel_active w') = occ id (m_channel_active w) ∧
  id ∈ m_channel_active w' ∧
  ∃ k w'', Mixer_stop w' = KeyError k w'' ∧ m_channels w' !! k = None.
Proof.
  intros Hn Hid Hc Hact Hin. simpl.
  assert (Hocc : occ id (m_channel_active (set_num_channels n w))
                 = occ id (m_channel_active w)).
  { unfold set_num_channels. rewrite decide_False, decide_True by lia. simpl.
    rewrite foldl_shrink_step_active by apply NoDup_seqZ.
    rewrite decide_False; [done|]. intros [_ Hb].
    unfold Channel_get_busy in Hb. rewrite Hc in Hb. simpl in Hb. congruence. }
  assert (Hnone : m_channels (set_num_channels n w) !! id = None).
  { unfold set_num_channels. rewrite decide_False, decide_True by lia. simpl.
    rewrite foldl_shrink_step_lookup, decide_True; [done|].
    apply elem_of_seqZ. lia. }
  assert (Hin' : id ∈ m_channel_active (set_num_channels n w)).
  { destruct (decide (id ∈ m_channel_active (set_num_channels n w)))
      as [|Hnin]; [done|exfalso].
    apply occ_zero in Hnin. rewrite Hocc in Hnin. by apply occ_zero in Hnin. }
  split.
  { unfold set_num_channels, get_num_channels.
    by rewrite decide_False, decide_True by lia. }
  split; [done|]. split; [done|]. split; [done|].
  destruct (sweep_active_KeyError Channel_stop
              (m_channel_active (set_num_channels n w)) (set_num_channels n w)
              Channel_stop_dom)
    as (k & w'' & Hs & _ & _ & Hk).
  { exists id. split; [done|]. split; [lia | done]. }
  by exists k, w''.
Qed.

Lemma set_num_channels_orphans_paused_witness :
  m_channels (set_num_channels 7 mixer_paused_top) !! 7 = None ∧
  7 ∈ m_channel_active (set_num_channels 7 mixer_paused_top) ∧
  ∃ k w'', Mixer_stop (set_num_channels 7 mixer_paused_top) = KeyError k w''.
Proof.
  destruct (set_num_channels_orphans_paused 7 mixer_paused_top 7
              (c_pause_method
                 (c_set_active true (c_set_loops 0 (c__set_sound beep Channel_new)))))
    as (_ & Hnone & _ & Hin & k & w'' & Hs & _).
  - lia.
  - by vm_compute.
  - reflexivity.
  - reflexivity.
  - vm_compute. by left.
  - split; [done|]. split; [done|]. by exists k, w''.
Defined.

(** ** Stopping a sound *)

Lemma sound_on_stop_ne id k w :
  id ≠ k → sound_on (Channel_stop id w) k = sound_on w k.
Proof. intros. unfold sound_on. by rewrite Channel_stop_lookup_ne. Qed.

Lemma sound_on_stop_busy id w :
  Channel_get_busy id w = true → sound_on (Channel_stop id w) id = None.
Proof.
  unfold Channel_get_busy, sound_on.
  destruct (m_channels w !! id) as [c|] eqn:Hc; [|done]. simpl. intros Ha.
  by rewrite (Channel_stop_lookup _ _ _ Hc), Ha.
Qed.

Lemma sound_on_stop_Some id k w sid :
  sound_on (Channel_stop id w) k = Some sid → sound_on w k = Some sid.
Proof.
  destruct (decide (id = k)) as [->|Hne]; [|by rewrite sound_on_stop_ne].
  unfold sound_on. destruct (m_channels w !! k) as [c|] eqn:Hc.
  - rewrite (Channel_stop_lookup _ _ _ Hc). by destruct (c_active c).
  - by rewrite Channel_stop_lookup_None.
Qed.

Lemma Sound_stop_loop_spec s ids w :
  (∀ id, id ∈ ids → id > -1 → is_Some (m_channels w !! id)) →
  ∃ w1, Sound_stop_loop s ids w = Swept tt w1 ∧
    (∀ k, is_Some (m_channels w1 !! k) ↔ is_Some (m_channels w !! k)) ∧
    (∀ k, sound_on w k ≠ Some (s_id s) →
          m_channels w1 !! k = m_channels w !! k) ∧
    (∀ k, k ∈ ids → k > -1 → sound_on w k = Some (s_id s) →
          Channel_get_busy k w = true → sound_on w1 k = None) ∧
    (∀ k, sound_on w1 k = Some (s_id s) → sound_on w k = Some (s_id s)) ∧
    (∀ k, k ∈ m_channel_active w1 → k ∈ m_channel_active w).
Proof.
  revert w. induction ids as [|a ids IH]; intros w Hreg.
  { exists w. do 3 (split; [done|]). split; [|done].
    intros k Hk. by apply elem_of_nil in Hk. }
  assert (Hreg' : ∀ id, id ∈ ids → id > -1 → is_Some (m_channels w !! id)).
  { intros id Hin. apply Hreg. by right. }
  cbn [Sound_stop_loop]. destruct (decide (a > -1)) as [Ha|Ha].
  2:{ destruct (IH w Hreg') as (w1 & Hs & Hd & Hc & Hst & Hno & Hact).
      exists w1. do 3 (split; [done|]). split; [|done].
      intros k Hk Hpos. apply elem_of_cons in Hk as [->|Hk]; [lia | by apply Hst]. }
  destruct (Hreg a) as [c Hc0]; [by left | done |]. rewrite Hc0.
  assert (Hcases : (∃ s', c_sound c = Some s' ∧ s_id s' = s_id s)
                   ∨ sound_on w a ≠ Some (s_id s)).
  { unfold sound_on. rewrite Hc0.
    destruct (c_sound c) as [s'|]; [|by right].
    destruct (decide (s_id s' = s_id s)); [left; eauto | right; simpl; congruence]. }
  destruct Hcases as [(s' & Hs' & Heq)|Hnot].
  - rewrite Hs', decide_True by done.
    destruct (IH (Channel_stop a w)) as (w1 & Hs & Hd & Hc & Hst & Hno & Hact).
    { intros id Hin Hpos. by apply Channel_stop_dom, Hreg'. }
    assert (Hhold : sound_on w a = Some (s_id s)).
    { unfold sound_on. rewrite Hc0, Hs'. simpl. congruence. }
    exists w1. split; [done|]. split; [|split; [|split; [|split]]].
    + intros k. by rewrite Hd, Channel_stop_dom.
    + intros k Hk. assert (a ≠ k) by congruence.
      rewrite Hc; [by apply Channel_stop_lookup_ne|].
      by rewrite sound_on_stop_ne.
    + intros k Hk Hpos Hon Hbusy.
      destruct (decide (a = k)) as [->|Hne].
      * pose proof (sound_on_stop_busy k w Hbusy) as Hnone.
        unfold sound_on in *. rewrite Hc; [done|].
        unfold sound_on. by rewrite Hnone.
      * apply Hst; [|done| |].
        { apply elem_of_cons in Hk as [?|?]; [congruence | done]. }
        { by rewrite sound_on_stop_ne. }
        { by rewrite Channel_stop_busy_ne. }
    + intros k Hk%Hno. by apply sound_on_stop_Some in Hk.
    + intros k Hk%Hact. rewrite Channel_stop_active_pool in Hk.
      destruct (Channel_get_busy a w); [|done].
      by apply elem_of_deque_remove_1 in Hk.
  - assert (Hskip :
      match c_sound c with
      | Some s' =>
          if decide (s_id s' = s_id s)
          then Sound_stop_loop s ids (Channel_stop a w)
          else Sound_stop_loop s ids w
      | None => Sound_stop_loop s ids w
      end = Sound_stop_loop s ids w).
    { unfold sound_on in Hnot. rewrite Hc0 in Hnot.
      destruct (c_sound c) as [s'|]; [|done]. simpl in Hnot.
      rewrite decide_False; [done | congruence]. }
    rewrite Hskip.
    destruct (IH w Hreg') as (w1 & Hs & Hd & Hc & Hst & Hno & Hact).
    exists w1. do 3 (split; [done|]). split; [|done].
    intros k Hk Hpos Hon. apply elem_of_cons in Hk as [->|Hk]; [done | by apply Hst].
Qed.

Lemma Sound_get_num_channels_loop_none s ids n w :
  (∀ k, k ∈ ids → k > -1 →
        is_Some (m_channels w !! k) ∧ sound_on w k ≠ Some (s_id s)) →
  Sound_get_num_channels_loop s ids n w = Swept n w.
Proof.
  induction ids as [|a ids IH]; intros Hall; [done|].
  cbn [Sound_get_num_channels_loop].
  assert (Hrest : Sound_get_num_channels_loop s ids n w = Swept n w).
  { apply IH. intros k Hk. apply Hall. by right. }
  destruct (decide (a > -1)) as [Ha|Ha]; [|done].
  destruct (Hall a) as [[c Hc] Hnot]; [by left | done |].
  rewrite Hc. unfold sound_on in Hnot. rewrite Hc in Hnot.
  destruct (c_sound c) as [s'|]; [|done]. simpl in Hnot.
  rewrite decide_False; [done | congruence].
Qed.

(** X5.  When every id above -1 in the active pool is registered and the
    channels of the pool that hold the sound are active (none of them is
    paused), [Sound.stop] returns, afterwards [get_num_channels] of that
    sound is 0, and every channel holding another sound, or none, is as it
    was. *)
Theorem Sound_stop_spec (s : Sound) (w : Mixer) :
  active_registered w →
  (∀ id, id ∈ m_channel_active w → id > -1 →
         sound_on w id = Some (s_id s) → Channel_get_busy id w = true) →
  ∃ w1, Sound_stop s w = Swept tt w1 ∧
        Sound_get_num_channels s w1 = Swept 0 w1 ∧
        (∀ k, sound_on w k ≠ Some (s_id s) →
              m_channels w1 !! k = m_channels w !! k).
Proof.
  intros Hreg Hbusy. unfold Sound_stop, Sound_get_num_channels.
  destruct (Sound_stop_loop_spec s (m_channel_active w) w Hreg)
    as (w1 & Hs & Hd & Hc & Hst & Hno & Hact).
  exists w1. split; [done|]. split; [|done].
  apply Sound_get_num_channels_loop_none. intros k Hk Hpos.
  apply Hact in Hk. split; [by apply Hd, Hreg|].
  intros Hon. pose proof (Hno _ Hon) as Hon0.
  rewrite (Hst k Hk Hpos Hon0 (Hbusy k Hk Hpos Hon0)) in Hon. done.
Qed.

Lemma Sound_stop_spec_witness :
  ∃ w1, Sound_stop beep mixer_two_playing = Swept tt w1 ∧
        Sound_get_num_channels beep w1 = Swept 0 w1 ∧
        m_channels w1 !! 1 = m_channels mixer_two_playing !! 1.
Proof.
  destruct (Sound_stop_spec beep mixer_two_playing) as (w1 & Hs & Hn & Hk).
  - intros id Hin Hpos.
    destruct (active_all_playing_two id Hin Hpos) as (c & Hc & _). by eexists.
  - intros id Hin Hpos _.
    destruct (active_all_playing_two id Hin Hpos) as (c & Hc & Ha & _).
    unfold Channel_get_busy. by rewrite Hc.
  - exists w1. split; [exact Hs|]. split; [exact Hn|]. apply Hk. by vm_compute.
Defined.

(** ** Volumes stay in range *)

Lemma volume_in_range_1 : volume_in_range 1.
Proof. by split. Qed.

Lemma volume_in_range_clamp v : volume_in_range (clamp_volume v).
Proof. apply clamp_volume_range. Qed.

Lemma volume_in_range_mult a b :
  volume_in_range a → volume_in_range b → volume_in_range (a * b).
Proof.
  intros [Ha0 Ha1] [Hb0 Hb1]. split.
  - by apply Qmult_le_0_compat.
  - apply (Qle_trans _ (1 * b)%Q).
    + by apply Qmult_le_compat_r.
    + by rewrite Qmult_1_l.
Qed.

Lemma volumes_in_range_same w w' :
  m_channels w' = m_channels w → volumes_in_range w → volumes_in_range w'.
Proof. unfold volumes_in_range. by intros ->. Qed.

Lemma volumes_in_range_upd id f w :
  (∀ c, c_volumes_in_range c → c_volumes_in_range (f c)) →
  volumes_in_range w → volumes_in_range (upd_channel id f w).
Proof.
  intros Hf Hw k c'. rewrite upd_channel_lookup.
  destruct (decide (id = k)) as [->|Hne]; [|apply Hw].
  destruct (m_channels w !! k) as [c|] eqn:Hc; [|done].
  intros [= <-]. apply Hf. by apply (Hw k).
Qed.

Lemma c_reset_volumes c : c_volumes_in_range (c_reset c).
Proof. split; [|split]; apply volume_in_range_1. Qed.

Lemma c_set_volume_volumes v v2 c :
  c_volumes_in_range c → c_volumes_in_range (c_set_volume v v2 c).
Proof.
  intros (Hv & Hl & Hr). unfold c_set_volume.
  destruct (truthy v2); (split; [|split]); simpl;
    try apply volume_in_range_clamp; apply Hv.
Qed.

Ltac keeps_volumes :=
  repeat first
    [ assumption
    | apply volumes_in_range_upd; [by intros ?c ?H|]
    | apply volumes_in_range_upd; [intros; apply c_reset_volumes|]
    | apply volumes_in_range_upd; [intros; by apply c_set_volume_volumes|] ].

Lemma volumes_in_range_activate id w :
  volumes_in_range w → volumes_in_range (_activate_channel id w).
Proof. apply volumes_in_range_same. by pool_cases. Qed.

Lemma volumes_in_range_deactivate id w :
  volumes_in_range w → volumes_in_range (_deactivate_channel id w).
Proof. apply volumes_in_range_same. by pool_cases. Qed.

Lemma volumes_in_range_restore id w :
  volumes_in_range w → volumes_in_range (_restore_channel id w).
Proof. apply volumes_in_range_same. by pool_cases. Qed.

Lemma volumes_in_range_stop id w :
  volumes_in_range w → volumes_in_range (Channel_stop id w).
Proof.
  intros Hw. unfold Channel_stop. destruct (m_channels w !! id); [|done].
  destruct (c_active _); simpl; [|done].
  apply volumes_in_range_restore.
  apply volumes_in_range_upd; [intros; apply c_reset_volumes|].
  apply volumes_in_range_deactivate. by keeps_volumes.
Qed.

Lemma volumes_in_range_get_channel id w :
  volumes_in_range w → volumes_in_range (state_of (_get_channel id w)).
Proof.
  intros Hw. unfold _get_channel, Channel_init, _register_channel.
  destruct (m_channels w !! id); [done|].
  destruct (m_bufferSize w); [|done]. case_decide; [|done].
  simpl. intros k c. simpl. destruct (decide (id = k)) as [->|Hne].
  - rewrite lookup_insert_eq. intros [= <-].
    split; [|split]; apply volume_in_range_1.
  - rewrite lookup_insert_ne by done. apply Hw.
Qed.

Lemma volumes_in_range_Channel_init id w :
  volumes_in_range w → volumes_in_range (state_of (Channel_init id w)).
Proof.
  intros Hw. unfold Channel_init, _register_channel.
  destruct (m_bufferSize w); [|done]. case_decide; [|done].
  simpl. intros k c. simpl. destruct (decide (id = k)) as [->|Hne].
  - rewrite lookup_insert_eq. intros [= <-].
    split; [|split]; apply volume_in_range_1.
  - rewrite lookup_insert_ne by done. apply Hw.
Qed.

Lemma volumes_in_range_find_channel force w :
  volumes_in_range w → volumes_in_range (state_of (find_channel force w)).
Proof.
  intros Hw. unfold find_channel.
  destruct (deque_pop (m_channel_available w)) as [[a rest]|].
  { rewrite state_of_returning_channel. by apply volumes_in_range_get_channel. }
  destruct (if decide (m_channel_reserved_num w = 0) then None
            else deque_pop (m_channel_reserved w)) as [[b rest]|].
  { rewrite state_of_returning_channel. by apply volumes_in_range_get_channel. }
  destruct force; simpl; [|done].
  destruct (scan_active _ _ _) as [l lr].
  rewrite state_of_returning_channel. by apply volumes_in_range_get_channel.
Qed.

Lemma volumes_in_range_Sound_play s loops w :
  volumes_in_range w → volumes_in_range (state_of (Sound_play s loops w)).
Proof.
  intros Hw. unfold Sound_play, _retrieve_channel.
  destruct (deque_pop (m_channel_available w)) as [[a rest]|]; [|done].
  pose proof (volumes_in_range_get_channel a (set_available (fun _ => rest) w) Hw) as H.
  destruct (_get_channel a _) as [ch w'|e w']; simpl in *; [|done].
  unfold Channel__play. by keeps_volumes.
Qed.

Lemma volumes_in_range_Channel_play id s loops w :
  volumes_in_range w → volumes_in_range (Channel_play id s loops w).
Proof.
  intros Hw. unfold Channel_play. destruct (m_channels w !! id) as [c|]; [|done].
  apply volumes_in_range_activate.
  apply volumes_in_range_upd; [by intros ?c ?H|].
  destruct (c_sound c); [|done].
  unfold Channel_set_volume.
  apply volumes_in_range_upd; [intros; by apply c_set_volume_volumes|].
  by apply volumes_in_range_stop.
Qed.

Lemma volumes_in_range_Channel__get id w :
  volumes_in_range w → volumes_in_range (state_of (Channel__get id w)).
Proof.
  intros Hw. unfold Channel__get. destruct (m_channels w !! id) as [c|]; [|done].
  destruct (c_stream c) as [st|]; [|done].
  destruct (stream_read st) as [r st'].
  assert (H1 : volumes_in_range
                 (upd_channel id
                    (fun c => c_set_data_len (default 0 r)
                                (c_set_stream (Some st') c)) w))
    by (by keeps_volumes).
  case_decide.
  { by destruct (c_sound c). }
  case_decide; simpl.
  { by apply volumes_in_range_stop. }
  destruct (c_sound c); simpl; [|done].
  by apply volumes_in_range_upd; [by intros ?c ?H|].
Qed.

Lemma volumes_in_range_shrink ids w :
  volumes_in_range w → volumes_in_range (foldl shrink_step w ids).
Proof.
  intros Hw k c. rewrite foldl_shrink_step_lookup. case_decide; [done | apply Hw].
Qed.

Lemma volumes_in_range_init f sz ch b backend w :
  volumes_in_range w → volumes_in_range (state_of (init f sz ch b backend w)).
Proof.
  intros Hw. unfold init. destruct (m_initialized w); [done|].
  destruct (backend _ _) as [|isInit n]; simpl; [done|].
  destruct isInit; simpl; [|done].
  match goal with
  | |- context [Channel_init (-1) ?W] =>
      pose proof (volumes_in_range_Channel_init (-1) W Hw) as H;
      destruct (Channel_init (-1) W) as [x w4|e w4]; simpl in *; exact H
  end.
Qed.

Lemma volumes_in_range_exec c w :
  volumes_in_range w → volumes_in_range (exec c w).
Proof.
  intros Hw. destruct c; simpl.
  - by apply volumes_in_range_init.
  - done.
  - unfold set_num_channels. case_decide.
    + eapply volumes_in_range_same; [|exact Hw]. simpl.
      by destruct (foldl_grow_available
                     (seqZ (m_channel_max w) (count - m_channel_max w)) w)
        as (_ & _ & _ & ->).
    + case_decide; [|done].
      by apply (volumes_in_range_shrink (seqZ count (m_channel_max w - count))).
  - eapply volumes_in_range_same; [|exact Hw]. unfold set_reserved.
    match goal with
    | |- m_channels (foldl reserve_step ?W ?ids) = _ =>
        by destruct (foldl_reserve_step_frame ids W) as (_ & _ & _ & ->)
    end.
  - by apply volumes_in_range_find_channel.
  - by apply volumes_in_range_get_channel.
  - by apply volumes_in_range_Sound_play.
  - by apply volumes_in_range_Channel_play.
  - by apply volumes_in_range_stop.
  - unfold Channel_pause. destruct (m_channels w !! id) as [ch|]; [|done].
    destruct (c_active ch); [|done]. by keeps_volumes.
  - unfold Channel_unpause. destruct (m_channels w !! id) as [ch|]; [|done].
    destruct (c_pause ch); [|done]. by keeps_volumes.
  - unfold Channel_set_volume.
    by apply volumes_in_range_upd; [intros; by apply c_set_volume_volumes|].
  - by apply volumes_in_range_Channel__get.
Qed.

(** X6.  In every state the calls reach from a new mixer when the volumes
    they are given are finite (rationals here; not NaN), each registered
    channel has its left volume, its right volume and the volume that
    [get_volume] returns between 0 and 1. *)
Theorem reachable_volumes_in_range (w : Mixer) :
  reachable w → volumes_in_range w.
Proof.
  induction 1 as [|c w Hreach IH].
  - intros k c. simpl. by rewrite lookup_empty.
  - by apply volumes_in_range_exec.
Qed.

Lemma reachable_volumes_in_range_witness :
  volumes_in_range
    (exec (CallChannelSetVolume 0 (3 # 2) (Some (-1 # 10)%Q))
       (exec (CallChannel 0) (exec (call_init backend_ok) Mixer_new))).
Proof.
  apply reachable_volumes_in_range. do 3 apply reachable_call. apply reachable_new.
Defined.

(** X7.  A pull of a channel whose volumes, and whose sound's volume, are
    between 0 and 1 returns left and right gains between 0 and 1, whether
    it read data (the products of channel and sound volume) or not (1.0
    for both). *)
Theorem Channel__get_gains_in_range (id : Z) (w w' : Mixer) (n : Z) (gl gr : Q) :
  volumes_in_range w →
  (∀ c s, m_channels w !! id = Some c → c_sound c = Some s →
          volume_in_range (s_volume s)) →
  Channel__get id w = Ok (n, gl, gr) w' →
  volume_in_range gl ∧ volume_in_range gr.
Proof.
  intros Hw Hs. unfold Channel__get.
  destruct (m_channels w !! id) as [c|] eqn:Hc; [|done].
  destruct (c_stream c) as [st|]; [|done].
  destruct (stream_read st) as [r st'].
  destruct (Hw id c Hc) as (_ & Hl & Hr).
  case_decide.
  - destruct (c_sound c) as [s|] eqn:Hsnd; [|done].
    intros [= _ <- <- _].
    split; apply volume_in_range_mult; eauto.
  - case_decide.
    + intros [= _ <- <- _]. split; apply volume_in_range_1.
    + destruct (c_sound c); [|done].
      intros [= _ <- <- _]. split; apply volume_in_range_1.
Qed.

Lemma Channel__get_gains_in_range_witness :
  volume_in_range (1 # 2) ∧ volume_in_range 0.
Proof.
  apply (Channel__get_gains_in_range 0 mixer_panned_left
           (state_of (Channel__get 0 mixer_panned_left)) 4096 (1 # 2) 0).
  - unfold mixer_panned_left, mixer_started, run. cbn [foldl].
    repeat apply volumes_in_range_exec.
    intros k c. simpl. by rewrite lookup_empty.
  - intros c s [= <-] [= <-]. by vm_compute.
  - reflexivity.
Defined.

(** ** The pools hold no negative id *)

Lemma Forall_deque_remove (P : Z → Prop) x d :
  Forall P d → Forall P (deque_remove x d).
Proof.
  rewrite !Forall_forall. intros Hd y Hy. by apply Hd, (elem_of_deque_remove_1 x).
Qed.

Lemma Forall_deque_add (P : Z → Prop) x d :
  P x → Forall P d → Forall P (deque_add x d).
Proof. intros Hx Hd. unfold deque_add. apply Forall_app. by repeat constructor. Qed.

Lemma pools_nonneg_same w w' :
  m_channel_available w' = m_channel_available w →
  m_channel_reserved w' = m_channel_reserved w →
  pools_nonneg w → pools_nonneg w'.
Proof. unfold pools_nonneg. by intros -> ->. Qed.

Lemma pools_nonneg_activate id w :
  pools_nonneg w → pools_nonneg (_activate_channel id w).
Proof.
  intros [Ha Hr]. unfold pools_nonneg, _activate_channel.
  case_decide; simpl; split; try done; by apply Forall_deque_remove.
Qed.

Lemma pools_nonneg_deactivate id w :
  pools_nonneg w → pools_nonneg (_deactivate_channel id w).
Proof. apply pools_nonneg_same; by pool_cases. Qed.

Lemma pools_nonneg_restore id w :
  0 ≤ m_channel_reserved_num w →
  pools_nonneg w → pools_nonneg (_restore_channel id w).
Proof.
  intros Hn [Ha Hr]. unfold pools_nonneg, _restore_channel.
  repeat case_decide; simpl; split; try done;
    apply Forall_deque_add; try done; lia.
Qed.

Lemma pools_nonneg_stop id w :
  0 ≤ m_channel_reserved_num w → pools_nonneg w → pools_nonneg (Channel_stop id w).
Proof.
  intros Hn Hw. unfold Channel_stop. destruct (m_channels w !! id); [|done].
  destruct (c_active _); simpl; [|done].
  apply pools_nonneg_restore.
  - by pool_cases.
  - eapply pools_nonneg_same; [reflexivity | reflexivity |].
    apply pools_nonneg_deactivate. by eapply pools_nonneg_same.
Qed.

Lemma pools_of_get_channel id w :
  m_channel_available (state_of (_get_channel id w)) = m_channel_available w ∧
  m_channel_reserved (state_of (_get_channel id w)) = m_channel_reserved w ∧
  m_channel_active (state_of (_get_channel id w)) = m_channel_active w ∧
  m_active (state_of (_get_channel id w)) = m_active w.
Proof.
  unfold _get_channel, Channel_init, _register_channel.
  destruct (m_channels w !! id); [done|].
  destruct (m_bufferSize w); [|done]. by case_decide.
Qed.

Lemma pools_nonneg_get_channel id w :
  pools_nonneg w → pools_nonneg (state_of (_get_channel id w)).
Proof. apply pools_nonneg_same; apply pools_of_get_channel. Qed.

Lemma pools_nonneg_find_channel force w :
  pools_nonneg w → pools_nonneg (state_of (find_channel force w)).
Proof.
  intros [Ha Hr]. unfold find_channel.
  destruct (m_channel_available w) as [|a rest] eqn:Hav; simpl.
  2:{ rewrite state_of_returning_channel. apply pools_nonneg_get_channel.
      split; simpl; [|done]. inversion Ha; subst. by apply Forall_deque_add. }
  assert (Hw : pools_nonneg w) by (split; [by rewrite Hav | done]).
  destruct (decide (m_channel_reserved_num w = 0)).
  { destruct force; simpl; [|done]. destruct (scan_active _ _ _).
    rewrite state_of_returning_channel. by apply pools_nonneg_get_channel. }
  destruct (m_channel_reserved w) as [|b rest] eqn:Hres; simpl.
  2:{ rewrite state_of_returning_channel. apply pools_nonneg_get_channel.
      split; simpl; [by rewrite Hav|]. inversion Hr; subst.
      by apply Forall_deque_add. }
  destruct force; simpl; [|done]. destruct (scan_active _ _ _).
  rewrite state_of_returning_channel. by apply pools_nonneg_get_channel.
Qed.

Lemma pools_nonneg_Sound_play s loops w :
  pools_nonneg w → pools_nonneg (state_of (Sound_play s loops w)).
Proof.
  intros [Ha Hr]. unfold Sound_play, _retrieve_channel.
  destruct (m_channel_available w) as [|a rest] eqn:Hav; simpl.
  { split; [by rewrite Hav | done]. }
  assert (H0 : pools_nonneg (set_available (fun _ => rest) w)).
  { split; simpl; [by inversion Ha | done]. }
  apply (pools_nonneg_get_channel a) in H0.
  by destruct (_get_channel a _) as [ch w'|e w'].
Qed.

Lemma pools_nonneg_Channel_play id s loops w :
  0 ≤ m_channel_reserved_num w →
  pools_nonneg w → pools_nonneg (Channel_play id s loops w).
Proof.
  intros Hn Hw. unfold Channel_play. destruct (m_channels w !! id) as [c|]; [|done].
  apply pools_nonneg_activate.
  eapply pools_nonneg_same; [reflexivity | reflexivity |].
  destruct (c_sound c); [|done].
  eapply pools_nonneg_same; [reflexivity | reflexivity |].
  by apply pools_nonneg_stop.
Qed.

Lemma pools_nonneg_Channel__get id w :
  0 ≤ m_channel_reserved_num w →
  pools_nonneg w → pools_nonneg (state_of (Channel__get id w)).
Proof.
  intros Hn Hw. unfold Channel__get. destruct (m_channels w !! id) as [c|]; [|done].
  destruct (c_stream c) as [st|]; [|done].
  destruct (stream_read st) as [r st'].
  case_decide; [by destruct (c_sound c)|].
  case_decide; simpl; [by apply pools_nonneg_stop|].
  by destruct (c_sound c).
Qed.

Lemma pools_nonneg_shrink ids w :
  0 ≤ m_channel_reserved_num w →
  pools_nonneg w → pools_nonneg (foldl shrink_step w ids).
Proof.
  revert w. induction ids as [|a ids IH]; intros w Hn Hw; cbn [foldl]; [done|].
  assert (Hstep : pools_nonneg (shrink_step w a)
                  ∧ m_channel_reserved_num (shrink_step w a)
                    = m_channel_reserved_num w).
  { unfold shrink_step. destruct (m_channels w !! a); simpl.
    - destruct (pools_nonneg_stop a w Hn Hw) as [Ha Hr].
      split; [|apply Channel_stop_reserved_num].
      split; simpl; [by apply Forall_deque_remove | done].
    - destruct Hw as [Ha Hr].
      split; [|done]. split; simpl; [by apply Forall_deque_remove | done]. }
  destruct Hstep as [Hs Hnum]. apply IH; [by rewrite Hnum | done].
Qed.

Lemma pools_nonneg_set_num_channels count w :
  pool_wf w → pools_nonneg w → pools_nonneg (set_num_channels count w).
Proof.
  intros (Hmax & Hn & _) Hw. unfold set_num_channels. case_decide.
  - destruct (foldl_grow_available
                (seqZ (m_channel_max w) (count - m_channel_max w)) w)
      as (Hav & Hres & _).
    destruct Hw as [Ha Hr]. split; simpl in *.
    + rewrite Hav. apply Forall_app. split; [done|].
      apply Forall_forall. intros x Hx%elem_of_seqZ. lia.
    + by rewrite Hres.
  - case_decide; [|done].
    destruct (pools_nonneg_shrink (seqZ count (m_channel_max w - count)) w Hn Hw).
    by split.
Qed.

Lemma pools_nonneg_set_reserved count w :
  pools_nonneg w → pools_nonneg (set_reserved count w).
Proof.
  intros [Ha Hr]. unfold set_reserved, pools_nonneg.
  rewrite foldl_reserve_step_reserved, foldl_reserve_step_available. simpl.
  split.
  - clear Hr. revert Ha. generalize (m_channel_available w).
    induction (seqZ 0 (clamp_reserved count w)) as [|x ids IH]; intros d Hd;
      simpl; [done|].
    by apply IH, Forall_deque_remove.
  - apply Forall_forall. intros x Hx%elem_of_seqZ. lia.
Qed.

Lemma pools_nonneg_init f sz ch b backend w :
  pools_nonneg w → pools_nonneg (state_of (init f sz ch b backend w)).
Proof.
  intros Hw. unfold init. destruct (m_initialized w); [done|].
  destruct (backend _ _) as [|isInit n]; simpl; [done|].
  destruct isInit; simpl; [|done].
  unfold Channel_init, _register_channel. simpl. by case_decide.
Qed.

Lemma pools_nonneg_exec c w :
  pool_wf w → pools_nonneg w → pools_nonneg (exec c w).
Proof.
  intros Hwf Hw. pose proof Hwf as (_ & Hn & _). destruct c; simpl.
  - by apply pools_nonneg_init.
  - done.
  - by apply pools_nonneg_set_num_channels.
  - by apply pools_nonneg_set_reserved.
  - by apply pools_nonneg_find_channel.
  - by apply pools_nonneg_get_channel.
  - by apply pools_nonneg_Sound_play.
  - by apply pools_nonneg_Channel_play.
  - by apply pools_nonneg_stop.
  - unfold Channel_pause. destruct (m_channels w !! id) as [ch|]; [|done].
    by destruct (c_active ch).
  - unfold Channel_unpause. destruct (m_channels w !! id) as [ch|]; [|done].
    by destruct (c_pause ch).
  - done.
  - by apply pools_nonneg_Channel__get.
Qed.

Lemma pool_wf_exec c w : pool_wf w → pool_wf (exec c w).
Proof.
  intros Hwf.
  destruct c; simpl;
    [ | | by apply pool_wf_set_num_channels | by apply pool_wf_set_reserved
      | .. ];
    (eapply keeps_shape_pool_wf; [|exact Hwf]).
  - apply keeps_shape_init.
  - apply keeps_shape_set_backend.
  - apply keeps_shape_find_channel.
  - apply keeps_shape_get_channel.
  - apply keeps_shape_Sound_play.
  - apply keeps_shape_Channel_play.
  - apply keeps_shape_stop.
  - unfold Channel_pause. destruct (m_channels w !! id) as [ch|];
      [|apply keeps_shape_refl].
    destruct (c_active ch); [apply keeps_shape_upd_channel | apply keeps_shape_refl].
  - unfold Channel_unpause. destruct (m_channels w !! id) as [ch|];
      [|apply keeps_shape_refl].
    destruct (c_pause ch); [apply keeps_shape_upd_channel | apply keeps_shape_refl].
  - apply keeps_shape_upd_channel.
  - apply keeps_shape_Channel__get.
Qed.

Lemma reachable_wf_nonneg w : reachable w → pool_wf w ∧ pools_nonneg w.
Proof.
  induction 1 as [|c w Hreach [IHwf IHnn]].
  - split; [apply pool_wf_new|].
    split; simpl; [|done]. apply Forall_forall. intros x Hx%elem_of_seqZ. lia.
  - split; [by apply pool_wf_exec | by apply pools_nonneg_exec].
Qed.

(** X8.  In every state the calls reach from a new mixer, the available
    and the reserved pool hold ids from 0 up only: the music channel's id
    -1 never enters them, and no call invents a negative id. *)
Theorem reachable_pools_nonneg (w : Mixer) : reachable w → pools_nonneg w.
Proof. intros Hr. by apply reachable_wf_nonneg. Qed.

Lemma reachable_pools_nonneg_witness :
  pools_nonneg
    (exec (CallChannelStop (-1))
       (exec (CallChannelPlay (-1) chime 0)
          (exec (call_init backend_ok) Mixer_new))).
Proof.
  apply reachable_pools_nonneg. do 3 apply reachable_call. apply reachable_new.
Defined.

(** ** The music channel *)

Lemma Channel_stop_music_pools w :
  0 ≤ m_channel_reserved_num w →
  m_channel_available (Channel_stop (-1) w) = m_channel_available w ∧
  m_channel_reserved (Channel_stop (-1) w) = m_channel_reserved w ∧
  m_channel_reserved_num (Channel_stop (-1) w) = m_channel_reserved_num w.
Proof.
  intros Hn. unfold Channel_stop. destruct (m_channels w !! (-1)); [|done].
  destruct (c_active _); simpl; [|done].
  unfold _restore_channel, _deactivate_channel, upd_channel. simpl.
  destruct (deque_isEmpty _); simpl; by rewrite decide_False by lia.
Qed.

Lemma reclaimed_nonneg w : 0 ≤ m_channel_reserved_num w → 0 ≤ reclaimed w.
Proof.
  intros Hn. unfold reclaimed, oldest_unreserved, oldest_reserved.
  destruct (head (filter (fun id => m_channel_reserved_num w ≤ id)
                    (m_channel_active w))) as [a|] eqn:Ha; simpl.
  { apply head_Some_elem_of, list_elem_of_filter in Ha as [Ha _]. lia. }
  destruct (head (filter (fun id => 0 ≤ id < m_channel_reserved_num w)
                    (m_channel_active w))) as [b|] eqn:Hb; simpl; [|done].
  apply head_Some_elem_of, list_elem_of_filter in Hb as [Hb _]. lia.
Qed.

(** X9.  The music channel is outside the pools.  With a sound loaded
    and the music channel registered, [Music.play] returns with the music
    channel active and its id -1 in the active pool, and [Music.stop]
    after it leaves the channel idle; neither changes the available or the
    reserved pool.  Forced reclamation never picks the music channel: the
    id [find_channel(force=true)] falls back on is never negative. *)
Theorem Music_outside_pools (mu : Music) (s : Sound) (loops : Z) (w : Mixer) :
  0 ≤ m_channel_reserved_num w →
  pools_nonneg w →
  mu_sound mu = Some s →
  is_Some (m_channels w !! (-1)) →
  ∃ w', Music_play mu loops w = Ok tt w' ∧
        Music_get_busy w' = true ∧
        -1 ∈ m_channel_active w' ∧
        m_channel_available w' = m_channel_available w ∧
        m_channel_reserved w' = m_channel_reserved w ∧
        Music_get_busy (Music_stop w') = false ∧
        m_channel_available (Music_stop w') = m_channel_available w ∧
        m_channel_reserved (Music_stop w') = m_channel_reserved w ∧
        0 ≤ reclaimed w'.
Proof.
  intros Hn [Hav Hres] Hmu [c Hc]. unfold Music_play. rewrite Hmu.
  eexists. split; [reflexivity|].
  set (w' := Channel_play (-1) s loops w).
  assert (Hplay : playing w' (-1) s (s_sound_object s) loops).
  { apply Channel_play_playing. by eexists. }
  assert (Hpools : m_channel_available w' = m_channel_available w ∧
                   m_channel_reserved w' = m_channel_reserved w ∧
                   m_channel_reserved_num w' = m_channel_reserved_num w ∧
                   -1 ∈ m_channel_active w').
  { unfold w', Channel_play. rewrite Hc.
    set (w1 := match c_sound c with Some _ => _ | None => w end).
    assert (H1 : m_channel_available w1 = m_channel_available w ∧
                 m_channel_reserved w1 = m_channel_reserved w ∧
                 m_channel_reserved_num w1 = m_channel_reserved_num w).
    { unfold w1. destruct (c_sound c); [|done]. simpl.
      by apply Channel_stop_music_pools. }
    destruct H1 as (H1a & H1r & H1n).
    unfold _activate_channel, upd_channel. simpl.
    rewrite decide_False by lia. simpl. rewrite H1a, H1r, H1n.
    split; [done|]. split; [|split; [done|]].
    - apply deque_remove_absent. intros Hin.
      rewrite Forall_forall in Hres. specialize (Hres _ Hin). lia.
    - unfold deque_add. rewrite elem_of_app. right. by left. }
  destruct Hpools as (Ha & Hr & Hnum & Hin).
  destruct Hplay as (c' & Hc' & _ & _ & _ & Hact).
  split; [unfold Music_get_busy, Channel_get_busy; by rewrite Hc'|].
  split; [done|]. split; [done|]. split; [done|].
  destruct (Channel_stop_music_pools w') as (Hsa & Hsr & _); [lia|].
  unfold Music_stop. rewrite Hsa, Hsr.
  split; [apply Channel_stop_busy|]. split; [done|]. split; [done|].
  apply reclaimed_nonneg. lia.
Qed.

Lemma Music_outside_pools_witness :
  ∃ w', Music_play (Music_load chime Music_init) (-1) mixer_started = Ok tt w' ∧
        Music_get_busy w' = true ∧
        m_channel_available w' = m_channel_available mixer_started.
Proof.
  destruct (Music_outside_pools (Music_load chime Music_init) chime (-1)
              mixer_started) as (w' & Hp & Hb & _ & Ha & _).
  - by vm_compute.
  - split; apply Forall_forall.
    + intros x Hx%elem_of_seqZ. lia.
    + intros x Hx. by apply elem_of_nil in Hx.
  - reflexivity.
  - by eexists.
  - by exists w'.
Defined.

(** ** Round-robin over the available pool *)

Lemma obtainable_get_channel id k w :
  obtainable w k → obtainable (state_of (_get_channel id w)) k.
Proof.
  intros Hk. unfold _get_channel, Channel_init, _register_channel.
  destruct (m_channels w !! id); [done|].
  destruct (m_bufferSize w) eqn:Hb; [|done]. case_decide; [|done].
  simpl. destruct Hk as [[c Hc]|Hlt]; [|by right].
  left. simpl. destruct (decide (id = k)) as [->|Hne].
  - rewrite lookup_insert_eq. by eexists.
  - rewrite lookup_insert_ne by done. by eexists.
Qed.

Lemma find_channel_head w a rest :
  m_channel_available w = a :: rest → obtainable w a →
  ∃ w', find_channel false w = Ok (Some a) w' ∧
        m_channel_available w' = rest ++ [a] ∧
        m_channel_reserved w' = m_channel_reserved w ∧
        m_channel_active w' = m_channel_active w ∧
        (∀ k, obtainable w k → obtainable w' k).
Proof.
  intros Hav Hobt. unfold find_channel. rewrite Hav. simpl.
  set (w0 := set_available (fun _ => deque_add a rest) w).
  destruct (_get_channel_obtainable a w0 Hobt) as [w' Hw'].
  exists w'. rewrite Hw'. split; [done|].
  pose proof (pools_of_get_channel a w0) as (Ha & Hr & Hact & _).
  pose proof (fun k => obtainable_get_channel a k w0) as Hk.
  rewrite Hw' in Ha, Hr, Hact, Hk. simpl in *.
  by repeat split.
Qed.

Lemma find_channels_rotate l1 l2 w :
  m_channel_available w = l1 ++ l2 →
  (∀ id, id ∈ l1 → obtainable w id) →
  ∃ w', find_channels (length l1) w = (l1, w') ∧
        m_channel_available w' = l2 ++ l1 ∧
        m_channel_reserved w' = m_channel_reserved w ∧
        m_channel_active w' = m_channel_active w.
Proof.
  revert l2 w. induction l1 as [|a l1 IH]; intros l2 w Hav Hobt.
  { exists w. simpl in *. by rewrite app_nil_r. }
  destruct (find_channel_head w a (l1 ++ l2)) as (w1 & Hf & Ha & Hr & Hact & Hk).
  { done. }
  { apply Hobt. by left. }
  destruct (IH (l2 ++ [a]) w1) as (w2 & Hfs & Ha2 & Hr2 & Hact2).
  { by rewrite Ha, app_assoc. }
  { intros id Hid. apply Hk, Hobt. by right. }
  exists w2. cbn [find_channels length]. rewrite Hf, Hfs.
  split; [done|]. rewrite Ha2, Hr2, Hact2, <- app_assoc. done.
Qed.

(** X10.  [find_channel()] hands the available channels out in turn:
    as many calls as the available pool has ids return those ids in pool
    order and leave the pool in the order it started with; the reserved
    and the active pool are not touched.  Each id of the pool is taken to
    be registered, or below the capacity with [init] called. *)
Theorem find_channel_round_robin (w : Mixer) :
  (∀ id, id ∈ m_channel_available w → obtainable w id) →
  ∃ w', find_channels (length (m_channel_available w)) w
        = (m_channel_available w, w') ∧
        m_channel_available w' = m_channel_available w ∧
        m_channel_reserved w' = m_channel_reserved w ∧
        m_channel_active w' = m_channel_active w.
Proof.
  intros Hobt.
  destruct (find_channels_rotate (m_channel_available w) [] w)
    as (w' & Hf & Ha & Hr & Hact); [by rewrite app_nil_r | done |].
  exists w'. by repeat split.
Qed.

Lemma find_channel_round_robin_witness :
  ∃ w', find_channels 8 mixer_started = ([0; 1; 2; 3; 4; 5; 6; 7], w') ∧
        m_channel_available w' = [0; 1; 2; 3; 4; 5; 6; 7].
Proof.
  destruct (find_channel_round_robin mixer_started) as (w' & Hf & Ha & _).
  - intros id Hid%elem_of_seqZ. right. split; [by eexists | simpl in *; lia].
  - by exists w'.
Defined.

(** ** Getting a channel object *)

(** X11.  [Channel(id)] builds a channel object at most once.  When it
    returns, the id is registered, the pools are as they were, a second
    call returns the same channel and changes nothing; an id that was
    registered keeps its object untouched (a playing channel is not reset),
    and one that was not gets a new idle channel.  For an unregistered id
    at or above the capacity it raises [AttributeError] and changes
    nothing. *)
Theorem _get_channel_once (id : Z) (w : Mixer) :
  (∀ ch w', _get_channel id w = Ok ch w' →
     ch = id ∧ _get_channel id w' = Ok id w' ∧
     m_channel_available w' = m_channel_available w ∧
     m_channel_reserved w' = m_channel_reserved w ∧
     m_channel_active w' = m_channel_active w ∧
     (is_Some (m_channels w !! id) → w' = w) ∧
     (m_channels w !! id = None → m_channels w' !! id = Some Channel_new) ∧
     (∀ k, k ≠ id → m_channels w' !! k = m_channels w !! k)) ∧
  (m_channels w !! id = None → m_channel_max w ≤ id →
   _get_channel id w = Raise AttributeError w).
Proof.
  split.
  - intros ch w' Hget.
    destruct (_get_channel_Ok _ _ _ _ Hget) as (-> & [c' Hc'] & Ha & Hr & Hact).
    split; [done|]. split; [by unfold _get_channel; rewrite Hc'|].
    do 3 (split; [done|]).
    revert Hget. unfold _get_channel, Channel_init, _register_channel.
    destruct (m_channels w !! id) as [c|] eqn:Hc.
    + intros [= <-]. split; [done|]. split; [done|]. done.
    + destruct (m_bufferSize w); [|done]. case_decide; [|done].
      intros [= <-]. simpl. split; [by intros []|].
      split; [by rewrite lookup_insert_eq|].
      intros k Hk. by rewrite lookup_insert_ne.
  - intros Hnone Hmax. unfold _get_channel, Channel_init, _register_channel.
    rewrite Hnone. destruct (m_bufferSize w); [|done].
    by rewrite decide_False by lia.
Qed.

Lemma _get_channel_once_witness :
  _get_channel 8 mixer_started = Raise AttributeError mixer_started ∧
  ∃ w', _get_channel 3 mixer_started = Ok 3 w' ∧ _get_channel 3 w' = Ok 3 w'.
Proof.
  split.
  - apply (proj2 (_get_channel_once 8 mixer_started)); [reflexivity | by vm_compute].
  - eexists. split; [reflexivity|].
    apply (proj1 (_get_channel_once 3 mixer_started) 3). reflexivity.
Defined.

(** ** [Sound.play] and the pools *)

(** X12.  [Sound.play] takes channels from the available pool only.
    With that pool empty it returns [None] and changes nothing, even when
    reserved channels are free; in every case the reserved pool is as it
    was, and no channel is taken from another sound. *)
Theorem Sound_play_available_only (s : Sound) (loops : Z) (w : Mixer) :
  (m_channel_available w = [] → Sound_play s loops w = Ok None w) ∧
  m_channel_reserved (state_of (Sound_play s loops w)) = m_channel_reserved w ∧
  (∀ ch w', Sound_play s loops w = Ok (Some ch) w' →
     ∃ rest, m_channel_available w = ch :: rest ∧
             m_channel_available w' = rest ∧
             m_channel_active w' = m_channel_active w ++ [ch] ∧
             (∀ k, k ≠ ch → m_channels w' !! k = m_channels w !! k)).
Proof.
  unfold Sound_play, _retrieve_channel.
  destruct (m_channel_available w) as [|a rest] eqn:Hav; simpl.
  { split; [done|]. split; [done|]. by intros ch w' [=]. }
  split; [done|].
  set (w0 := set_available (fun _ => rest) w).
  pose proof (pools_of_get_channel a w0) as (Ha & Hr & Hact & _).
  destruct (_get_channel a w0) as [ch w1|e w1] eqn:Hget; simpl in *;
    [|by split].
  split; [done|]. intros ch' w' [= <- <-].
  apply _get_channel_Ok in Hget as Hok. destruct Hok as (-> & _).
  exists rest. split; [done|].
  unfold Channel__play, upd_channel. simpl. rewrite Ha, Hact.
  split; [done|]. split; [done|].
  intros k Hk. rewrite lookup_alter_ne by done.
  revert Hget. unfold _get_channel, Channel_init, _register_channel.
  destruct (m_channels w0 !! a); [by intros [= <-]|].
  destruct (m_bufferSize w0); [|done]. case_decide; [|done].
  intros [= <-]. simpl. by rewrite lookup_insert_ne.
Qed.

(** X13.  Before [init] (no [_bufferSize] yet), [Sound.play] on an
    unregistered id raises [AttributeError] from the channel constructor
    after the id has been popped: the id is gone from the available pool
    and is not in the active pool either. *)
Theorem Sound_play_before_init_drops_id (s : Sound) (loops : Z) (w : Mixer)
    (id : Z) (rest : list Z) :
  m_bufferSize w = None →
  m_channel_available w = id :: rest →
  m_channels w !! id = None →
  ∃ w', Sound_play s loops w = Raise AttributeError w' ∧
        m_channel_available w' = rest ∧
        m_channel_active w' = m_channel_active w ∧
        m_channel_reserved w' = m_channel_reserved w ∧
        m_channels w' = m_channels w.
Proof.
  intros Hbuf Hav Hnone.
  unfold Sound_play, _retrieve_channel, _get_channel, Channel_init.
  rewrite Hav. simpl. rewrite Hnone, Hbuf. by eexists.
Qed.

Lemma Sound_play_before_init_drops_id_witness :
  ∃ w', Sound_play beep 0 Mixer_new = Raise AttributeError w' ∧
        m_channel_available w' = [1; 2; 3; 4; 5; 6; 7] ∧
        m_channel_active w' = [].
Proof.
  destruct (Sound_play_before_init_drops_id beep 0 Mixer_new 0 (seqZ 1 7))
    as (w' & Hp & Ha & Hact & _); [reflexivity | reflexivity | reflexivity |].
  by exists w'.
Defined.

Lemma Sound_play_available_only_witness :
  Sound_play beep 0 (run [CallSetNumChannels 0] mixer_started)
  = Ok None (run [CallSetNumChannels 0] mixer_started).
Proof.
  apply (proj1 (Sound_play_available_only beep 0
                  (run [CallSetNumChannels 0] mixer_started))).
  reflexivity.
Defined.

(** ** From [play] to the end of the stream *)

Lemma deque_remove_add_absent (x : Z) (d : list Z) :
  x ∉ d → deque_remove x (deque_add x d) = d.
Proof.
  unfold deque_add. induction d as [|y d IH]; intros Hx; simpl.
  - by rewrite decide_True.
  - apply not_elem_of_cons in Hx as [Hne Hx].
    rewrite decide_False by congruence. by rewrite IH.
Qed.

Lemma Channel_stop_initialized id w :
  m_initialized (Channel_stop id w) = m_initialized w.
Proof.
  unfold Channel_stop. destruct (m_channels w !! id) as [c|]; [|done].
  destruct (c_active c); simpl; [|done]. by pool_cases.
Qed.

Lemma Channel_stop_pools_busy id w :
  Channel_get_busy id w = true →
  m_channel_active (Channel_stop id w) = deque_remove id (m_channel_active w) ∧
  m_channel_reserved_num (Channel_stop id w) = m_channel_reserved_num w ∧
  m_active (Channel_stop id w) =
    (if deque_isEmpty (deque_remove id (m_channel_active w)) then false
     else m_active w) ∧
  (id > m_channel_reserved_num w - 1 →
   m_channel_available (Channel_stop id w) = m_channel_available w ++ [id] ∧
   m_channel_reserved (Channel_stop id w) = m_channel_reserved w) ∧
  (¬ id > m_channel_reserved_num w - 1 → id > -1 →
   m_channel_available (Channel_stop id w) = m_channel_available w ∧
   m_channel_reserved (Channel_stop id w) = m_channel_reserved w ++ [id]).
Proof.
  unfold Channel_get_busy, Channel_stop.
  destruct (m_channels w !! id) as [c|]; [|done]. simpl. intros ->. simpl.
  unfold _restore_channel, _deactivate_channel, upd_channel. simpl.
  destruct (deque_isEmpty _); simpl; repeat case_decide; simpl;
    repeat split; try done; try lia.
Qed.

Lemma Sound_play_playing s loops w id rest :
  m_channel_available w = id :: rest → obtainable w id →
  ∃ w1, Sound_play s loops w = Ok (Some id) w1 ∧
        playing w1 id s (s_sound_object s) loops ∧
        m_channel_available w1 = rest ∧
        m_channel_active w1 = m_channel_active w ++ [id] ∧
        m_channel_reserved w1 = m_channel_reserved w ∧
        m_channel_reserved_num w1 = m_channel_reserved_num w ∧
        m_active w1 = true.
Proof.
  intros Hav Hobt. unfold Sound_play, _retrieve_channel. rewrite Hav. simpl.
  set (w0 := set_available (fun _ => rest) w).
  destruct (_get_channel_obtainable id w0 Hobt) as [w' Hw'].
  pose proof (pools_of_get_channel id w0) as (Ha & Hr & Hact & _).
  pose proof (keeps_shape_get_channel id w0) as (_ & Hn & _).
  rewrite Hw' in *. simpl in *.
  apply _get_channel_Ok in Hw' as (_ & [c Hc] & _).
  eexists. split; [reflexivity|].
  unfold Channel__play, upd_channel. simpl. rewrite Ha, Hr, Hact, Hn.
  split; [|done]. eexists. simpl. rewrite lookup_alter_eq, Hc. simpl. done.
Qed.

Lemma Channel__get_data_only w id s n st loops :
  playing w id s (ReadBytes n :: st) loops → 0 < n →
  ∃ g w', Channel__get id w = Ok (n, g.1, g.2) w' ∧
          playing w' id s st loops ∧ only_channels_differ w w'.
Proof.
  intros (c & Hc & Hs & Hst & Hl & Ha) Hn.
  unfold Channel__get. rewrite Hc, Hst. simpl.
  rewrite decide_True by lia. rewrite Hs.
  eexists (_, _), _. split; [reflexivity|]. split; [|by repeat split].
  eexists. unfold upd_channel; simpl.
  rewrite lookup_alter_eq, Hc. simpl. done.
Qed.

Lemma pulls_blocks_only w id s cs loops :
  Forall (fun n => 0 < n) cs →
  playing w id s (ReadBytes <$> cs) loops →
  ∃ w', pulls (length cs) id w = (cs, w') ∧ playing w' id s [] loops ∧
        only_channels_differ w w'.
Proof.
  intros Hpos. revert w.
  induction Hpos as [|n cs Hn Hpos IH]; intros w Hplay.
  - exists w. split; [done|]. split; [done | apply only_channels_differ_refl].
  - destruct (Channel__get_data_only _ _ _ _ _ _ Hplay Hn)
      as (g & w1 & Hget & Hp1 & Ho1).
    destruct (IH _ Hp1) as (w2 & Hpulls & Hp2 & Ho2).
    exists w2. cbn [pulls length]. rewrite Hget, Hpulls.
    split; [done|]. split; [done|].
    by eapply only_channels_differ_trans.
Qed.

(** X14.  A sound played once on the first available channel and pulled
    to its end gives its blocks in order, then one pull without data that
    stops the channel: the id is back at the tail of the available pool,
    the active and the reserved pool are as before the [play], and the
    mixer's busy flag is off again if nothing else was active.  The id is
    taken to be unreserved and not in the active pool already. *)
Theorem Sound_play_to_end (s : Sound) (cs : list Z) (w : Mixer)
    (id : Z) (rest : list Z) :
  m_channel_available w = id :: rest →
  obtainable w id →
  id > m_channel_reserved_num w - 1 →
  id ∉ m_channel_active w →
  s_sound_object s = ReadBytes <$> cs →
  Forall (fun n => 0 < n) cs →
  ∃ w1 w2, Sound_play s 0 w = Ok (Some id) w1 ∧
           Channel_get_busy id w1 = true ∧
           pulls (length cs + 1) id w1 = (cs ++ [-1], w2) ∧
           stopped w2 id ∧
           m_channel_available w2 = rest ++ [id] ∧
           m_channel_active w2 = m_channel_active w ∧
           m_channel_reserved w2 = m_channel_reserved w ∧
           (m_channel_active w = [] → m_active w2 = false).
Proof.
  intros Hav Hobt Hres Hnin Hsrc Hpos.
  destruct (Sound_play_playing s 0 w id rest Hav Hobt)
    as (w1 & Hplay & Hp1 & Ha1 & Hact1 & Hr1 & Hn1 & Hm1).
  exists w1. rewrite Hsrc in Hp1.
  destruct (pulls_blocks_only _ _ _ _ _ Hpos Hp1) as (w1' & Hpulls & Hp2 & Ho).
  destruct Ho as (_&_&_&_&_& Ha2 & Hact2 & Hr2 & Hn2 & Hm2 & _).
  destruct Hp2 as (c & Hc & Hs & Hst & Hl & Hact).
  set (w1'' := upd_channel id
                 (fun c => c_set_data_len (-1) (c_set_stream (Some []) c)) w1').
  assert (Hget : Channel__get id w1' = Ok (-1, 1%Q, 1%Q) (Channel_stop id w1'')).
  { unfold Channel__get. rewrite Hc, Hst. simpl. by rewrite Hl. }
  assert (Hb : Channel_get_busy id w1'' = true).
  { unfold Channel_get_busy, w1'', upd_channel. simpl.
    by rewrite lookup_alter_eq, Hc. }
  exists (Channel_stop id w1''). split; [done|].
  split.
  { destruct Hp1 as (c1 & Hc1 & _ & _ & _ & Hact1').
    unfold Channel_get_busy. by rewrite Hc1. }
  split.
  { apply (pulls_app _ 1 _ _ _ w1' [-1] _ Hpulls eq_refl).
    cbn [pulls]. by rewrite Hget. }
  split; [by apply Channel_stop_stopped|].
  destruct (Channel_stop_pools_busy id w1'' Hb) as (Hsa & _ & Hsm & Hsav & _).
  destruct Hsav as [Hsav Hsres].
  { unfold w1''. simpl. rewrite Hn2, Hn1. done. }
  rewrite Hsav, Hsres, Hsa, Hsm. unfold w1''. simpl.
  rewrite Ha2, Ha1, Hr2, Hr1, Hact2, Hact1.
  change (m_channel_active w ++ [id]) with (deque_add id (m_channel_active w)).
  rewrite deque_remove_add_absent by done.
  repeat split; try done. by intros ->.
Qed.

Lemma Sound_play_to_end_witness :
  ∃ w1 w2, Sound_play beep 0 mixer_started = Ok (Some 0) w1 ∧
           pulls 3 0 w1 = ([4096; 1024; -1], w2) ∧
           m_channel_available w2 = [1; 2; 3; 4; 5; 6; 7; 0] ∧
           m_active w2 = false.
Proof.
  destruct (Sound_play_to_end beep [4096; 1024] mixer_started 0 (seqZ 1 7))
    as (w1 & w2 & Hp & _ & Hpulls & _ & Hav & _ & _ & Hm).
  - reflexivity.
  - right. split; [by eexists | by vm_compute].
  - by vm_compute.
  - apply not_elem_of_nil.
  - reflexivity.
  - repeat constructor.
  - exists w1, w2. repeat split; try done. by apply Hm.
Defined.

(** ** [play] followed by [stop] *)

(** X15.  [play] on an idle channel followed by [stop] gives every id
    back: the active pool is as it was, the available and the reserved
    pool hold the ids they held (the channel's id has moved to the tail of
    its pool), the channel is stopped and every other channel untouched.
    The id is taken to be in its pool, by the reserved count, and not in
    the active pool. *)
Theorem Channel_play_stop (id : Z) (s : Sound) (loops : Z) (w : Mixer)
    (c : Channel) :
  m_channels w !! id = Some c → c_sound c = None →
  id > -1 → id ∉ m_channel_active w →
  (if decide (id > m_channel_reserved_num w - 1)
   then id ∈ m_channel_available w else id ∈ m_channel_reserved w) →
  let w' := Channel_stop id (Channel_play id s loops w) in
  stopped w' id ∧
  m_channel_active w' = m_channel_active w ∧
  m_channel_available w' ≡ₚ m_channel_available w ∧
  m_channel_reserved w' ≡ₚ m_channel_reserved w ∧
  (∀ k, k ≠ id → m_channels w' !! k = m_channels w !! k).
Proof.
  intros Hc Hs Hpos Hnin Hhome. simpl.
  set (wp := Channel_play id s loops w).
  assert (Hplay : playing wp id s (s_sound_object s) loops).
  { apply Channel_play_playing. by eexists. }
  assert (Hb : Channel_get_busy id wp = true).
  { destruct Hplay as (c' & Hc' & _ & _ & _ & Ha).
    unfold Channel_get_busy. by rewrite Hc'. }
  split; [by apply Channel_stop_stopped|].
  destruct (Channel_stop_pools_busy id wp Hb) as (Hsa & _ & _ & Hun & Hre).
  assert (Hwp : m_channel_active wp = deque_add id (m_channel_active w) ∧
                m_channel_reserved_num wp = m_channel_reserved_num w ∧
                (∀ k, k ≠ id → m_channels wp !! k = m_channels w !! k) ∧
                if decide (id > m_channel_reserved_num w - 1)
                then m_channel_available wp = deque_remove id (m_channel_available w)
                     ∧ m_channel_reserved wp = m_channel_reserved w
                else m_channel_available wp = m_channel_available w
                     ∧ m_channel_reserved wp = deque_remove id (m_channel_reserved w)).
  { unfold wp, Channel_play. rewrite Hc, Hs.
    unfold _activate_channel, upd_channel. simpl.
    case_decide; simpl; repeat split; try done;
      intros k Hk; by rewrite lookup_alter_ne. }
  destruct Hwp as (Hact & Hnum & Hoth & Hpools).
  rewrite Hsa, Hact, deque_remove_add_absent by done.
  split; [done|]. rewrite Hnum in Hun, Hre.
  destruct (decide (id > m_channel_reserved_num w - 1)) as [Hgt|Hle].
  - destruct (Hun Hgt) as [-> ->]. destruct Hpools as [-> ->].
    split; [|split; [done|]].
    + rewrite (deque_remove_perm id (m_channel_available w)) at 2 by done.
      by rewrite Permutation_app_comm.
    + intros k Hk. by rewrite Channel_stop_lookup_ne, Hoth.
  - destruct (Hre Hle Hpos) as [-> ->]. destruct Hpools as [-> ->].
    split; [done|]. split.
    + rewrite (deque_remove_perm id (m_channel_reserved w)) at 2 by done.
      by rewrite Permutation_app_comm.
    + intros k Hk. by rewrite Channel_stop_lookup_ne, Hoth.
Qed.

Lemma Channel_play_stop_witness :
  m_channel_available
    (Channel_stop 3 (Channel_play 3 beep 0 (exec (CallChannel 3) mixer_started)))
  ≡ₚ m_channel_available (exec (CallChannel 3) mixer_started).
Proof.
  eapply (Channel_play_stop 3 beep 0 (exec (CallChannel 3) mixer_started)
            Channel_new).
  - reflexivity.
  - reflexivity.
  - lia.
  - apply not_elem_of_nil.
  - rewrite decide_True by (by vm_compute).
    change (3 ∈ seqZ 0 8). apply elem_of_seqZ. lia.
Defined.

(** ** Reserving twice *)

Lemma foldl_reserve_step_eq ids w :
  foldl reserve_step w ids =
  set_available (fun d => foldl (fun d id => deque_remove id d) d ids)
    (set_reserved_pool (fun r => r ++ ids) w).
Proof.
  revert w. induction ids as [|a ids IH]; intros w; cbn [foldl].
  - destruct w. unfold set_available, set_reserved_pool. simpl.
    by rewrite app_nil_r.
  - rewrite IH. destruct w.
    unfold reserve_step, set_available, set_reserved_pool, deque_add. simpl.
    by rewrite <- app_assoc.
Qed.

Lemma foldl_deque_remove_absent (ids d : list Z) :
  (∀ x, x ∈ ids → x ∉ d) → foldl (fun d id => deque_remove id d) d ids = d.
Proof.
  induction ids as [|a ids IH]; intros Habs; simpl; [done|].
  rewrite deque_remove_absent by (apply Habs; by left).
  apply IH. intros x Hx. apply Habs. by right.
Qed.

(** X16.  [set_reserved] is idempotent: on an available pool that holds
    no id twice, calling it again with the same count changes nothing. *)
Theorem set_reserved_idempotent (r : Z) (w : Mixer) :
  NoDup (m_channel_available w) →
  set_reserved r (set_reserved r w) = set_reserved r w.
Proof.
  intros Hnd. unfold set_reserved.
  set (c := clamp_reserved r w).
  rewrite !foldl_reserve_step_eq.
  change (clamp_reserved r
            (set_available
               (fun d => foldl (fun d id => deque_remove id d) d (seqZ 0 c))
               (set_reserved_pool (fun r0 => r0 ++ seqZ 0 c)
                  (set_reserved_pool (fun _ => []) (set_reserved_num c w)))))
    with c.
  apply Mixer_eq_channels; try reflexivity.
  cbn [m_channel_available set_available set_reserved_pool set_reserved_num].
  apply foldl_deque_remove_absent. intros x Hx.
  by apply foldl_deque_remove_removed.
Qed.

Lemma set_reserved_idempotent_witness :
  set_reserved 3 (set_reserved 3 mixer_started) = set_reserved 3 mixer_started.
Proof. apply set_reserved_idempotent. apply NoDup_seqZ. Defined.

(** ** Writing whole frames *)

(** X17.  [_write] never calls the line more than twice, and the second
    call comes only after [IllegalArgumentException], with the length cut
    down to whole frames.  On a line that takes whole frames only, what is
    written is the largest whole number of frames within the data: a
    multiple of the frame size, at most the data length and less than one
    frame short of it. *)
Theorem _write_whole_frames :
  (∀ line frameSize data_len, frameSize ≠ 0 →
     ∃ calls, _write line frameSize data_len = Some calls ∧
       (length calls ≤ 2)%nat ∧
       head calls = Some (data_len, line data_len) ∧
       (∀ n o, (n, o) ∈ calls →
          n = data_len ∨
          (n = frameSize * (data_len / frameSize) ∧ n ≠ data_len ∧
           line data_len = IllegalArgumentException))) ∧
  (∀ frameSize data_len, 0 < frameSize →
     let written := frameSize * (data_len / frameSize) in
     ∃ calls, _write (whole_frames frameSize) frameSize data_len = Some calls ∧
       last calls = Some (written, WriteDone) ∧
       written `mod` frameSize = 0 ∧
       data_len - frameSize < written ≤ data_len).
Proof.
  split.
  - intros line fs n Hfs. unfold _write.
    destruct (line n) eqn:Hline.
    + eexists. split; [reflexivity|]. split; [simpl; lia|]. split; [done|].
      intros m o [= -> ->]%list_elem_of_singleton. by left.
    + rewrite decide_False by done. case_decide as Hmod.
      * eexists. split; [reflexivity|]. split; [simpl; lia|]. split; [done|].
        intros m o [= -> ->]%list_elem_of_singleton. by left.
      * eexists. split; [reflexivity|]. split; [simpl; lia|]. split; [done|].
        intros m o Hin. rewrite !elem_of_cons, elem_of_nil in Hin.
        destruct Hin as [[= -> ->]|[[= -> ->]|[]]]; [by left|].
        right. pose proof (Z.div_mod n fs Hfs). split; [lia|]. split; [lia|done].
    + eexists. split; [reflexivity|]. split; [simpl; lia|]. split; [done|].
      intros m o [= -> ->]%list_elem_of_singleton. by left.
  - intros fs n Hfs. simpl.
    pose proof (Z.div_mod n fs ltac:(lia)) as Hdm.
    pose proof (Z.mod_pos_bound n fs Hfs) as Hbound.
    assert (Hmul : (fs * (n / fs)) `mod` fs = 0).
    { rewrite Z.mul_comm. apply Z.mod_mul. lia. }
    unfold _write, whole_frames.
    destruct (decide (n `mod` fs = 0)) as [Hz|Hnz].
    + eexists. split; [reflexivity|]. simpl.
      replace (fs * (n / fs)) with n by lia.
      split; [done|]. split; [done | lia].
    + rewrite decide_False by lia.
      replace (n - n `mod` fs) with (fs * (n / fs)) by lia.
      rewrite decide_True by done.
      eexists. split; [reflexivity|]. split; [done|]. split; [done | lia].
Qed.

Lemma _write_whole_frames_witness :
  ∃ calls, _write (whole_frames 4) 4 4099 = Some calls ∧
           last calls = Some (4096, WriteDone).
Proof.
  destruct (proj2 _write_whole_frames 4 4099) as (calls & Hw & Hl & _); [lia|].
  by exists calls.
Defined.

Lemma reachable_pool_wf_witness : pool_wf mixer_failed.
Proof.
  apply reachable_pool_wf. unfold mixer_failed, run. cbn [foldl].
  apply reachable_call, reachable_new.
Defined.

(** X18.  [Sound.set_volume] clamps a finite volume (a rational here; not
    NaN): [get_volume] after it is between 0 and 1, is the value given
    when that is in range, and setting a sound's volume to what
    [get_volume] returns changes nothing; the sound's id and source are
    untouched. *)
Theorem Sound_set_volume_clamps (v : Q) (s : Sound) :
  let s' := Sound_set_volume v s in
  Sound_get_volume s' = clamp_volume v ∧
  volume_in_range (Sound_get_volume s') ∧
  (volume_in_range v → Sound_get_volume s' = v) ∧
  Sound_set_volume (Sound_get_volume s') s' = s' ∧
  s_id s' = s_id s ∧ s_sound_object s' = s_sound_object s.
Proof.
  simpl. split; [done|]. split; [apply volume_in_range_clamp|].
  split; [apply clamp_volume_within|]. split; [|done].
  unfold Sound_set_volume, Sound_get_volume. simpl.
  by rewrite (clamp_volume_within _ (clamp_volume_range v)).
Qed.

Lemma Sound_set_volume_clamps_witness :
  Sound_get_volume (Sound_set_volume (1 # 4) beep) = (1 # 4)%Q.
Proof.
  apply (Sound_set_volume_clamps (1 # 4) beep). by vm_compute.
Defined.

(** ** The mixing thread *)

Lemma Channel__get_lookup_ne id k w :
  id ≠ k → m_channels (state_of (Channel__get id w)) !! k = m_channels w !! k.
Proof.
  intros Hne. unfold Channel__get.
  destruct (m_channels w !! id) as [c|]; [|done].
  destruct (c_stream c) as [st|]; [|done].
  destruct (stream_read st) as [r st'].
  case_decide.
  { destruct (c_sound c); cbn [state_of];
      by rewrite upd_channel_lookup, decide_False. }
  case_decide; cbn [state_of].
  { by rewrite Channel_stop_lookup_ne, upd_channel_lookup, decide_False. }
  destruct (c_sound c); cbn [state_of];
    by rewrite !upd_channel_lookup, !decide_False.
Qed.

Lemma Channel__get_dom id k w :
  is_Some (m_channels (state_of (Channel__get id w)) !! k)
  ↔ is_Some (m_channels w !! k).
Proof.
  destruct (decide (id = k)) as [->|Hne]; [|by rewrite Channel__get_lookup_ne].
  unfold Channel__get.
  destruct (m_channels w !! k) as [c|] eqn:Hc; [|cbn [state_of]; by rewrite Hc].
  destruct (c_stream c) as [st|]; [|cbn [state_of]; by rewrite Hc].
  destruct (stream_read st) as [r st'].
  assert (H1 : ∀ f, is_Some (m_channels (upd_channel k f w) !! k)).
  { intros f. rewrite upd_channel_lookup, decide_True, Hc by done. by eexists. }
  split; [by eexists|]. intros _.
  case_decide.
  { destruct (c_sound c); cbn [state_of]; apply H1. }
  case_decide; cbn [state_of].
  { apply Channel_stop_dom, H1. }
  destruct (c_sound c); cbn [state_of]; [|apply H1].
  rewrite upd_channel_lookup, decide_True by done.
  apply fmap_is_Some, H1.
Qed.

Lemma _mix_loop_spec ids fed w :
  (∀ id, id ∈ ids → is_Some (m_channels w !! id)) →
  ∃ fed' w', _mix_loop ids fed w = Swept fed' w' ∧
    (length fed' ≤ length fed + length ids)%nat ∧
    (∀ k, Channel_get_busy k w = false →
          m_channels w' !! k = m_channels w !! k).
Proof.
  revert fed w. induction ids as [|a ids IH]; intros fed w Hreg.
  { exists fed, w. split; [done|]. split; [simpl; lia | done]. }
  cbn [_mix_loop]. destruct (Hreg a) as [c Hc]; [by left|]. rewrite Hc.
  destruct (c_active c) eqn:Hact; simpl.
  2:{ destruct (IH fed w) as (fed' & w' & Hm & Hlen & Hk).
      { intros id Hid. apply Hreg. by right. }
      exists fed', w'. split; [done|]. split; [simpl; lia | done]. }
  pose proof (fun k => Channel__get_lookup_ne a k w) as Hne.
  pose proof (fun k => Channel__get_dom a k w) as Hdom.
  assert (Hstep : ∀ fed0, ∃ fed' w',
            _mix_loop ids fed0 (state_of (Channel__get a w)) = Swept fed' w' ∧
            (length fed' ≤ length fed0 + length ids)%nat ∧
            (∀ k, Channel_get_busy k w = false →
                  m_channels w' !! k = m_channels w !! k)).
  { intros fed0.
    destruct (IH fed0 (state_of (Channel__get a w))) as (fed' & w' & Hm & Hlen & Hk).
    { intros id Hid. apply Hdom, Hreg. by right. }
    exists fed', w'. split; [done|]. split; [done|].
    intros k Hb. assert (a ≠ k).
    { intros ->. unfold Channel_get_busy in Hb. rewrite Hc in Hb. simpl in Hb.
      congruence. }
    rewrite Hk; [by apply Hne|].
    unfold Channel_get_busy. by rewrite Hne. }
  destruct (Channel__get a w) as [g w1|e w1]; simpl in *.
  - destruct (Hstep (fed ++ [g])) as (fed' & w' & Hm & Hlen & Hk).
    exists fed', w'. split; [done|]. split; [|done].
    rewrite length_app in Hlen. simpl in *. lia.
  - destruct (Hstep fed) as (fed' & w' & Hm & Hlen & Hk).
    exists fed', w'. split; [done|]. split; [simpl; lia | done].
Qed.

(** X19.  When every id of the active pool is registered, [_mix] returns
    what the backend mixes; it pulls each channel at most once, and a
    channel whose active flag is off (paused or idle) is not pulled: its
    cursor, loop count and volumes are as before. *)
Theorem _mix_skips_inactive (getAudioData : list (Z * Q * Q) → Z) (w : Mixer) :
  (∀ id, id ∈ m_channel_active w → is_Some (m_channels w !! id)) →
  ∃ fed w', _mix_loop (m_channel_active w) [] w = Swept fed w' ∧
            _mix getAudioData w = Swept (getAudioData fed) w' ∧
            (length fed ≤ length (m_channel_active w))%nat ∧
            (∀ k, Channel_get_busy k w = false →
                  m_channels w' !! k = m_channels w !! k).
Proof.
  intros Hreg.
  destruct (_mix_loop_spec (m_channel_active w) [] w Hreg)
    as (fed & w' & Hm & Hlen & Hk).
  exists fed, w'. unfold _mix. rewrite Hm. by repeat split.
Qed.

Lemma _mix_skips_inactive_witness :
  ∃ fed w', _mix_loop (m_channel_active mixer_two_playing) [] mixer_two_playing
            = Swept fed w' ∧ (length fed ≤ 3)%nat.
Proof.
  destruct (_mix_skips_inactive (fun _ => 0) mixer_two_playing)
    as (fed & w' & Hm & _ & Hlen & _).
  - intros id Hid.
    change (m_channel_active mixer_two_playing) with [0; 1; -1] in Hid.
    rewrite !elem_of_cons, elem_of_nil in Hid.
    destruct Hid as [->|[->|[->|[]]]]; by eexists.
  - by exists fed, w'.
Defined.

Lemma Mixer_run_app gad line a b w evs1 w1 evs2 t :
  Mixer_run gad line a w = (evs1, Looping w1) →
  Mixer_run gad line b w1 = (evs2, t) →
  Mixer_run gad line (a + b) w = (evs1 ++ evs2, t).
Proof.
  revert w evs1. induction a as [|a IH]; intros w evs1; simpl.
  - intros [= <- <-] Hb. done.
  - destruct (m_initialized w); cbn [negb]; [|done].
    destruct (run_cycle gad line w) as [ev w'|k w']; [|done].
    destruct (Mixer_run gad line a w') as [evs t'] eqn:Hp.
    intros [= <- ->] Hb.
    by rewrite (IH _ _ Hp Hb).
Qed.

Lemma run_cycle_data gad line w id s n st loops :
  m_active w = true → m_channel_active w = [id] →
  playing w id s (ReadBytes n :: st) loops → 0 < n →
  ∃ w', run_cycle gad line w
        = Swept (Writes (_write line
                           (from_option af_frameSize 0 (m_audio_format w)) n)) w' ∧
        playing w' id s st loops ∧ only_channels_differ w w'.
Proof.
  intros Hm Hact Hplay Hn.
  destruct (Channel__get_data_only _ _ _ _ _ _ Hplay Hn) as (g & w' & Hget & Hp & Ho).
  destruct Hplay as (c & Hc & _ & _ & _ & Ha).
  exists w'. split; [|done].
  unfold run_cycle. rewrite Hm, Hact. simpl.
  unfold _read. rewrite Hc, Ha, Hget. simpl.
  rewrite decide_False by lia.
  unfold write_if_data. rewrite decide_True by lia.
  destruct Ho as (_ & -> & _). done.
Qed.

Lemma Mixer_run_blocks gad line w id s cs loops :
  Forall (fun n => 0 < n) cs → m_initialized w = true →
  m_active w = true → m_channel_active w = [id] →
  playing w id s (ReadBytes <$> cs) loops →
  ∃ w', Mixer_run gad line (length cs) w
        = ((fun n => Writes (_write line
                               (from_option af_frameSize 0 (m_audio_format w)) n))
             <$> cs, Looping w') ∧
        playing w' id s [] loops ∧ only_channels_differ w w'.
Proof.
  intros Hpos. revert w.
  induction Hpos as [|n cs Hn Hpos IH]; intros w Hinit Hm Hact Hplay.
  - exists w. split; [done|]. split; [done | apply only_channels_differ_refl].
  - destruct (run_cycle_data gad line _ _ _ _ _ _ Hm Hact Hplay Hn)
      as (w1 & Hcyc & Hp1 & Ho1).
    pose proof Ho1 as (_ & Hfmt & _ & _ & _ & _ & Hact1 & _ & _ & Hm1 & Hinit1).
    destruct (IH w1) as (w2 & Hcycs & Hp2 & Ho2); [congruence.. | done |].
    exists w2. cbn [Mixer_run length fmap list_fmap].
    rewrite Hinit. cbn [negb]. rewrite Hcyc, Hcycs, Hfmt.
    split; [done|]. split; [done|].
    by eapply only_channels_differ_trans.
Qed.

(** X20.  A sound played once on an initialized mixer with an empty active
    pool is written out by the mixing thread block by block, when no other
    call comes in between: one cycle per block of the stream, each writing
    that block through [_write]; the next cycle finds the end of the
    stream, writes nothing and stops the channel; from then on the thread
    sleeps, with the id back in the available pool, the active pool empty
    and the busy flag off. *)
Theorem run_plays_sound_to_end (getAudioData : list (Z * Q * Q) → Z)
    (line : Z → write_outcome) (s : Sound) (cs : list Z) (w : Mixer)
    (id : Z) (rest : list Z) :
  m_initialized w = true →
  m_channel_available w = id :: rest →
  obtainable w id →
  id > m_channel_reserved_num w - 1 →
  m_channel_active w = [] →
  s_sound_object s = ReadBytes <$> cs →
  Forall (fun n => 0 < n) cs →
  let frameSize := from_option af_frameSize 0 (m_audio_format w) in
  ∃ w1 w2, Sound_play s 0 w = Ok (Some id) w1 ∧
           Mixer_run getAudioData line (length cs + 2) w1
           = (((fun n => Writes (_write line frameSize n)) <$> cs)
                ++ [Silent; Sleeps], Looping w2) ∧
           stopped w2 id ∧
           m_channel_available w2 = rest ++ [id] ∧
           m_channel_active w2 = [] ∧
           m_active w2 = false ∧
           run_cycle getAudioData line w2 = Swept Sleeps w2.
Proof.
  intros Hinit Hav Hobt Hres Hempty Hsrc Hpos. simpl.
  destruct (Sound_play_playing s 0 w id rest Hav Hobt)
    as (w1 & Hplay & Hp1 & Ha1 & Hact1 & Hr1 & Hn1 & Hm1).
  rewrite Hempty in Hact1. simpl in Hact1.
  assert (Hfmt1 : m_audio_format w1 = m_audio_format w ∧
                  m_initialized w1 = m_initialized w).
  { revert Hplay. unfold Sound_play, _retrieve_channel. rewrite Hav. simpl.
    unfold _get_channel, Channel_init, _register_channel.
    destruct (m_channels _ !! id); [by intros [= <-]|].
    destruct (m_bufferSize _); [|done]. case_decide; [|done].
    by intros [= <-]. }
  destruct Hfmt1 as [Hfmt1 Hinit1]. rewrite Hinit in Hinit1.
  exists w1. rewrite Hsrc in Hp1.
  destruct (Mixer_run_blocks getAudioData line _ _ _ _ _ Hpos Hinit1 Hm1 Hact1 Hp1)
    as (w1' & Hcycs & Hp2 & Ho).
  pose proof Ho as (_ & Hfmt2 & _ & _ & _ & Ha2 & Hact2 & Hr2 & Hn2 & Hm2 & Hinit2).
  rewrite Hinit1 in Hinit2.
  destruct Hp2 as (c & Hc & Hs & Hst & Hl & Hact).
  set (w1'' := upd_channel id
                 (fun c => c_set_data_len (-1) (c_set_stream (Some []) c)) w1').
  assert (Hget : Channel__get id w1' = Ok (-1, 1%Q, 1%Q) (Channel_stop id w1'')).
  { unfold Channel__get. rewrite Hc, Hst. simpl. by rewrite Hl. }
  assert (Hb : Channel_get_busy id w1'' = true).
  { unfold Channel_get_busy, w1'', upd_channel. simpl.
    by rewrite lookup_alter_eq, Hc. }
  set (w2 := Channel_stop id w1'').
  destruct (Channel_stop_pools_busy id w1'' Hb) as (Hsa & _ & Hsm & Hsav & _).
  destruct Hsav as [Hsav Hsres].
  { unfold w1''. simpl. rewrite Hn2, Hn1. done. }
  assert (Hact_w2 : m_channel_active w2 = []).
  { unfold w2. rewrite Hsa. unfold w1''. simpl. rewrite Hact2, Hact1. simpl.
    by rewrite decide_True. }
  assert (Hm_w2 : m_active w2 = false).
  { unfold w2. rewrite Hsm. unfold w1''. simpl. rewrite Hact2, Hact1. simpl.
    by rewrite decide_True. }
  assert (Hend : run_cycle getAudioData line w1' = Swept Silent w2).
  { unfold run_cycle. rewrite Hm2, Hm1, Hact2, Hact1. simpl.
    unfold _read. rewrite Hc, Hact, Hget. simpl. done. }
  assert (Hsleep : run_cycle getAudioData line w2 = Swept Sleeps w2).
  { unfold run_cycle. by rewrite Hm_w2. }
  assert (Hinit_w2 : m_initialized w2 = true).
  { unfold w2. by rewrite Channel_stop_initialized. }
  exists w2. split; [done|]. split.
  { rewrite <- Hfmt1.
    apply (Mixer_run_app _ _ _ 2 _ _ w1' [Silent; Sleeps] (Looping w2) Hcycs).
    cbn [Mixer_run]. rewrite Hinit2. cbn [negb]. rewrite Hend, Hinit_w2.
      cbn [negb]. by rewrite Hsleep. }
  split; [by apply Channel_stop_stopped|].
  split; [|done].
  fold w2 in Hsav. rewrite Hsav. unfold w1''. simpl. by rewrite Ha2, Ha1.
Qed.

Lemma run_plays_sound_to_end_witness :
  ∃ w1 w2, Sound_play beep 0 mixer_started = Ok (Some 0) w1 ∧
           Mixer_run (fun _ => 0) (whole_frames 4) 4 w1
           = ([Writes (Some [(4096, WriteDone)]);
               Writes (Some [(1024, WriteDone)]); Silent; Sleeps], Looping w2) ∧
           m_active w2 = false.
Proof.
  destruct (run_plays_sound_to_end (fun _ => 0) (whole_frames 4) beep
              [4096; 1024] mixer_started 0 (seqZ 1 7))
    as (w1 & w2 & Hp & Hc & _ & _ & _ & Hm & _).
  - reflexivity.
  - reflexivity.
  - right. split; [by eexists | by vm_compute].
  - by vm_compute.
  - reflexivity.
  - reflexivity.
  - repeat constructor.
  - by exists w1, w2.
Defined.

(** X21.  While the only channel of the active pool is paused, a cycle of
    the mixing thread writes nothing and changes nothing, and it does not
    sleep either: the busy flag stays on, so on an initialized mixer the
    loop spins, cycle after cycle, until another call resumes or stops the
    channel. *)
Theorem run_cycle_paused_spins (getAudioData : list (Z * Q * Q) → Z)
    (line : Z → write_outcome) (w : Mixer) (id : Z) (c : Channel) (k : nat) :
  m_initialized w = true →
  m_active w = true → m_channel_active w = [id] →
  m_channels w !! id = Some c → c_active c = false →
  run_cycle getAudioData line w = Swept Silent w ∧
  Mixer_run getAudioData line k w = (replicate k Silent, Looping w).
Proof.
  intros Hinit Hm Hact Hc Ha.
  assert (Hcyc : run_cycle getAudioData line w = Swept Silent w).
  { unfold run_cycle. rewrite Hm, Hact. simpl. unfold _read. by rewrite Hc, Ha. }
  split; [done|]. induction k as [|k IH]; [done|].
  cbn [Mixer_run replicate]. rewrite Hinit. cbn [negb]. by rewrite Hcyc, IH.
Qed.

Lemma run_cycle_paused_spins_witness :
  Mixer_run (fun _ => 0) (whole_frames 4) 5
    (Channel_pause 0 mixer_panned_left)
  = (replicate 5 Silent, Looping (Channel_pause 0 mixer_panned_left)).
Proof.
  eapply (run_cycle_paused_spins (fun _ => 0) (whole_frames 4)
            (Channel_pause 0 mixer_panned_left) 0); reflexivity.
Defined.

(** ** Leaving the loop *)

Lemma Channel_stop_music id w : m_music (Channel_stop id w) = m_music w.
Proof.
  unfold Channel_stop. destruct (m_channels w !! id) as [c|]; [|done].
  destruct (c_active c); simpl; [|done]. by pool_cases.
Qed.

Lemma foldl_stop_flags ids w :
  let w1 := foldl (fun w id => if decide (id > -1) then Channel_stop id w else w)
              w ids in
  m_music w1 = m_music w ∧ m_initialized w1 = m_initialized w.
Proof.
  revert w. induction ids as [|a ids IH]; intros w; cbn [foldl]; [done|].
  destruct (IH (if decide (a > -1) then Channel_stop a w else w)) as [-> ->].
  case_decide; [|done]. by rewrite Channel_stop_music, Channel_stop_initialized.
Qed.

Lemma foldl_stop_inactive ids w k c :
  m_channels w !! k = Some c → c_active c = false →
  m_channels (foldl (fun w id => if decide (id > -1) then Channel_stop id w else w)
                w ids) !! k = Some c.
Proof.
  revert w. induction ids as [|a ids IH]; intros w Hc Ha; cbn [foldl]; [done|].
  apply IH; [|done]. case_decide; [|done].
  destruct (decide (a = k)) as [->|Hne]; [|by rewrite Channel_stop_lookup_ne].
  rewrite Channel_stop_busy_false; [done|].
  unfold Channel_get_busy. by rewrite Hc.
Qed.

(** X23.  After [quit] the thread leaves its loop at the next test and
    [_quit] runs; when every id above -1 in the active pool is registered
    and [init] had succeeded, [_quit] returns with the backend dropped and
    [get_init] giving [None], no channel of the active pool above -1 and
    not the music channel is busy any more, and every channel that was not
    active (idle or paused) is as it was. *)
Theorem quit_ends_thread (getAudioData : list (Z * Q * Q) → Z)
    (line : Z → write_outcome) (w : Mixer) (k : nat) :
  active_registered w → m_music w = true →
  ∃ w', Mixer_run getAudioData line (S k) (quit w) = ([], Ended (QuitDone w')) ∧
        m_mixer w' = None ∧ get_init w' = None ∧
        (∀ id, id ∈ m_channel_active w → id > -1 →
               Channel_get_busy id w' = false) ∧
        Music_get_busy w' = false ∧
        (∀ id c, m_channels w !! id = Some c → c_active c = false →
                 m_channels w' !! id = Some c).
Proof.
  intros Hreg Hmusic. cbn [Mixer_run]. unfold _quit, Mixer_stop.
  change (m_initialized (quit w)) with false. cbn [negb].
  change (m_channel_active (quit w)) with (m_channel_active w).
  rewrite (sweep_active_Swept _ _ (quit w) Channel_stop_dom Hreg).
  destruct (foldl_stop_spec (m_channel_active w) (quit w)) as (Hb & _ & _ & _).
  destruct (foldl_stop_flags (m_channel_active w) (quit w)) as [Hmu Hinit].
  pose proof (foldl_stop_inactive (m_channel_active w) (quit w)) as Hidle.
  cbv zeta in *. set (w1 := foldl _ (quit w) (m_channel_active w)) in *.
  rewrite Hmu. change (m_music (quit w)) with (m_music w). rewrite Hmusic.
  cbn [negb]. eexists. split; [reflexivity|]. split; [done|].
  split; [|split; [|split]].
  - unfold get_init. cbn [m_initialized set_backend].
    by rewrite Channel_stop_initialized, Hinit.
  - intros id Hin Hpos.
    change (Channel_get_busy id (Channel_stop (-1) w1) = false).
    rewrite Channel_stop_busy_ne by lia. by rewrite Hb, decide_True.
  - apply (Channel_stop_busy (-1) w1).
  - intros id c Hc Ha.
    change (m_channels (Channel_stop (-1) w1) !! id = Some c).
    specialize (Hidle id c Hc Ha).
    destruct (decide (-1 = id)) as [<-|Hne].
    + by rewrite (Channel_stop_lookup _ _ _ Hidle), Ha.
    + by rewrite Channel_stop_lookup_ne.
Qed.

Lemma quit_ends_thread_witness :
  ∃ w', Mixer_run (fun _ => 0) (whole_frames 4) 1 (quit mixer_two_playing)
        = ([], Ended (QuitDone w')) ∧
        m_mixer w' = None ∧ get_init w' = None.
Proof.
  destruct (quit_ends_thread (fun _ => 0) (whole_frames 4) mixer_two_playing 0)
    as (w' & Hr & Hm & Hg & _).
  - intros id Hin Hpos.
    destruct (active_all_playing_two id Hin Hpos) as (c & Hc & _). by eexists.
  - reflexivity.
  - by exists w'.
Defined.

Lemma _mix_loop_KeyError ids fed w :
  (∃ id, id ∈ ids ∧ m_channels w !! id = None) →
  ∃ id' w', _mix_loop ids fed w = KeyError id' w' ∧ m_channels w !! id' = None.
Proof.
  revert fed w. induction ids as [|a ids IH]; intros fed w (id & Hin & Hnone).
  { by apply elem_of_nil in Hin. }
  cbn [_mix_loop]. destruct (m_channels w !! a) as [c|] eqn:Hc; [|by exists a, w].
  apply elem_of_cons in Hin as [->|Hin]; [congruence|].
  destruct (c_active c); cbn [negb].
  2:{ apply IH. by exists id. }
  assert (Hdom : ∀ k, m_channels (state_of (Channel__get a w)) !! k = None
                      ↔ m_channels w !! k = None).
  { intros k. rewrite !eq_None_not_Some. by rewrite Channel__get_dom. }
  assert (Hstep : ∀ fed0, ∃ id' w',
            _mix_loop ids fed0 (state_of (Channel__get a w)) = KeyError id' w' ∧
            m_channels w !! id' = None).
  { intros fed0.
    destruct (IH fed0 (state_of (Channel__get a w))) as (id' & w' & Hm & Hn).
    { exists id. split; [done|]. by apply Hdom. }
    exists id', w'. split; [done|]. by apply Hdom. }
  destruct (Channel__get a w) as [g w1|e w1]; apply Hstep.
Qed.

(** X24.  An id in the active pool without a registry entry (left there
    by pausing a channel and then shrinking the capacity below it) ends
    the mixing thread: with the mixer initialized and its busy flag on,
    the next turn of the loop raises [KeyError] on an unregistered id,
    nothing catches it and [_quit] is not run. *)
Theorem run_dies_on_unregistered (getAudioData : list (Z * Q * Q) → Z)
    (line : Z → write_outcome) (w : Mixer) (id : Z) (k : nat) :
  m_initialized w = true → m_active w = true →
  id ∈ m_channel_active w → m_channels w !! id = None →
  ∃ id' w', Mixer_run getAudioData line (S k) w = ([], Died id' w') ∧
            m_channels w !! id' = None.
Proof.
  intros Hinit Hm Hin Hnone. cbn [Mixer_run]. rewrite Hinit. cbn [negb].
  unfold run_cycle. rewrite Hm. cbn [negb]. case_decide as Hlen.
  - unfold _mix.
    destruct (_mix_loop_KeyError (m_channel_active w) [] w) as (id' & w' & -> & Hn).
    { by exists id. }
    by exists id', w'.
  - destruct (m_channel_active w) as [|a [|b l]].
    + by apply elem_of_nil in Hin.
    + apply list_elem_of_singleton in Hin as ->.
      unfold _read. rewrite Hnone. by exists a, w.
    + simpl in Hlen. lia.
Qed.

Lemma run_dies_on_unregistered_witness :
  ∃ id' w', Mixer_run (fun _ => 0) (whole_frames 4) 3 mixer_orphan_active
            = ([], Died id' w') ∧
            m_channels mixer_orphan_active !! id' = None.
Proof.
  apply (run_dies_on_unregistered (fun _ => 0) (whole_frames 4)
           mixer_orphan_active 7 2 eq_refl eq_refl
           ltac:(vm_compute; by left) eq_refl).
Defined.

(** ** Reserving within the specification *)

Lemma available_wf_frame w w' :
  m_channel_available w' = m_channel_available w →
  m_channel_max w' = m_channel_max w →
  m_channel_reserved_num w' = m_channel_reserved_num w →
  (∀ id c', m_channels w' !! id = Some c' →
     (∃ c, m_channels w !! id = Some c ∧ (c_in_use c' = true → c_in_use c = true))
     ∨ (id < m_channel_max w ∧ c_in_use c' = false)) →
  available_wf w → available_wf w'.
Proof.
  intros Hav Hmax Hnum Hch (Hnd & Hlt & Hreg). unfold available_wf.
  rewrite Hav, Hmax, Hnum. split; [done|]. split; [done|].
  intros id c' Hc'. destruct (Hch id c' Hc') as [(c & Hc & Huse)|[Hid Hidle]].
  - destruct (Hreg id c Hc) as [Hid Hout]. split; [done|]. auto.
  - split; [done|]. congruence.
Qed.

Lemma available_wf_upd id f w :
  (∀ c, m_channels w !! id = Some c → c_in_use (f c) = true → c_in_use c = true) →
  available_wf w → available_wf (upd_channel id f w).
Proof.
  intros Hf. apply available_wf_frame; try done.
  intros k c' Hk. left. rewrite upd_channel_lookup in Hk.
  destruct (decide (id = k)) as [->|Hne]; [|by exists c'].
  destruct (m_channels w !! k) as [c|] eqn:Hc; [|done].
  injection Hk as <-. exists c. split; [done|]. by apply Hf.
Qed.

Lemma available_wf_upd_absent id f w :
  id ∉ m_channel_available w →
  available_wf w → available_wf (upd_channel id f w).
Proof.
  intros Hout (Hnd & Hlt & Hreg). unfold available_wf. simpl.
  split; [done|]. split; [done|].
  intros k c' Hk.
  destruct (decide (id = k)) as [->|Hne].
  - rewrite lookup_alter_eq in Hk.
    destruct (m_channels w !! k) as [c|] eqn:Hc; [|done].
    destruct (Hreg k c Hc) as [Hid _]. done.
  - rewrite lookup_alter_ne in Hk by done. by apply Hreg.
Qed.

Lemma available_wf_remove x w :
  available_wf w → available_wf (set_available (deque_remove x) w).
Proof.
  intros (Hnd & Hlt & Hreg). unfold available_wf. simpl.
  split; [by apply NoDup_deque_remove|].
  split; [intros id Hin%elem_of_deque_remove_1; auto|].
  intros id c Hc. destruct (Hreg id c Hc) as [Hid Hout]. split; [done|].
  intros Hu Hn Hin%elem_of_deque_remove_1. by apply Hout.
Qed.

Lemma available_wf_perm d w :
  d ≡ₚ m_channel_available w →
  available_wf w → available_wf (set_available (fun _ => d) w).
Proof.
  intros Hp (Hnd & Hlt & Hreg). unfold available_wf. simpl.
  split; [by rewrite Hp|].
  split; [intros id; rewrite Hp; auto|].
  intros id c Hc. destruct (Hreg id c Hc) as [Hid Hout]. split; [done|].
  rewrite Hp. auto.
Qed.

Lemma Channel_stop_available id w :
  m_channel_available (Channel_stop id w) =
  if Channel_get_busy id w && bool_decide (id > m_channel_reserved_num w - 1)
  then m_channel_available w ++ [id] else m_channel_available w.
Proof.
  unfold Channel_stop, Channel_get_busy.
  destruct (m_channels w !! id) as [c|]; [|done]. simpl.
  destruct (c_active c); simpl; [|done].
  unfold _restore_channel, _deactivate_channel, upd_channel. simpl.
  destruct (deque_isEmpty _); simpl; case_bool_decide;
    repeat case_decide; try lia; done.
Qed.

Lemma c_in_use_reset c : c_in_use (c_reset (c_set_active false c)) = false.
Proof. done. Qed.

Lemma available_wf_stop id w : available_wf w → available_wf (Channel_stop id w).
Proof.
  intros Hw. destruct (Channel_get_busy id w) eqn:Hb.
  2:{ by rewrite Channel_stop_busy_false. }
  pose proof Hw as (Hnd & Hlt & Hreg).
  unfold Channel_get_busy in Hb.
  destruct (m_channels w !! id) as [c|] eqn:Hc; [|done]. simpl in Hb.
  destruct (Hreg id c Hc) as [Hid Hout].
  assert (Huse : c_in_use c = true) by (unfold c_in_use; by rewrite Hb).
  assert (Hch : ∀ k c', m_channels (Channel_stop id w) !! k = Some c' →
            (k = id ∧ c_in_use c' = false) ∨ (k ≠ id ∧ m_channels w !! k = Some c')).
  { intros k c' Hk. destruct (decide (id = k)) as [->|Hne].
    - left. rewrite (Channel_stop_lookup _ _ _ Hc), Hb in Hk.
      injection Hk as <-. done.
    - right. by rewrite Channel_stop_lookup_ne in Hk. }
  unfold available_wf.
  rewrite Channel_stop_available, Channel_stop_channel_max,
    Channel_stop_reserved_num.
  unfold Channel_get_busy. rewrite Hc. simpl. rewrite Hb. simpl.
  case_bool_decide as Hres.
  - split; [|split].
    + apply NoDup_app. split; [done|]. split; [|apply NoDup_singleton].
      intros x Hx ->%list_elem_of_singleton. by apply Hout.
    + intros k [Hk| ->%list_elem_of_singleton]%elem_of_app; auto.
    + intros k c' Hk. destruct (Hch k c' Hk) as [[-> Hidle]|[Hne Hk0]].
      * split; [done|]. congruence.
      * destruct (Hreg k c' Hk0) as [Hkid Hkout]. split; [done|].
        intros Hu Hn [Hin| ->%list_elem_of_singleton]%elem_of_app; [|done].
        by apply Hkout.
  - split; [done|]. split; [done|].
    intros k c' Hk. destruct (Hch k c' Hk) as [[-> Hidle]|[Hne Hk0]].
    + split; [done|]. congruence.
    + by apply Hreg.
Qed.

Lemma available_wf_activate id f w :
  available_wf w → available_wf (_activate_channel id (upd_channel id f w)).
Proof.
  intros (Hnd & Hlt & Hreg). unfold available_wf, _activate_channel. simpl.
  assert (Hch : ∀ k c', alter f id (m_channels w) !! k = Some c' →
            k < m_channel_max w ∧
            (k ≠ id → c_in_use c' = true → k > m_channel_reserved_num w - 1 →
             k ∉ m_channel_available w)).
  { intros k c' Hk.
    destruct (decide (id = k)) as [->|Hne].
    - rewrite lookup_alter_eq in Hk.
      destruct (m_channels w !! k) as [c|] eqn:Hc; [|done].
      destruct (Hreg k c Hc) as [Hid _]. done.
    - rewrite lookup_alter_ne in Hk by done.
      destruct (Hreg k c' Hk) as [Hid Hout]. auto. }
  case_decide as Hres; simpl.
  - split; [by apply NoDup_deque_remove|].
    split; [intros k Hin%elem_of_deque_remove_1; auto|].
    intros k c' Hk. destruct (Hch k c' Hk) as [Hid Hout]. split; [done|].
    intros Hu Hn. destruct (decide (k = id)) as [->|Hne].
    + by apply not_elem_of_deque_remove.
    + intros Hin%elem_of_deque_remove_1. by apply Hout.
  - split; [done|]. split; [done|].
    intros k c' Hk. destruct (Hch k c' Hk) as [Hid Hout]. split; [done|].
    intros Hu Hn. apply Hout; [|done..]. intros ->. done.
Qed.

Lemma c_in_use_set_volume v v2 c : c_in_use (c_set_volume v v2 c) = c_in_use c.
Proof. unfold c_set_volume. by destruct (truthy v2). Qed.

Lemma available_wf_Channel_play id s loops w :
  available_wf w → available_wf (Channel_play id s loops w).
Proof.
  intros Hw. unfold Channel_play. destruct (m_channels w !! id) as [c|]; [|done].
  apply available_wf_activate. destruct (c_sound c); [|done].
  apply available_wf_upd; [|by apply available_wf_stop].
  intros c0 _. by rewrite c_in_use_set_volume.
Qed.

Lemma available_wf_get_channel id w :
  available_wf w → available_wf (state_of (_get_channel id w)).
Proof.
  unfold _get_channel, Channel_init, _register_channel.
  destruct (m_channels w !! id) eqn:Hc; [done|].
  destruct (m_bufferSize w); [|done]. case_decide; [|done]. simpl.
  apply available_wf_frame; try done.
  intros k c' Hk. simpl in Hk.
  destruct (decide (id = k)) as [->|Hne].
  - rewrite lookup_insert_eq in Hk. injection Hk as <-. by right.
  - rewrite lookup_insert_ne in Hk by done. left. by exists c'.
Qed.

Lemma available_wf_find_channel force w :
  available_wf w → available_wf (state_of (find_channel force w)).
Proof.
  intros Hw. unfold find_channel.
  destruct (m_channel_available w) as [|a rest] eqn:Hav; simpl.
  2:{ rewrite state_of_returning_channel. apply available_wf_get_channel.
      apply available_wf_perm; [|done]. rewrite Hav. apply deque_rotate_perm. }
  destruct (decide (m_channel_reserved_num w = 0)).
  { destruct force; simpl; [|done]. destruct (scan_active _ _ _).
    rewrite state_of_returning_channel. by apply available_wf_get_channel. }
  destruct (m_channel_reserved w) as [|b rest] eqn:Hres; simpl.
  2:{ rewrite state_of_returning_channel. by apply available_wf_get_channel. }
  destruct force; simpl; [|done]. destruct (scan_active _ _ _).
  rewrite state_of_returning_channel. by apply available_wf_get_channel.
Qed.

Lemma available_wf_Sound_play s loops w :
  available_wf w → available_wf (state_of (Sound_play s loops w)).
Proof.
  intros Hw. unfold Sound_play, _retrieve_channel.
  destruct (m_channel_available w) as [|a rest] eqn:Hav; simpl; [done|].
  pose proof Hw as (Hnd & Hlt & Hreg). rewrite Hav in Hnd, Hlt, Hreg.
  apply NoDup_cons in Hnd as [Ha Hnd].
  set (w0 := set_available (fun _ => rest) w).
  assert (H0 : available_wf w0).
  { split; [done|]. split; simpl.
    - intros k Hk. apply Hlt. by right.
    - intros k c Hc. destruct (Hreg k c Hc) as [Hid Hout]. split; [done|].
      intros Hu Hn Hin. apply Hout; [done..|]. by right. }
  apply (available_wf_get_channel a) in H0.
  pose proof (pools_of_get_channel a w0) as (Hav0 & _).
  destruct (_get_channel a w0) as [ch w'|e w'] eqn:Hget; simpl in *; [|done].
  apply _get_channel_Ok in Hget as (-> & _).
  unfold Channel__play.
  apply available_wf_upd_absent; [simpl; by rewrite Hav0|].
  revert H0. by apply available_wf_frame; try done; intros k c' Hk; left; exists c'.
Qed.

Lemma available_wf_Channel__get id w :
  available_wf w → available_wf (state_of (Channel__get id w)).
Proof.
  intros Hw. unfold Channel__get. destruct (m_channels w !! id) as [c|]; [|done].
  destruct (c_stream c) as [st|]; [|done].
  destruct (stream_read st) as [r st'].
  assert (H1 : available_wf
                 (upd_channel id
                    (fun c => c_set_data_len (default 0 r) (c_set_stream (Some st') c))
                    w)).
  { by apply available_wf_upd. }
  case_decide; [by destruct (c_sound c)|].
  case_decide; simpl; [by apply available_wf_stop|].
  destruct (c_sound c); simpl; [|done]. by apply available_wf_upd.
Qed.

Lemma available_wf_init f sz ch b backend w :
  available_wf w → available_wf (state_of (init f sz ch b backend w)).
Proof.
  intros Hw. unfold init. destruct (m_initialized w); [done|].
  destruct (backend _ _) as [|isInit n]; simpl; [done|].
  destruct isInit; simpl; [|done].
  unfold Channel_init, _register_channel. simpl. case_decide; simpl; [|done].
  revert Hw. apply available_wf_frame; try done.
  intros k c' Hk. simpl in Hk.
  destruct (decide (-1 = k)) as [<-|Hne].
  - rewrite lookup_insert_eq in Hk. injection Hk as <-. by right.
  - rewrite lookup_insert_ne in Hk by done. left. by exists c'.
Qed.

Lemma shrink_step_available_absent w a x :
  x ≠ a → x ∉ m_channel_available w → x ∉ m_channel_available (shrink_step w a).
Proof.
  intros Hne Hx. unfold shrink_step.
  destruct (m_channels w !! a); simpl; intros Hin%elem_of_deque_remove_1; [|done].
  rewrite Channel_stop_available in Hin.
  destruct (_ && _); [|done].
  apply elem_of_app in Hin as [?| ->%list_elem_of_singleton]; done.
Qed.

Lemma available_wf_shrink_step w a :
  available_wf w →
  available_wf (shrink_step w a) ∧ a ∉ m_channel_available (shrink_step w a).
Proof.
  intros Hw. unfold shrink_step.
  destruct (m_channels w !! a) as [c|] eqn:Hc; simpl.
  - pose proof (available_wf_stop a w Hw) as Hs.
    split; [|apply not_elem_of_deque_remove, Hs].
    apply available_wf_remove. revert Hs.
    apply available_wf_frame; try done.
    intros k c' Hk. simpl in Hk. left. exists c'.
    apply lookup_delete_Some in Hk as [_ Hk]. done.
  - split; [by apply available_wf_remove|].
    apply not_elem_of_deque_remove, Hw.
Qed.

Lemma foldl_shrink_step_absent ids w x :
  x ∉ ids → x ∉ m_channel_available w →
  x ∉ m_channel_available (foldl shrink_step w ids).
Proof.
  revert w. induction ids as [|a ids IH]; intros w Hx Hout; cbn [foldl]; [done|].
  apply not_elem_of_cons in Hx as [Hne Hx].
  apply IH; [done|]. by apply shrink_step_available_absent.
Qed.

Lemma available_wf_shrink ids w :
  available_wf w →
  available_wf (foldl shrink_step w ids) ∧
  ∀ x, x ∈ ids → x ∉ m_channel_available (foldl shrink_step w ids).
Proof.
  revert w. induction ids as [|a ids IH]; intros w Hw; cbn [foldl].
  { split; [done|]. intros x Hx. by apply elem_of_nil in Hx. }
  destruct (available_wf_shrink_step w a Hw) as [H1 Ha].
  destruct (IH _ H1) as [H2 Hout]. split; [done|].
  intros x [->|Hx]%elem_of_cons; [|by apply Hout].
  destruct (decide (a ∈ ids)); [by apply Hout|].
  by apply foldl_shrink_step_absent.
Qed.

Lemma foldl_grow_reserved_num ids w :
  m_channel_reserved_num
    (foldl (fun w id => set_available (deque_add id) w) w ids)
  = m_channel_reserved_num w ∧
  m_channel_max (foldl (fun w id => set_available (deque_add id) w) w ids)
  = m_channel_max w.
Proof.
  revert w. induction ids as [|a ids IH]; intros w; cbn [foldl]; [done|].
  by destruct (IH (set_available (deque_add a) w)) as [-> ->].
Qed.

Lemma available_wf_set_num_channels count w :
  available_wf w → available_wf (set_num_channels count w).
Proof.
  intros Hw. unfold set_num_channels. case_decide as Hgrow.
  - pose proof Hw as (Hnd & Hlt & Hreg).
    destruct (foldl_grow_available
                (seqZ (m_channel_max w) (count - m_channel_max w)) w)
      as (Hav & _ & _ & Hch).
    destruct (foldl_grow_reserved_num
                (seqZ (m_channel_max w) (count - m_channel_max w)) w)
      as [Hnum _].
    unfold available_wf. simpl in *. rewrite Hav, Hch, Hnum.
    split; [|split].
    + apply NoDup_app. split; [done|]. split; [|apply NoDup_seqZ].
      intros x Hx%Hlt Hx'%elem_of_seqZ. lia.
    + intros k [Hk%Hlt|Hk%elem_of_seqZ]%elem_of_app; lia.
    + intros k c Hc. destruct (Hreg k c Hc) as [Hid Hout]. split; [lia|].
      intros Hu Hn [Hin|Hin%elem_of_seqZ]%elem_of_app; [by apply Hout | lia].
  - case_decide; [|done].
    destruct (available_wf_shrink (seqZ count (m_channel_max w - count)) w Hw)
      as [(Hnd & Hlt & Hreg) Hout].
    rewrite foldl_shrink_step_max in Hlt, Hreg.
    unfold available_wf. simpl. split; [done|]. split.
    + intros k Hk. pose proof (Hlt k Hk).
      destruct (decide (k < count)); [done|].
      exfalso. apply (Hout k); [|done]. apply elem_of_seqZ. lia.
    + intros k c Hc. destruct (Hreg k c Hc) as [Hid Huse]. split; [|done].
      rewrite foldl_shrink_step_lookup in Hc. case_decide as Hin; [done|].
      rewrite elem_of_seqZ in Hin. lia.
Qed.

Lemma available_wf_set_reserved count w :
  0 ≤ m_channel_max w → reserved_idle w →
  available_wf w → available_wf (set_reserved count w).
Proof.
  intros Hmax Hidle (Hnd & Hlt & Hreg).
  destruct (clamp_reserved_range count w Hmax) as [_ Hc].
  unfold set_reserved, available_wf.
  set (w2 := set_reserved_pool _ _).
  destruct (foldl_reserve_step_frame (seqZ 0 (clamp_reserved count w)) w2)
    as (-> & -> & _ & ->).
  rewrite foldl_reserve_step_available. simpl.
  split; [by apply foldl_deque_remove_NoDup|].
  split; [intros k Hk%foldl_deque_remove_elem_of; auto|].
  intros k c Hk. destruct (Hreg k c Hk) as [Hid Hout]. split; [done|].
  intros Hu Hn Hin%foldl_deque_remove_elem_of.
  destruct (decide (k > m_channel_reserved_num w - 1)) as [Hk1|Hk1].
  - by apply Hout.
  - rewrite (Hidle k c Hk) in Hu; [done | lia].
Qed.

Lemma available_wf_exec c w :
  pool_wf w → call_in_spec c w → available_wf w → available_wf (exec c w).
Proof.
  intros (Hmax & _) Hspec Hw. destruct c; simpl.
  - by apply available_wf_init.
  - done.
  - by apply available_wf_set_num_channels.
  - by apply available_wf_set_reserved.
  - by apply available_wf_find_channel.
  - by apply available_wf_get_channel.
  - by apply available_wf_Sound_play.
  - by apply available_wf_Channel_play.
  - by apply available_wf_stop.
  - unfold Channel_pause. destruct (m_channels w !! id) as [ch|] eqn:Hc; [|done].
    destruct (c_active ch) eqn:Ha; [|done]. apply available_wf_upd; [|done].
    intros c0 Hc0 _. rewrite Hc in Hc0. injection Hc0 as <-.
    unfold c_in_use. by rewrite Ha.
  - unfold Channel_unpause. destruct (m_channels w !! id) as [ch|] eqn:Hc; [|done].
    destruct (c_pause ch) eqn:Ha; [|done]. apply available_wf_upd; [|done].
    intros c0 Hc0 _. rewrite Hc in Hc0. injection Hc0 as <-.
    unfold c_in_use. rewrite Ha. apply orb_true_r.
  - apply available_wf_upd; [|done]. intros c0 _. by rewrite c_in_use_set_volume.
  - by apply available_wf_Channel__get.
Qed.

Lemma in_spec_wf w : reachable_in_spec w → pool_wf w ∧ available_wf w.
Proof.
  induction 1 as [|c w Hreach [IHwf IHav] Hspec].
  - split; [apply pool_wf_new|].
    split; [apply NoDup_seqZ|]. split; simpl.
    + intros k Hk%elem_of_seqZ. lia.
    + intros k c Hc. by rewrite lookup_empty in Hc.
  - split; [by apply pool_wf_exec | by apply available_wf_exec].
Qed.

Lemma occ_foldl_deque_remove (ids d : list Z) id :
  NoDup ids →
  occ id (foldl (fun d x => deque_remove x d) d ids) =
  if decide (id ∈ ids) then Nat.pred (occ id d) else occ id d.
Proof.
  intros Hnd. revert d. induction Hnd as [|a ids Ha Hnd IH]; intros d; cbn [foldl].
  - rewrite decide_False; [done | apply not_elem_of_nil].
  - rewrite IH, occ_deque_remove. destruct (decide (id = a)) as [->|Hne].
    + rewrite (decide_False (P := a ∈ ids)) by done.
      rewrite decide_True; [done | by left].
    + destruct (decide (id ∈ ids)) as [Hin|Hnin].
      * rewrite decide_True; [done | by right].
      * rewrite decide_False; [done|].
        apply not_elem_of_cons. by split.
Qed.

(** C6, as the code has it.  [set_reserved(r)] clamps [r] to the range
    from 0 to the capacity (which is never negative).  Afterwards the reserved count is the clamped
    value [c], the reserved pool holds exactly the ids 0..c-1, and one
    occurrence of each of them has been taken out of the available pool,
    which is otherwise as it was.  So none of them is in the available
    pool when that pool held no id twice; and it holds none twice in every
    state reached from a new mixer by the calls of [exec] with
    [set_reserved] called only while no channel of the reserved region is
    playing or paused. *)
Theorem set_reserved_spec (r : Z) (w : Mixer) :
  let c := clamp_reserved r w in
  let w' := set_reserved r w in
  (0 ≤ m_channel_max w →
   c = Z.max 0 (Z.min r (m_channel_max w)) ∧ 0 ≤ c ≤ m_channel_max w) ∧
  m_channel_reserved_num w' = c ∧
  m_channel_reserved w' = seqZ 0 c ∧
  (∀ id, id ∈ m_channel_reserved w' ↔ 0 ≤ id < c) ∧
  (∀ id, occ id (m_channel_available w') =
         if decide (0 ≤ id < c) then Nat.pred (occ id (m_channel_available w))
         else occ id (m_channel_available w)) ∧
  (∀ id, ¬ (0 ≤ id < c) →
     id ∈ m_channel_available w' ↔ id ∈ m_channel_available w) ∧
  (NoDup (m_channel_available w) →
   ∀ id, 0 ≤ id < c → id ∉ m_channel_available w') ∧
  (reachable_in_spec w →
   ∀ id, 0 ≤ id < c → id ∉ m_channel_available w').
Proof.
  simpl. split; [apply clamp_reserved_range|].
  unfold set_reserved.
  set (w2 := set_reserved_pool _ _).
  destruct (foldl_reserve_step_frame (seqZ 0 (clamp_reserved r w)) w2)
    as (Hnum & _).
  rewrite Hnum, foldl_reserve_step_reserved, foldl_reserve_step_available.
  simpl. split; [done|]. split; [done|].
  assert (Hnodup : NoDup (m_channel_available w) →
            ∀ id, 0 ≤ id < clamp_reserved r w →
              id ∉ foldl (fun d id => deque_remove id d) (m_channel_available w)
                     (seqZ 0 (clamp_reserved r w))).
  { intros Hnd id Hid. apply foldl_deque_remove_removed; [done|].
    apply elem_of_seqZ. lia. }
  split; [|split; [|split; [|split; [done|]]]].
  - intros id. rewrite elem_of_seqZ. lia.
  - intros id. rewrite occ_foldl_deque_remove by apply NoDup_seqZ.
    destruct (decide (0 ≤ id < clamp_reserved r w)) as [Hid|Hid].
    + rewrite decide_True; [done|]. apply elem_of_seqZ. lia.
    + rewrite decide_False; [done|]. rewrite elem_of_seqZ. lia.
  - intros id Hid. split; [apply foldl_deque_remove_elem_of|].
    apply foldl_deque_remove_kept. rewrite elem_of_seqZ. lia.
  - intros Hreach. apply Hnodup.
    by apply in_spec_wf in Hreach as (_ & Hnd & _).
Qed.

Lemma set_reserved_spec_witness :
  m_channel_reserved (set_reserved 3 mixer_started) = seqZ 0 3 ∧
  occ 2 (m_channel_available (set_reserved 3 mixer_started)) = 0%nat ∧
  2 ∉ m_channel_available (set_reserved 3 mixer_started).
Proof.
  destruct (set_reserved_spec 3 mixer_started)
    as (_ & _ & Hres & _ & Hocc & _ & _ & Hav).
  split; [exact Hres|]. split; [by rewrite Hocc|].
  apply Hav; [|by vm_compute].
  apply (in_spec_call (call_init backend_ok) Mixer_new in_spec_new I).
Defined.

(** On a registered channel, [kept_stop] is [Channel.stop]. *)
Lemma kept_stop_registered id c w :
  m_channels w !! id = Some c →
  m_channels (Channel_stop id w) !! id = Some (kept_stop id c w).1 ∧
  m_channel_available (Channel_stop id w)
  = m_channel_available (kept_stop id c w).2 ∧
  m_channel_reserved (Channel_stop id w)
  = m_channel_reserved (kept_stop id c w).2 ∧
  m_channel_active (Channel_stop id w) = m_channel_active (kept_stop id c w).2.
Proof.
  intros Hc. rewrite (Channel_stop_lookup _ _ _ Hc).
  unfold Channel_stop, kept_stop. rewrite Hc.
  destruct (c_active c); simpl; [|done]. split; [done|]. by pool_cases.
Qed.

(** C6, as stated, fails when an id below [r] is twice in the available
    pool, and a caller that keeps a channel object can bring that about
    with no channel in use when [set_reserved] is called.  Channel 7 is
    paused; [set_num_channels(7)] unregisters it without stopping it, and
    [set_num_channels(8)] puts id 7 back into the available pool.  The
    object, still held, is resumed and stopped: [stop] appends its id to
    the available pool a second time.  [set_reserved(8)] then reserves the
    ids 0..7 and leaves id 7 in the available pool as well. *)
Lemma set_reserved_after_kept_stop :
  m_channels mixer_paused_top !! 7 = Some kept_channel_7 ∧
  c_active kept_channel_7 = false ∧ c_pause kept_channel_7 = true ∧
  m_channels mixer_regrown !! 7 = None ∧
  m_channel_available mixer_regrown = [0; 1; 2; 3; 4; 5; 6; 7] ∧
  m_channel_active mixer_regrown = [7] ∧
  c_in_use (kept_stop 7 (kept_unpause kept_channel_7) mixer_regrown).1 = false ∧
  m_channel_available mixer_kept_stopped = [0; 1; 2; 3; 4; 5; 6; 7; 7] ∧
  m_channel_active mixer_kept_stopped = [] ∧
  m_channel_reserved_num mixer_kept_stopped = 0 ∧
  m_channel_max mixer_kept_stopped = 8 ∧
  m_channel_reserved (set_reserved 8 mixer_kept_stopped) = seqZ 0 8 ∧
  m_channel_available (set_reserved 8 mixer_kept_stopped) = [7] ∧
  7 ∈ m_channel_reserved (set_reserved 8 mixer_kept_stopped) ∧
  7 ∈ m_channel_available (set_reserved 8 mixer_kept_stopped).
Proof.
  split; [by vm_compute|].
  do 11 (split; [reflexivity|]).
  change (m_channel_reserved (set_reserved 8 mixer_kept_stopped))
    with [0; 1; 2; 3; 4; 5; 6; 7].
  change (m_channel_available (set_reserved 8 mixer_kept_stopped)) with [7].
  rewrite !elem_of_cons. split; [done|]. split; [auto 10 | by left].
Qed.
